(** * search_query: the query tree of [query.py] and the raw query-string
      validators of [parser_validation.py], embedded and verified

    The development has two parts.  [SearchQuery] embeds the class [Query]:
    nodes live in a store and are referred to by address, because a nested
    query contributes its root node by reference and the structural validator
    works by setting a flag on the shared node objects.  [ParserValidation]
    embeds the regex-driven linters over raw query strings. *)

From stdpp Require Import base list sets strings.
From Stdlib Require Import NArith Lia DecimalString.

(** ** Outcomes of a Python call *)

Inductive exn : Type :=
| AssertionError
| ValueError (msg : string)
| UnboundLocalError
| IndexError
| EOFError.

(** [Stuck] is not a Python outcome: it is what the embedding answers when the
    recursion budget is used up or an address points outside the store.  The
    lemmas below show that neither happens on the stores the constructor
    builds. *)
Inductive result (A : Type) : Type :=
| Ok (a : A)
| Raise (e : exn)
| Stuck.
Arguments Ok {A} a.
Arguments Raise {A} e.
Arguments Stuck {A}.

Definition is_Ok {A} (r : result A) : Prop :=
  match r with Ok _ => True | _ => False end.

(** A value, or the [UnboundLocalError] of a field lookup: what a serializer
    can give on a tree it can walk. *)
Definition fine {A} (r : result A) : Prop :=
  match r with
  | Ok _ => True
  | Raise e => e = UnboundLocalError
  | Stuck => False
  end.

Module SearchQuery.

(** ** Data model *)

Abbreviation addr := nat.

(** Modelled from the spec: [node.py] is not among the sources.  Section 3 of
    the specification gives a node its value, operator flag, search-field tag,
    ordered children and the transient [marked] flag; a new node has no
    children and is not marked.  Nodes are compared by identity ([==] on
    objects without an [__eq__] of their own), which is equality of
    addresses here. *)
Record Node : Type := mkNode {
  value : string;
  operator : bool;
  search_field : string;
  children : list addr;
  marked : bool
}.

Abbreviation store := (list Node).

Definition set_children (cs : list addr) (nd : Node) : Node :=
  mkNode (value nd) (operator nd) (search_field nd) cs (marked nd).

Definition set_marked (b : bool) (nd : Node) : Node :=
  mkNode (value nd) (operator nd) (search_field nd) (children nd) b.

(** Modelled from the spec: [tree.py] is not among the sources.  A tree owns
    a root node and offers a bulk clear-marks operation. *)
Record Tree : Type := mkTree { root : addr }.

Record Query : Type := mkQuery { query_tree : Tree }.

(** ** Store-passing computations that may raise

    The store is returned on every path: what a call has written stays
    written when it raises. *)

Definition M (A : Type) : Type := store → result A * store.

Definition ret {A} (a : A) : M A := λ h, (Ok a, h).
Definition raise {A} (e : exn) : M A := λ h, (Raise e, h).
Definition stuck {A} : M A := λ h, (Stuck, h).

Definition bind {A B} (m : M A) (k : A → M B) : M B :=
  λ h, match m h with
       | (Ok a, h') => k a h'
       | (Raise e, h') => (Raise e, h')
       | (Stuck, h') => (Stuck, h')
       end.

Notation "'do' x <- m ; k" := (bind m (λ x, k))
  (at level 10, x name, m at level 100, k at level 200).

(** [for x in l: body(x)] *)
Fixpoint for_each {A} (body : A → M unit) (l : list A) : M unit :=
  match l with
  | [] => ret tt
  | x :: l' => do _ <- body x; for_each body l'
  end.

(** [Node(value, operator, search_field)]: a fresh object, at the next free
    address. *)
Definition Node_init (v : string) (op : bool) (sf : string) : M addr :=
  λ h, (Ok (length h), h ++ [mkNode v op sf [] false]).

(** [parent.children.append(child)] *)
Definition append_child (parent child : addr) : M unit :=
  λ h, match h !! parent with
       | Some nd => (Ok tt, <[parent := set_children (children nd ++ [child]) nd]> h)
       | None => (Stuck, h)
       end.

(** ** Construction *)

Definition _create_term_nodes (self : Query) (children_list : list string)
    (sf : string) : M unit :=
  for_each (λ item,
      do term_node <- Node_init item false sf;
      append_child (root (query_tree self)) term_node)
    children_list.

Definition _build_query_tree (self : Query) (search_terms : list string)
    (nested_queries : list Query) (sf : string) : M unit :=
  do _ <- match search_terms with
          | [] => ret tt
          | _ => _create_term_nodes self search_terms sf
          end;
  match nested_queries with
  | [] => ret tt
  | _ => for_each (λ query,
             append_child (root (query_tree self)) (root (query_tree query)))
           nested_queries
  end.

Definition tree_failed : exn := ValueError "Building Query Tree failed".

(** The mark-and-check walk.  [fuel] bounds the depth of the recursion. *)
Fixpoint _validate_tree_structure (fuel : nat) (node : addr) : M unit :=
  match fuel with
  | 0 => stuck
  | S fuel' => λ h,
      match h !! node with
      | None => (Stuck, h)
      | Some nd =>
          if marked nd then (Raise tree_failed, h)
          else for_each (_validate_tree_structure fuel') (children nd)
                 (<[node := set_marked true nd]> h)
      end
  end.

(** Modelled from the spec: [Tree.remove_all_marks] is in [tree.py], which is
    not among the sources.  Section 4.1: every mark on the tree is cleared;
    the walk starts at the root and clears the flag of each node it visits. *)
Fixpoint remove_marks (fuel : nat) (node : addr) : M unit :=
  match fuel with
  | 0 => stuck
  | S fuel' => λ h,
      match h !! node with
      | None => (Stuck, h)
      | Some nd =>
          for_each (remove_marks fuel') (children nd)
            (<[node := set_marked false nd]> h)
      end
  end.

Definition remove_all_marks (fuel : nat) (t : Tree) : M unit :=
  remove_marks fuel (root t).

Definition valid_operator (op : string) : bool :=
  bool_decide (op ∈ ["AND"; "OR"; "NOT"]).

(** [Query.__init__(operator=, search_terms=, nested_queries=, search_field=)].
    The concrete variants pass their operator name and nothing else. *)
Definition Query_init (fuel : nat) (op : string) (search_terms : list string)
    (nested_queries : list Query) (sf : string) : M Query :=
  if valid_operator op then
    do r <- Node_init op true sf;
    let self := mkQuery (mkTree r) in
    do _ <- _build_query_tree self search_terms nested_queries sf;
    do _ <- _validate_tree_structure fuel (root (query_tree self));
    do _ <- remove_all_marks fuel (query_tree self);
    do _ <- for_each (λ query, remove_all_marks fuel (query_tree query))
              nested_queries;
    ret self
  else raise AssertionError.

(** ** Serializers

    They only read the store. *)

Definition rbind {A B} (r : result A) (k : A → result B) : result B :=
  match r with
  | Ok a => k a
  | Raise e => Raise e
  | Stuck => Stuck
  end.

Notation "'let!' x := r 'in' k" := (rbind r (λ x, k))
  (at level 10, x name, r at level 100, k at level 200).

(** [result = ""; for child in l: result = body(result, child)] *)
Fixpoint fold_children {A} (body : string → A → result string) (acc : string)
    (l : list A) : result string :=
  match l with
  | [] => Ok acc
  | x :: l' => let! acc' := body acc x in fold_children body acc' l'
  end.

Definition get_search_field_wos (sf : string) : result string :=
  if String.eqb sf "Author Keywords" then Ok "AK"
  else if String.eqb sf "Abstract" then Ok "AB"
  else if String.eqb sf "Author" then Ok "AU"
  else if String.eqb sf "DOI" then Ok "DO"
  else if String.eqb sf "ISBN/ISSN" then Ok "IS"
  else if String.eqb sf "Publisher" then Ok "PUBL"
  else if String.eqb sf "Title" then Ok "TI"
  else Raise UnboundLocalError.

Definition get_search_field_pubmed (sf : string) : result string :=
  if String.eqb sf "Author Keywords" then Ok "ot"
  else if String.eqb sf "Abstract" then Ok "tiab"
  else if String.eqb sf "Author" then Ok "au"
  else if String.eqb sf "DOI" then Ok "aid"
  else if String.eqb sf "ISBN/ISSN" then Ok "isbn"
  else if String.eqb sf "Publisher" then Ok "pubn"
  else if String.eqb sf "Title" then Ok "ti"
  else Raise UnboundLocalError.

(** [child == node.children[0]] and [child == node.children[-1]], inside the
    loop over [node.children]. *)
Definition is_first (cs : list addr) (child : addr) : bool :=
  bool_decide (cs !! 0 = Some child).
Definition is_last (cs : list addr) (child : addr) : bool :=
  bool_decide (last cs = Some child).

Fixpoint _print_query_pre_notation (fuel : nat) (h : store) (node : addr)
    : result string :=
  match fuel with
  | 0 => Stuck
  | S fuel' =>
      match h !! node with
      | None => Stuck
      | Some nd =>
          match children nd with
          | [] => Ok (value nd)
          | cs =>
              let! result :=
                fold_children (λ result child,
                    let! s := _print_query_pre_notation fuel' h child in
                    let result := result +:+ s in
                    Ok (if negb (is_last cs child) then result +:+ ", "
                        else result))
                  (value nd +:+ "[") cs in
              Ok (result +:+ "]")
          end
      end
  end.

Fixpoint _print_query_wos (fuel : nat) (h : store) (node : addr)
    : result string :=
  match fuel with
  | 0 => Stuck
  | S fuel' =>
      match h !! node with
      | None => Stuck
      | Some nd =>
          let cs := children nd in
          fold_children (λ result child,
              match h !! child with
              | None => Stuck
              | Some c =>
                  if negb (operator c) then
                    let! result :=
                      if is_first cs child && negb (is_last cs child) then
                        let! f := get_search_field_wos (search_field c) in
                        Ok (result +:+ f +:+ "=(" +:+ value c)
                      else Ok (result +:+ " " +:+ value nd +:+ " " +:+ value c) in
                    Ok (if is_last cs child then result +:+ ")" else result)
                  else
                    let! result :=
                      if String.eqb (value c) "NOT" then
                        let! s := _print_query_wos fuel' h child in
                        Ok (result +:+ s)
                      else if is_first cs child && negb (is_last cs child) then
                        let! s := _print_query_wos fuel' h child in
                        Ok (result +:+ "(" +:+ s)
                      else
                        let! s := _print_query_wos fuel' h child in
                        Ok (result +:+ " " +:+ value nd +:+ " " +:+ s) in
                    Ok (if is_last cs child && negb (String.eqb (value c) "NOT")
                        then result +:+ ")" else result)
              end)
            "" cs
      end
  end.

Fixpoint _print_query_pubmed (fuel : nat) (h : store) (node : addr)
    : result string :=
  match fuel with
  | 0 => Stuck
  | S fuel' =>
      match h !! node with
      | None => Stuck
      | Some nd =>
          let cs := children nd in
          fold_children (λ result child,
              match h !! child with
              | None => Stuck
              | Some c =>
                  if negb (operator c) then
                    let! result :=
                      if is_first cs child && negb (is_last cs child) then
                        let! f := get_search_field_pubmed (search_field c) in
                        Ok (result +:+ "(" +:+ value c +:+ "[" +:+ f +:+ "]")
                      else
                        let! f := get_search_field_pubmed (search_field c) in
                        Ok (result +:+ " " +:+ value nd +:+ " " +:+ value c
                              +:+ "[" +:+ f +:+ "]") in
                    Ok (if is_last cs child then result +:+ ")" else result)
                  else
                    let! result :=
                      if String.eqb (value c) "NOT" then
                        let! s := _print_query_pubmed fuel' h child in
                        Ok (result +:+ s)
                      else if is_first cs child && negb (is_last cs child) then
                        let! s := _print_query_pubmed fuel' h child in
                        Ok (result +:+ "(" +:+ s)
                      else
                        let! s := _print_query_pubmed fuel' h child in
                        Ok (result +:+ " " +:+ value nd +:+ " " +:+ s) in
                    Ok (if is_last cs child && negb (String.eqb (value c) "NOT")
                        then result +:+ ")" else result)
              end)
            "" cs
      end
  end.

(** The quotation mark of the IEEE field prefix. *)
Definition dquote : string := String (Ascii.ascii_of_nat 34) EmptyString.

(** [enumerate(node.children)]: the loop carries the index next to the
    accumulated string. *)
Fixpoint fold_enumerate (body : string → nat → addr → result string)
    (acc : string) (index : nat) (l : list addr) : result string :=
  match l with
  | [] => Ok acc
  | x :: l' =>
      let! acc' := body acc index x in fold_enumerate body acc' (S index) l'
  end.

(** [node.children[index + 1].operator] *)
Definition next_is_operator (h : store) (cs : list addr) (index : nat)
    : result bool :=
  match cs !! (index + 1) with
  | None => Raise IndexError
  | Some a => match h !! a with
              | None => Stuck
              | Some nd => Ok (operator nd)
              end
  end.

Fixpoint _print_query_ieee (fuel : nat) (h : store) (node : addr)
    : result string :=
  match fuel with
  | 0 => Stuck
  | S fuel' =>
      match h !! node with
      | None => Stuck
      | Some nd =>
          let cs := children nd in
          fold_enumerate (λ result index child,
              match h !! child with
              | None => Stuck
              | Some c =>
                  if negb (operator c) then
                    let! result :=
                      if is_first cs child && negb (is_last cs child) then
                        let result := result +:+ "(" +:+ dquote
                                        +:+ search_field c +:+ dquote +:+ ":"
                                        +:+ value c in
                        let! nxt := next_is_operator h cs index in
                        Ok (if nxt then "(" +:+ result +:+ ")" else result)
                      else
                        let result := result +:+ " " +:+ value nd +:+ " "
                                        +:+ dquote +:+ search_field c +:+ dquote
                                        +:+ ":" +:+ value c in
                        if negb (is_last cs child) then
                          let! nxt := next_is_operator h cs index in
                          Ok (if nxt then "(" +:+ result +:+ ")" else result)
                        else Ok result in
                    Ok (if is_last cs child then result +:+ ")" else result)
                  else
                    if is_first cs child && negb (is_last cs child) then
                      let! s := _print_query_ieee fuel' h child in
                      Ok (result +:+ s)
                    else
                      let! s := _print_query_ieee fuel' h child in
                      Ok (result +:+ " " +:+ value nd +:+ " " +:+ s)
              end)
            "" 0 cs
      end
  end.

(** [Query.to_string(syntax)] *)
Definition to_string (fuel : nat) (h : store) (self : Query) (syntax : string)
    : result string :=
  if String.eqb syntax "pre_notation" then
    _print_query_pre_notation fuel h (root (query_tree self))
  else if String.eqb syntax "wos" then
    _print_query_wos fuel h (root (query_tree self))
  else if String.eqb syntax "pubmed" then
    _print_query_pubmed fuel h (root (query_tree self))
  else if String.eqb syntax "ieee" then
    _print_query_ieee fuel h (root (query_tree self))
  else Raise (ValueError ("Syntax not supported (" +:+ syntax +:+ ")")).

(** ** The walk of the validator, as a list

    [preorder fuel h n] lists the addresses in the order in which
    [_validate_tree_structure] visits them from [n] when no mark stops it,
    or [None] when [fuel] does not cover the depth or an address is outside
    the store.  It reads the children only, never the marks. *)
Fixpoint preorder (fuel : nat) (h : store) (n : addr) : option (list addr) :=
  match fuel with
  | 0 => None
  | S fuel' =>
      match h !! n with
      | None => None
      | Some nd =>
          match mapM (preorder fuel' h) (children nd) with
          | None => None
          | Some ls => Some (n :: mjoin ls)
          end
      end
  end.

Definition nodes_of (fuel : nat) (h : store) (n : addr) : list addr :=
  default [] (preorder fuel h n).

(** Every node a construction over [nested_queries] reaches below its fresh
    root and fresh term nodes, with repetitions. *)
Definition reach (fuel : nat) (h : store) (nested_queries : list Query)
    : list addr :=
  mjoin ((λ q, nodes_of fuel h (root (query_tree q))) <$> nested_queries).

(** Visiting the addresses of a list one by one, as the validator and the
    mark remover do along their walk. *)
Fixpoint mark_each (l : list addr) : M unit :=
  match l with
  | [] => ret tt
  | a :: l' => λ h,
      match h !! a with
      | None => (Stuck, h)
      | Some nd =>
          if marked nd then (Raise tree_failed, h)
          else mark_each l' (<[a := set_marked true nd]> h)
      end
  end.

Fixpoint unmark_each (l : list addr) : M unit :=
  match l with
  | [] => ret tt
  | a :: l' => λ h,
      match h !! a with
      | None => (Stuck, h)
      | Some nd => unmark_each l' (<[a := set_marked false nd]> h)
      end
  end.

Definition mark_set (b : bool) (l : list addr) (h : store) : store :=
  imap (λ a nd, if bool_decide (a ∈ l) then set_marked b nd else nd) h.

(** The store with every mark forgotten. *)
Definition shape (h : store) : store := set_marked false <$> h.

(** The invariant of the stores the constructor leaves behind: no mark is
    set, every address is the root of a walk of depth at most [f]. *)
Definition clean (h : store) : bool := forallb (λ nd, negb (marked nd)) h.

Definition depth_ok (f : nat) (h : store) : bool :=
  forallb (λ a, bool_decide (is_Some (preorder f h a))) (seq 0 (length h)).

Definition good (f : nat) (h : store) : bool :=
  bool_decide (1 ≤ f) && clean h && depth_ok f h.

Definition in_store (h : store) (qs : list Query) : bool :=
  forallb (λ q, bool_decide (root (query_tree q) < length h)) qs.

(** The store a construction leaves behind when it succeeds: the fresh root
    with its children, then one fresh node per search term. *)
Definition term_node (sf : string) (t : string) : Node := mkNode t false sf [] false.

Definition built (h : store) (op : string) (search_terms : list string)
    (nested_queries : list Query) (sf : string) : store :=
  h ++ mkNode op true sf
         (seq (S (length h)) (length search_terms)
            ++ ((λ q, root (query_tree q)) <$> nested_queries)) false
    :: (term_node sf <$> search_terms).

(** A term node below [n]: a child that is not an operator, of [n] or of an
    operator node below it.  This is what the serializers walk. *)
Inductive term_below (h : store) : addr → addr → Prop :=
| term_child n nd t tn :
    h !! n = Some nd → t ∈ children nd → h !! t = Some tn →
    operator tn = false → term_below h n t
| term_deeper n nd c cn t :
    h !! n = Some nd → c ∈ children nd → h !! c = Some cn →
    operator cn = true → term_below h c t → term_below h n t.

(** The places where the WoS serializer looks a field up: a term node that is
    the first child and not the last one, of [n] or of an operator node
    below it. *)
Inductive wos_field_site (h : store) : addr → addr → Prop :=
| site_here n nd t tn :
    h !! n = Some nd → is_first (children nd) t = true →
    is_last (children nd) t = false → h !! t = Some tn →
    operator tn = false → wos_field_site h n t
| site_deeper n nd c cn t :
    h !! n = Some nd → c ∈ children nd → h !! c = Some cn →
    operator cn = true → wos_field_site h c t → wos_field_site h n t.

(** The keys of the field tables; both vendors' tables have the same keys. *)
Definition field_table : list string :=
  ["Author Keywords"; "Abstract"; "Author"; "DOI"; "ISBN/ISSN"; "Publisher"; "Title"].

(** Stores used as examples: an OR query over one term, and an AND query
    over two terms with an unmapped field. *)
Definition lung_store : store := built [] "OR" ["lung"] [] "Title".
Definition lung_query : Query := mkQuery (mkTree 0).
Definition foo_store : store := built [] "AND" ["covid"; "sars"] [] "Foo".

(** ** Term nodes, for the statements about flat queries *)

(** [a] is a term node of [h] with value [t] and the field [sf]. *)
Definition term_at (h : store) (sf : string) (a : addr) (t : string) : Prop :=
  ∃ tn, h !! a = Some tn ∧ value tn = t ∧ operator tn = false
        ∧ search_field tn = sf ∧ children tn = [].

End SearchQuery.

Module ParserValidation.

(** ** Strings and character classes

    A Python [str] is a sequence of code points.  The regular expressions of
    the validators classify characters ([\b], [\w], [\d]); below 128 the
    classes are written out, above they come from the Unicode database,
    which the development takes as a parameter. *)

Abbreviation pystr := (list N).

Definition str (s : string) : pystr :=
  Ascii.N_of_ascii <$> String.list_ascii_of_string s.

Class Unicode : Type := {
  unicode_alnum : N → bool;     (* [str.isalnum] of a code point from 128 on *)
  unicode_decimal : N → bool;   (* [str.isdecimal] *)
  unicode_space : N → bool;     (* [str.isspace] *)
  unicode_upper : N → pystr     (* [str.upper] *)
}.

Definition between (lo hi c : N) : bool := (lo <=? c)%N && (c <=? hi)%N.

(** [[A-Z]] *)
Definition is_upper_AZ (c : N) : bool := between 65 90 c.

(** [str.upper] of one ASCII character *)
Definition upper_char (c : N) : N :=
  if between 97 122 c then (c - 32)%N else c.

(** Membership in a bracket class such as [[aA]], given by its characters.
    With [re.IGNORECASE] the classes of [FAULTY_OPERATOR_REGEX] match the
    same characters: each already holds both cases of its letter, and no
    other code point folds to one of a, n, d, o, r, t. *)
Definition in_class (c : N) (cls : pystr) : bool := existsb (N.eqb c) cls.

Section Unicode.
Context `{U : Unicode}.

(** [\w] *)
Definition is_word (c : N) : bool :=
  if (c <? 128)%N then
    between 48 57 c || between 65 90 c || between 97 122 c || (c =? 95)%N
  else unicode_alnum c.

(** [\d] *)
Definition is_digit (c : N) : bool :=
  if (c <? 128)%N then between 48 57 c else unicode_decimal c.

(** The whitespace [str.strip()] removes. *)
Definition is_space (c : N) : bool :=
  if (c <? 128)%N then between 9 13 c || between 28 32 c else unicode_space c.

(** [\b] between the character before the position and the one at it;
    [None] is the start or the end of the string. *)
Definition at_boundary (prev next : option N) : bool :=
  xorb (from_option is_word false prev) (from_option is_word false next).

(** [s.upper()] *)
Definition upper (s : pystr) : pystr :=
  s ≫= λ c, if (c <? 128)%N then [upper_char c] else unicode_upper c.

(** [s.strip()] *)
Fixpoint lstrip (s : pystr) : pystr :=
  match s with
  | c :: s' => if is_space c then lstrip s' else s
  | [] => []
  end.
Definition strip (s : pystr) : pystr := reverse (lstrip (reverse (lstrip s))).

(** ** Matching at a position

    A matcher is given the character before the position ([\b] looks
    behind) and the rest of the string from the position on; it answers the
    length of the match. *)

(** One character per class, then [\b]. *)
Definition match_alternative (classes : list pystr) (rest : pystr) : option nat :=
  let n := length classes in
  if bool_decide (n ≤ length rest)
     && forallb (λ p, in_class p.1 p.2) (zip (take n rest) classes)
     && at_boundary (last (take n rest)) (rest !! n)
  then Some n else None.

(** [FAULTY_OPERATOR_REGEX = \b(?:[aA][nN][dD]|[oO][rR]|[nN][oO][tT])\b]:
    the alternatives are tried in order, each up to the closing [\b]. *)
Definition match_FAULTY_OPERATOR (prev : option N) (rest : pystr) : option nat :=
  if at_boundary prev (head rest) then
    match match_alternative [str "aA"; str "nN"; str "dD"] rest with
    | Some n => Some n
    | None =>
        match match_alternative [str "oO"; str "rR"] rest with
        | Some n => Some n
        | None => match_alternative [str "nN"; str "oO"; str "tT"] rest
        end
    end
  else None.

(** [OR\b] and [S\d+\b] at the position, for the negative lookaheads. *)
Definition lookahead_OR (rest : pystr) : bool :=
  match rest with
  | o :: r :: rest' =>
      (o =? 79)%N && (r =? 82)%N && at_boundary (Some r) (head rest')
  | _ => false
  end.

Fixpoint digits_then_boundary (rest : pystr) : bool :=
  match rest with
  | d :: rest' =>
      is_digit d
      && (at_boundary (Some d) (head rest') || digits_then_boundary rest')
  | [] => false
  end.

Definition lookahead_S_digits (rest : pystr) : bool :=
  match rest with
  | s :: rest' => (s =? 83)%N && digits_then_boundary rest'
  | [] => false
  end.

(** [UNSUPPORTED_SEARCH_FIELD_REGEX = \b(?!OR\b)\b(?!S\d+\b)[A-Z]{2}\b] *)
Definition match_UNSUPPORTED_SEARCH_FIELD (prev : option N) (rest : pystr)
    : option nat :=
  if at_boundary prev (head rest) && negb (lookahead_OR rest)
     && at_boundary prev (head rest) && negb (lookahead_S_digits rest)
  then
    match rest with
    | a :: b :: rest' =>
        if is_upper_AZ a && is_upper_AZ b && at_boundary (Some b) (head rest')
        then Some 2 else None
    | _ => None
    end
  else None.

End Unicode.

(** [re.finditer] for a pattern whose matches are not empty: the pattern is
    tried at every position from the left; after a match the scan resumes at
    the end of the match ([skip] counts the characters still inside it). *)
Fixpoint finditer_from (m : option N → pystr → option nat) (skip pos : nat)
    (prev : option N) (rest : pystr) : list (nat * nat) :=
  match rest with
  | [] => []
  | c :: rest' =>
      match skip with
      | S k => finditer_from m k (S pos) (Some c) rest'
      | 0 =>
          match m prev rest with
          | Some len =>
              (pos, pos + len)
                :: finditer_from m (len - 1) (S pos) (Some c) rest'
          | None => finditer_from m 0 (S pos) (Some c) rest'
          end
      end
  end.

Definition finditer (m : option N → pystr → option nat) (s : pystr)
    : list (nat * nat) :=
  finditer_from m 0 0 None s.

(** [s[start:end]] and [s[:start] + new + s[end:]] *)
Definition slice (s : pystr) (start end_ : nat) : pystr :=
  take (end_ - start) (drop start s).

Definition splice (s : pystr) (start end_ : nat) (new : pystr) : pystr :=
  take start s ++ new ++ drop end_ s.

(** ** Linter messages and validator objects *)

Inductive Position : Type :=
| Span (start end_ : nat)     (* a tuple [(start, end)] *)
| NoPosition                  (* [None] *)
| EmptyPosition.              (* the empty string *)

Record LinterMessage : Type := mkMessage {
  level : string;
  msg : pystr;
  pos : Position
}.

(** An object of [QueryStringValidator] or of [EBSCOQueryStringValidator]
    (the two classes declare the same attributes), together with the
    [linter_messages] list of its class. *)
Record Validator : Type := mkValidator {
  query_str : pystr;
  search_field_general : pystr;
  linter_messages : list LinterMessage
}.

Section Checks.
Context `{U : Unicode}.

Definition capitalized_warning (operator : pystr) (start end_ : nat)
    : LinterMessage :=
  mkMessage "Warning"
    (str "Operator '" ++ operator ++ str "' automatically capitalized")
    (Span start end_).

(** The body of the loop of [check_operator]; [scanned] is the string the
    iterator was created on. *)
Definition check_operator_step (scanned : pystr) (self : Validator)
    (m : nat * nat) : Validator :=
  let operator := slice scanned m.1 m.2 in
  if bool_decide (operator ≠ upper operator) then
    mkValidator (splice (query_str self) m.1 m.2 (upper operator))
      (search_field_general self)
      (linter_messages self ++ [capitalized_warning operator m.1 m.2])
  else self.

(** [QueryStringValidator.check_operator] *)
Definition check_operator (self : Validator) : Validator :=
  foldl (check_operator_step (query_str self))
    (mkValidator (query_str self) (search_field_general self) [])
    (finditer match_FAULTY_OPERATOR (query_str self)).

Definition supported_fields : list pystr :=
  str <$> ["TI"; "AU"; "TX"; "AB"; "SO"; "SU"; "IS"; "IB"; "DE"; "LA"; "KW"].

Definition unsupported_error (field : pystr) (start end_ : nat)
    : LinterMessage :=
  mkMessage "Error"
    (str "search-field-unsupported: '" ++ field
       ++ str "' automatically changed to Abstract AB.")
    (Span start end_).

(** The [while True] loop of the strict mode: lines are read from the
    standard input until one is a supported field; at the end of the input
    [input()] raises [EOFError]. *)
Fixpoint ask_replacement (stdin : list pystr) : option (pystr * list pystr) :=
  match stdin with
  | [] => None
  | line :: stdin' =>
      let replacement := strip line in
      if bool_decide (replacement ∈ supported_fields)
      then Some (replacement, stdin')
      else ask_replacement stdin'
  end.

(** The loop of [filter_search_field] over the matches. *)
Fixpoint filter_loop (strict : bool) (scanned : pystr)
    (matches : list (nat * nat)) (modified_query_list : pystr)
    (messages : list LinterMessage) (stdin : list pystr)
    : result (pystr * list LinterMessage * list pystr) :=
  match matches with
  | [] => Ok (modified_query_list, messages, stdin)
  | (start, end_) :: matches' =>
      let field := strip (slice scanned start end_) in
      if bool_decide (field ∉ supported_fields) then
        if strict then
          match ask_replacement stdin with
          | None => Raise EOFError
          | Some (replacement, stdin') =>
              filter_loop strict scanned matches'
                (splice modified_query_list start end_ replacement)
                messages stdin'
          end
        else
          filter_loop strict scanned matches'
            (splice modified_query_list start end_ (str "AB"))
            (messages ++ [unsupported_error field start end_]) stdin
      else
        filter_loop strict scanned matches' modified_query_list messages stdin
  end.

(** [EBSCOQueryStringValidator.filter_search_field]; the lines the user
    types are an argument and the unread ones are returned. *)
Definition filter_search_field (strict : bool) (stdin : list pystr)
    (self : Validator) : result (Validator * list pystr) :=
  match filter_loop strict (query_str self)
          (finditer match_UNSUPPORTED_SEARCH_FIELD (query_str self))
          (query_str self) [] stdin with
  | Ok (modified_query_list, messages, stdin') =>
      Ok (mkValidator modified_query_list (search_field_general self) messages,
          stdin')
  | Raise e => Raise e
  | Stuck => Stuck
  end.

End Checks.

(** ** The token-sequence check *)

Definition valid_transitions : list (string * list string) :=
  [ ("FIELD", ["SEARCH_TERM"; "PARENTHESIS_OPEN"]);
    ("SEARCH_TERM",
     ["SEARCH_TERM"; "LOGIC_OPERATOR"; "PROXIMITY_OPERATOR"; "PARENTHESIS_CLOSED"]);
    ("LOGIC_OPERATOR", ["SEARCH_TERM"; "FIELD"; "PARENTHESIS_OPEN"]);
    ("PROXIMITY_OPERATOR", ["SEARCH_TERM"; "PARENTHESIS_OPEN"; "FIELD"]);
    ("PARENTHESIS_OPEN", ["FIELD"; "SEARCH_TERM"; "PARENTHESIS_OPEN"]);
    ("PARENTHESIS_CLOSED",
     ["PARENTHESIS_CLOSED"; "LOGIC_OPERATOR"; "PROXIMITY_OPERATOR"]) ].

(** [d.get(key, default)] *)
Fixpoint dict_get {V} (d : list (string * V)) (key : string) (default : V) : V :=
  match d with
  | [] => default
  | (k, v) :: d' => if String.eqb k key then v else dict_get d' key default
  end.

Definition invalid_sequence_error (token_type previous_token_type : string)
    (position : option (nat * nat)) : LinterMessage :=
  mkMessage "Error"
    (str ("Invalid token sequence: '" +:+ previous_token_type
            +:+ "' followed by '" +:+ token_type +:+ "'"))
    (match position with
     | Some (start, end_) => Span start end_
     | None => NoPosition
     end).

(** [EBSCOQueryStringValidator.validate_token_position] *)
Definition validate_token_position (self : Validator) (token_type : string)
    (previous_token_type : option string) (position : option (nat * nat))
    : Validator :=
  let cleared :=
    mkValidator (query_str self) (search_field_general self) [] in
  match previous_token_type with
  | None => cleared
  | Some previous =>
      if bool_decide (token_type ∉ dict_get valid_transitions previous [])
      then mkValidator (query_str self) (search_field_general self)
             [invalid_sequence_error token_type previous position]
      else cleared
  end.

(** ** Spans of matches, for the statements below *)

(** The spans lie in [0, n), start at [p] or later, are not empty and do not
    overlap, from left to right. *)
Fixpoint ordered_spans (n p : nat) (spans : list (nat * nat)) : Prop :=
  match spans with
  | [] => True
  | m :: spans' => p ≤ m.1 ∧ m.1 < m.2 ∧ m.2 ≤ n ∧ ordered_spans n m.2 spans'
  end.

(** The first span that holds index [i]. *)
Fixpoint span_of (spans : list (nat * nat)) (i : nat) : option (nat * nat) :=
  match spans with
  | [] => None
  | m :: spans' =>
      if bool_decide (m.1 ≤ i < m.2) then Some m else span_of spans' i
  end.

(** The character before position [i] of [s]. *)
Definition prev_at (s : pystr) (i : nat) : option N := last (take i s).

(** One step of a loop that replaces the spans for which [cond] holds, and
    the character such a loop leaves at index [i]. *)
Definition splice_step (cond : nat * nat → bool) (repl : nat * nat → pystr)
    (q : pystr) (m : nat * nat) : pystr :=
  if cond m then splice q m.1 m.2 (repl m) else q.

Definition spliced_at (cond : nat * nat → bool) (repl : nat * nat → pystr)
    (spans : list (nat * nat)) (q : pystr) (i : nat) : option N :=
  match span_of spans i with
  | Some m => if cond m then repl m !! (i - m.1) else q !! i
  | None => q !! i
  end.

Section Rewrites.
Context `{U : Unicode}.

(** What [check_operator] tests and writes for the match [m] on the scanned
    string [s]. *)
Definition faulty (s : pystr) (m : nat * nat) : bool :=
  bool_decide (slice s m.1 m.2 ≠ upper (slice s m.1 m.2)).

Definition capitalized (s : pystr) (m : nat * nat) : pystr :=
  upper (slice s m.1 m.2).

Definition operators : list pystr := [str "AND"; str "OR"; str "NOT"].

(** What the non-strict [filter_search_field] tests for the match [m]. *)
Definition unsupported (s : pystr) (m : nat * nat) : bool :=
  bool_decide (strip (slice s m.1 m.2) ∉ supported_fields).

End Rewrites.

(** ** The claims about [filter_search_field] and the token table, as the
    specification words them *)

Section FieldTokens.
Context `{U : Unicode}.

(** A word-bounded token of two upper-case letters starts at index [i]. *)
Definition two_letter_token (s : pystr) (i : nat) : bool :=
  match s !! i, s !! (i + 1) with
  | Some a, Some b =>
      is_upper_AZ a && is_upper_AZ b
      && at_boundary (prev_at s i) (Some a)
      && at_boundary (Some b) (s !! (i + 2))
  | _, _ => false
  end.

(** The text has the form S<digits>. *)
Definition form_S_digits (text : pystr) : bool :=
  match text with
  | c :: ds => (c =? 83)%N && negb (bool_decide (ds = [])) && forallb is_digit ds
  | [] => false
  end.

(** The token at [i] is one the non-strict mode replaces. *)
Definition replaced (s : pystr) (i : nat) : bool :=
  two_letter_token s i
  && negb (bool_decide (slice s i (i + 2) = str "OR"))
  && negb (form_S_digits (slice s i (i + 2)))
  && negb (bool_decide (slice s i (i + 2) ∈ supported_fields)).

(** The query string with AB written over every replaced token, all other
    characters kept. *)
Definition expected_query (s : pystr) : pystr :=
  imap (λ j c,
      if replaced s j then 65%N
      else if bool_decide (0 < j) && replaced s (j - 1) then 66%N
      else c) s.

(** One error per replaced token, from left to right, with its span. *)
Definition expected_messages (s : pystr) : list LinterMessage :=
  (λ i, unsupported_error (slice s i (i + 2)) i (i + 2))
    <$> filter (λ i, replaced s i = true) (seq 0 (length s)).

(** The positions at which [UNSUPPORTED_SEARCH_FIELD_REGEX] matches. *)
Definition field_match (s : pystr) (i : nat) : bool :=
  bool_decide (is_Some
    (match_UNSUPPORTED_SEARCH_FIELD (prev_at s i) (drop i s))).

End FieldTokens.

(** Every position at which [m] matches, those inside an earlier match
    included. *)
Fixpoint all_matches_from (m : option N → pystr → option nat) (pos : nat)
    (prev : option N) (rest : pystr) : list (nat * nat) :=
  match rest with
  | [] => []
  | c :: rest' =>
      match m prev rest with
      | Some len => (pos, pos + len) :: all_matches_from m (S pos) (Some c) rest'
      | None => all_matches_from m (S pos) (Some c) rest'
      end
  end.

Inductive category : Type :=
| FIELD | SEARCH_TERM | LOGIC_OPERATOR | PROXIMITY_OPERATOR
| PARENTHESIS_OPEN | PARENTHESIS_CLOSED.

#[global] Instance category_eq_dec : EqDecision category.
Proof. solve_decision. Defined.

Definition category_name (c : category) : string :=
  match c with
  | FIELD => "FIELD"
  | SEARCH_TERM => "SEARCH_TERM"
  | LOGIC_OPERATOR => "LOGIC_OPERATOR"
  | PROXIMITY_OPERATOR => "PROXIMITY_OPERATOR"
  | PARENTHESIS_OPEN => "PARENTHESIS_OPEN"
  | PARENTHESIS_CLOSED => "PARENTHESIS_CLOSED"
  end.

(** The transition table of section 6 of the specification. *)
Definition allowed_after (previous : category) : list category :=
  match previous with
  | FIELD => [SEARCH_TERM; PARENTHESIS_OPEN]
  | SEARCH_TERM =>
      [SEARCH_TERM; LOGIC_OPERATOR; PROXIMITY_OPERATOR; PARENTHESIS_CLOSED]
  | LOGIC_OPERATOR => [SEARCH_TERM; FIELD; PARENTHESIS_OPEN]
  | PROXIMITY_OPERATOR => [SEARCH_TERM; PARENTHESIS_OPEN; FIELD]
  | PARENTHESIS_OPEN => [FIELD; SEARCH_TERM; PARENTHESIS_OPEN]
  | PARENTHESIS_CLOSED =>
      [PARENTHESIS_CLOSED; LOGIC_OPERATOR; PROXIMITY_OPERATOR]
  end.

(** [cased c c']: [c'] is [c], possibly upper-cased; a bracket class is
    closed under case when upper-casing does not change membership. *)
Definition cased (c c' : N) : Prop := c' = c ∨ c' = upper_char c.

Definition case_closed (cls : pystr) : Prop :=
  ∀ c, in_class (upper_char c) cls = in_class c cls.

(** ** The parenthesis check *)

(** [PARENTHESIS_REGEX = [\(\)]] *)
Definition match_PARENTHESIS (prev : option N) (rest : pystr) : option nat :=
  match rest with
  | c :: _ => if in_class c (str "()") then Some 1 else None
  | [] => None
  end.

(** [f"{n}"] for an [int] that is not negative *)
Definition format_int (n : nat) : pystr :=
  str (NilZero.string_of_uint (Nat.to_uint n)).

Definition unbalanced_error (open_count close_count : nat) : LinterMessage :=
  mkMessage "Fatal"
    (str "Unbalanced parentheses: open = " ++ format_int open_count
       ++ str ", close = " ++ format_int close_count)
    EmptyPosition.

(** The body of the loop of [check_parenthesis], on the two counters. *)
Definition check_parenthesis_step (scanned : pystr) (counts : nat * nat)
    (m : nat * nat) : nat * nat :=
  let parenthesis := slice scanned m.1 m.2 in
  let open_count :=
    if bool_decide (parenthesis = str "(") then S counts.1 else counts.1 in
  let close_count :=
    if bool_decide (parenthesis = str ")") then S counts.2 else counts.2 in
  (open_count, close_count).

(** [QueryStringValidator.check_parenthesis] *)
Definition check_parenthesis (self : Validator) : Validator :=
  let counts :=
    foldl (check_parenthesis_step (query_str self)) (0, 0)
      (finditer match_PARENTHESIS (query_str self)) in
  mkValidator (query_str self) (search_field_general self)
    (if bool_decide (counts.1 ≠ counts.2)
     then [unbalanced_error counts.1 counts.2] else []).

(** The number of occurrences of the character [c] in [s]. *)
Definition occurrences (c : N) (s : pystr) : nat :=
  length (filter (λ x, x = c) s).

(** ** The strict mode of [filter_search_field], for the statements below *)

Section Strict.
Context `{U : Unicode}.

(** The lines of the input that the strict mode takes as a replacement. *)
Definition accepted_lines (stdin : list pystr) : list pystr :=
  filter (λ line, strip line ∈ supported_fields) stdin.

(** The matches that [filter_search_field] replaces. *)
Definition unsupported_tokens (s : pystr) : list (nat * nat) :=
  filter (λ m, unsupported s m = true)
    (finditer match_UNSUPPORTED_SEARCH_FIELD s).

End Strict.

(** A classification for the examples, which are ASCII: no code point from
    128 on is alphanumeric, a digit or a space, and upper-casing keeps it. *)
Definition no_unicode : Unicode :=
  {| unicode_alnum := λ _, false; unicode_decimal := λ _, false;
     unicode_space := λ _, false; unicode_upper := λ c, [c] |}.

End ParserValidation.

(** * Facts about the query tree *)

Module SearchQueryFacts.
Import SearchQuery.

(** ** The shape of a store *)

Lemma shape_lookup h a : shape h !! a = set_marked false <$> h !! a.
Proof. unfold shape. apply list_lookup_fmap. Qed.

Lemma shape_length h : length (shape h) = length h.
Proof. unfold shape. apply length_fmap. Qed.

Lemma shape_insert_marked h a nd b :
  h !! a = Some nd → shape (<[a := set_marked b nd]> h) = shape h.
Proof.
  intros Ha. unfold shape. rewrite list_fmap_insert.
  apply list_insert_id. rewrite list_lookup_fmap, Ha. by destruct nd.
Qed.

Lemma shape_children h h' a nd :
  shape h = shape h' → h !! a = Some nd →
  ∃ nd', h' !! a = Some nd' ∧ children nd' = children nd ∧
    value nd' = value nd ∧ operator nd' = operator nd ∧
    search_field nd' = search_field nd.
Proof.
  intros Hs Ha. assert (shape h' !! a = Some (set_marked false nd)) as H.
  { rewrite <- Hs, shape_lookup, Ha. done. }
  rewrite shape_lookup in H. destruct (h' !! a) as [nd'|]; [|done].
  exists nd'. destruct nd, nd'. simpl in *. by simplify_eq.
Qed.

Lemma for_each_shape {A} (body : A → M unit) l :
  (∀ x h r h', body x h = (r, h') → shape h' = shape h) →
  ∀ h r h', for_each body l h = (r, h') → shape h' = shape h.
Proof.
  intros Hb. induction l as [|x l IH]; intros h r h' H; simpl in H.
  - unfold ret in H. by simplify_eq.
  - unfold bind in H. destruct (body x h) as [[[]| |] h1] eqn:E;
      try (simplify_eq; by eapply Hb).
    etrans; [by eapply IH|by eapply Hb].
Qed.

Lemma validate_shape f n h r h' :
  _validate_tree_structure f n h = (r, h') → shape h' = shape h.
Proof.
  revert n h r h'. induction f as [|f IH]; intros n h r h' H; simpl in H.
  { unfold stuck in H. by simplify_eq. }
  destruct (h !! n) as [nd|] eqn:E; [|by simplify_eq].
  destruct (marked nd); [by simplify_eq|].
  eapply for_each_shape in H; [|by eauto].
  rewrite H. by apply shape_insert_marked.
Qed.

Lemma remove_marks_shape f n h r h' :
  remove_marks f n h = (r, h') → shape h' = shape h.
Proof.
  revert n h r h'. induction f as [|f IH]; intros n h r h' H; simpl in H.
  { unfold stuck in H. by simplify_eq. }
  destruct (h !! n) as [nd|] eqn:E; [|by simplify_eq].
  eapply for_each_shape in H; [|by eauto].
  rewrite H. by apply shape_insert_marked.
Qed.

Lemma mapM_option_ext {A B} (f g : A → option B) l :
  (∀ x, x ∈ l → f x = g x) → mapM f l = mapM g l.
Proof.
  induction l as [|x l IH]; intros H; [done|]. simpl.
  rewrite H by left. rewrite IH; [done|]. intros y Hy. apply H. by right.
Qed.

Lemma preorder_shape f h h' n :
  shape h = shape h' → preorder f h n = preorder f h' n.
Proof.
  intros Hs. revert n. induction f as [|f IH]; intros n; [done|]. simpl.
  destruct (h !! n) as [nd|] eqn:E.
  - destruct (shape_children _ _ _ _ Hs E) as (nd' & E' & Hc & _).
    rewrite E', Hc.
    by rewrite (mapM_option_ext _ (preorder f h')).
  - destruct (h' !! n) as [nd'|] eqn:E'; [|done].
    destruct (shape_children _ _ _ _ (eq_sym Hs) E') as (? & ? & _). congruence.
Qed.

Lemma preorder_S f h n l :
  preorder f h n = Some l → preorder (S f) h n = Some l.
Proof.
  revert n l. induction f as [|f IH]; intros n l H; [done|].
  simpl in H. change (preorder (S (S f)) h n) with
    (match h !! n with
     | None => None
     | Some nd => match mapM (preorder (S f) h) (children nd) with
                  | None => None | Some ls => Some (n :: mjoin ls) end
     end).
  destruct (h !! n) as [nd|]; [|done].
  destruct (mapM (preorder f h) (children nd)) as [ls|] eqn:E; [|done].
  assert (mapM (preorder (S f) h) (children nd) = Some ls) as ->; [|done].
  apply mapM_Some in E. apply mapM_Some.
  eapply Forall2_impl; [done|]. intros ???. by apply IH.
Qed.

Lemma preorder_mono f f' h n l :
  f ≤ f' → preorder f h n = Some l → preorder f' h n = Some l.
Proof. induction 1; [done|]. intros. by apply preorder_S, IHle. Qed.

Lemma preorder_app f h h2 n l :
  preorder f h n = Some l → preorder f (h ++ h2) n = Some l.
Proof.
  revert n l. induction f as [|f IH]; intros n l H; [done|].
  simpl in *. destruct (h !! n) as [nd|] eqn:E; [|done].
  rewrite (lookup_app_l_Some _ _ _ _ E).
  destruct (mapM (preorder f h) (children nd)) as [ls|] eqn:E2; [|done].
  assert (mapM (preorder f (h ++ h2)) (children nd) = Some ls) as ->; [|done].
  apply mapM_Some in E2. apply mapM_Some.
  eapply Forall2_impl; [done|]. intros ???. by apply IH.
Qed.

Lemma preorder_bound f h n l a :
  preorder f h n = Some l → a ∈ l → a < length h.
Proof.
  revert n l. induction f as [|f IH]; intros n l H Ha; [done|].
  simpl in H. destruct (h !! n) as [nd|] eqn:E; [|done].
  destruct (mapM (preorder f h) (children nd)) as [ls|] eqn:E2; [|done].
  simplify_eq. apply elem_of_cons in Ha as [->|Ha].
  { by eapply lookup_lt_Some. }
  apply list_elem_of_join in Ha as (l' & Ha & Hl').
  apply mapM_Some in E2.
  apply list_elem_of_lookup in Hl' as [i Hi].
  destruct (Forall2_lookup_r _ _ _ _ _ E2 Hi) as (c & _ & Hc).
  by eapply IH.
Qed.

Lemma mark_each_app l1 l2 h :
  mark_each (l1 ++ l2) h = bind (mark_each l1) (λ _, mark_each l2) h.
Proof.
  revert h. induction l1 as [|a l1 IH]; intros h; [done|].
  simpl. unfold bind in *. simpl.
  destruct (h !! a) as [nd|]; [|done]. destruct (marked nd); [done|]. apply IH.
Qed.

Lemma unmark_each_app l1 l2 h :
  unmark_each (l1 ++ l2) h = bind (unmark_each l1) (λ _, unmark_each l2) h.
Proof.
  revert h. induction l1 as [|a l1 IH]; intros h; [done|].
  simpl. unfold bind in *. simpl.
  destruct (h !! a) as [nd|]; [|done]. apply IH.
Qed.

Lemma mark_each_shape l h r h' : mark_each l h = (r, h') → shape h' = shape h.
Proof.
  revert h. induction l as [|a l IH]; intros h H; simpl in H.
  { unfold ret in H. by simplify_eq. }
  destruct (h !! a) as [nd|] eqn:E; [|by simplify_eq].
  destruct (marked nd); [by simplify_eq|].
  rewrite (IH _ H). by apply shape_insert_marked.
Qed.

Lemma unmark_each_shape l h r h' : unmark_each l h = (r, h') → shape h' = shape h.
Proof.
  revert h. induction l as [|a l IH]; intros h H; simpl in H.
  { unfold ret in H. by simplify_eq. }
  destruct (h !! a) as [nd|] eqn:E; [|by simplify_eq].
  rewrite (IH _ H). by apply shape_insert_marked.
Qed.

(** A loop of walks is the scan of the walks' lists, one after the other. *)

(** A loop of walks is the scan of the walks' lists, one after the other. *)
Lemma for_each_scan (W : addr → M unit) (S : list addr → M unit)
    (P : store → Prop) (pre : addr → option (list addr)) :
  (∀ l1 l2 h, S (l1 ++ l2) h = bind (S l1) (λ _, S l2) h) →
  (∀ h, S [] h = (Ok tt, h)) →
  (∀ l h r h', S l h = (r, h') → P h → P h') →
  (∀ c lc h, P h → pre c = Some lc → W c h = S lc h) →
  ∀ cs ls h, P h → mapM pre cs = Some ls → for_each W cs h = S (mjoin ls) h.
Proof.
  intros Happ Hnil HP HW. induction cs as [|c cs IH]; intros ls h Ph Hm.
  - apply mapM_Some, Forall2_nil_inv_l in Hm as ->. symmetry. exact (Hnil h).
  - apply mapM_Some in Hm. inversion Hm as [|? lc ? ls' Hc Hcs]; simplify_eq.
    apply mapM_Some in Hcs. change (mjoin (lc :: ls')) with (lc ++ mjoin ls').
    simpl. rewrite Happ. unfold bind.
    rewrite (HW _ _ _ Ph Hc).
    destruct (S lc h) as [[[]| |] h1] eqn:E; try done.
    apply IH; [|done]. by eapply HP.
Qed.

Lemma validate_scan f h0 n l h :
  shape h = shape h0 → preorder f h0 n = Some l →
  _validate_tree_structure f n h = mark_each l h.
Proof.
  revert n l h. induction f as [|f IH]; intros n l h Hs Hp; [done|].
  simpl in Hp. destruct (h0 !! n) as [nd0|] eqn:E0; [|done].
  destruct (mapM (preorder f h0) (children nd0)) as [ls|] eqn:Em; [|done].
  simplify_eq. simpl.
  destruct (shape_children _ _ _ _ (eq_sym Hs) E0) as (nd & E & Hc & _).
  rewrite E. destruct (marked nd) eqn:Emk; [done|]. rewrite Hc.
  apply (for_each_scan _ mark_each (λ h, shape h = shape h0) (preorder f h0)).
  - apply mark_each_app.
  - done.
  - intros ???? H1 H2. simpl in *. rewrite <- H2. by eapply mark_each_shape.
  - intros. by apply IH.
  - rewrite <- Hs. by apply shape_insert_marked.
  - done.
Qed.

Lemma remove_scan f h0 n l h :
  shape h = shape h0 → preorder f h0 n = Some l →
  remove_marks f n h = unmark_each l h.
Proof.
  revert n l h. induction f as [|f IH]; intros n l h Hs Hp; [done|].
  simpl in Hp. destruct (h0 !! n) as [nd0|] eqn:E0; [|done].
  destruct (mapM (preorder f h0) (children nd0)) as [ls|] eqn:Em; [|done].
  simplify_eq. simpl.
  destruct (shape_children _ _ _ _ (eq_sym Hs) E0) as (nd & E & Hc & _).
  rewrite E, Hc.
  apply (for_each_scan _ unmark_each (λ h, shape h = shape h0) (preorder f h0)).
  - apply unmark_each_app.
  - done.
  - intros ???? H1 H2. simpl in *. rewrite <- H2. by eapply unmark_each_shape.
  - intros. by apply IH.
  - rewrite <- Hs. by apply shape_insert_marked.
  - done.
Qed.

Lemma mark_set_cons b a l h nd :
  h !! a = Some nd →
  mark_set b l (<[a := set_marked b nd]> h) = mark_set b (a :: l) h.
Proof.
  intros Ha. apply list_eq. intros i. unfold mark_set.
  rewrite !list_lookup_imap. destruct (decide (i = a)) as [->|Hne].
  - rewrite list_lookup_insert_eq by (by eapply lookup_lt_Some).
    rewrite Ha. simpl. rewrite (bool_decide_true (a ∈ a :: l)) by left.
    by case_bool_decide.
  - rewrite list_lookup_insert_ne by done.
    by rewrite (bool_decide_ext (i ∈ a :: l) (i ∈ l))
      by (rewrite elem_of_cons; intuition).
Qed.

Lemma mark_set_nil b h : mark_set b [] h = h.
Proof.
  apply list_eq. intros i. unfold mark_set. rewrite list_lookup_imap.
  rewrite bool_decide_false by set_solver. by destruct (h !! i).
Qed.

Lemma mark_each_ok l h :
  NoDup l → (∀ a, a ∈ l → ∃ nd, h !! a = Some nd ∧ marked nd = false) →
  mark_each l h = (Ok tt, mark_set true l h).
Proof.
  revert h. induction l as [|a l IH]; intros h Hnd Hl; simpl.
  { by rewrite mark_set_nil. }
  apply NoDup_cons in Hnd as [Ha Hnd].
  destruct (Hl a) as (nd & E & Hm); [by left|]. rewrite E, Hm.
  rewrite IH; [by rewrite (mark_set_cons _ _ _ _ _ E)|done|].
  intros b Hb. destruct (Hl b) as (nb & Eb & Hmb); [by right|].
  exists nb. split; [|done]. rewrite list_lookup_insert_ne; [done|].
  intros ->. done.
Qed.

Lemma unmark_each_ok l h :
  (∀ a, a ∈ l → a < length h) →
  unmark_each l h = (Ok tt, mark_set false l h).
Proof.
  revert h. induction l as [|a l IH]; intros h Hl; simpl.
  { by rewrite mark_set_nil. }
  destruct (lookup_lt_is_Some_2 h a) as [nd E]; [apply Hl; by left|].
  rewrite E, IH; [by rewrite (mark_set_cons _ _ _ _ _ E)|].
  intros b Hb. rewrite length_insert. apply Hl. by right.
Qed.

Lemma mark_each_marked l h a nd :
  (∀ b, b ∈ l → b < length h) → a ∈ l → h !! a = Some nd → marked nd = true →
  ∃ h', mark_each l h = (Raise tree_failed, h').
Proof.
  revert h nd. induction l as [|b l IH]; intros h nd Hl Ha E Hm; [set_solver|].
  simpl. destruct (lookup_lt_is_Some_2 h b) as [nb Eb]; [apply Hl; by left|].
  rewrite Eb. destruct (marked nb) eqn:Emb; [by eauto|].
  assert (a ≠ b) as Hne by (intros ->; congruence).
  eapply (IH _ nd).
  - intros c Hc. rewrite length_insert. apply Hl. by right.
  - by apply elem_of_cons in Ha as [?|?].
  - by rewrite list_lookup_insert_ne.
  - done.
Qed.

Lemma mark_each_raise l h :
  (∀ a, a ∈ l → a < length h) → ¬ NoDup l →
  ∃ h', mark_each l h = (Raise tree_failed, h').
Proof.
  revert h. induction l as [|a l IH]; intros h Hl Hnd.
  { destruct Hnd. constructor. }
  simpl. destruct (lookup_lt_is_Some_2 h a) as [nd E]; [apply Hl; by left|].
  rewrite E. destruct (marked nd) eqn:Em; [by eauto|].
  destruct (decide (a ∈ l)) as [Hin|Hnin].
  - eapply (mark_each_marked _ _ a (set_marked true nd)); [|done| |done].
    + intros c Hc. rewrite length_insert. apply Hl. by right.
    + apply list_lookup_insert_eq. by eapply lookup_lt_Some.
  - apply IH.
    + intros c Hc. rewrite length_insert. apply Hl. by right.
    + intros Hl'. apply Hnd. by constructor.
Qed.

Lemma bind_Ok_inv {A B} (m : M A) (k : A → M B) h b h' :
  bind m k h = (Ok b, h') → ∃ a h1, m h = (Ok a, h1) ∧ k a h1 = (Ok b, h').
Proof.
  unfold bind. destruct (m h) as [[a| |] h1]; intros H; simplify_eq. eauto.
Qed.

Lemma for_each_id {A} (body : A → M unit) l h :
  (∀ x, x ∈ l → body x h = (Ok tt, h)) → for_each body l h = (Ok tt, h).
Proof.
  induction l as [|x l IH]; intros H; [done|]. simpl. unfold bind.
  rewrite H by left. apply IH. intros y Hy. apply H. by right.
Qed.

Lemma clean_spec h :
  clean h = true ↔ ∀ a nd, h !! a = Some nd → marked nd = false.
Proof.
  unfold clean. rewrite forallb_forall. split.
  - intros H a nd Ha. apply negb_true_iff, H, list_elem_of_In.
    by eapply list_elem_of_lookup_2.
  - intros H nd [a Ha]%list_elem_of_In%list_elem_of_lookup.
    apply negb_true_iff. eauto.
Qed.

Lemma depth_ok_spec f h :
  depth_ok f h = true ↔ ∀ a, a < length h → is_Some (preorder f h a).
Proof.
  unfold depth_ok. rewrite forallb_forall. split.
  - intros H a Ha. eapply bool_decide_unpack, Is_true_true_2, H.
    apply in_seq. lia.
  - intros H a Ha%in_seq. apply bool_decide_eq_true_2, H. lia.
Qed.

Lemma good_spec f h :
  good f h = true ↔
  1 ≤ f ∧ (∀ a nd, h !! a = Some nd → marked nd = false) ∧
  (∀ a, a < length h → is_Some (preorder f h a)).
Proof.
  unfold good. rewrite !andb_true_iff, bool_decide_eq_true, clean_spec,
    depth_ok_spec. tauto.
Qed.

Lemma in_store_spec h qs :
  in_store h qs = true ↔ ∀ q, q ∈ qs → root (query_tree q) < length h.
Proof.
  unfold in_store. rewrite forallb_forall. split.
  - intros H q Hq%list_elem_of_In. by eapply bool_decide_eq_true_1, H.
  - intros H q Hq%list_elem_of_In. by apply bool_decide_eq_true_2, H.
Qed.

Lemma mark_set_clean l h : clean h = true → mark_set false l h = h.
Proof.
  rewrite clean_spec. intros Hc. apply list_eq. intros i. unfold mark_set.
  rewrite list_lookup_imap. destruct (h !! i) as [nd|] eqn:E; [|done]. simpl.
  case_bool_decide; [|done]. specialize (Hc _ _ E). destruct nd. simpl in *.
  by subst.
Qed.

Lemma mark_set_undo l h :
  clean h = true → mark_set false l (mark_set true l h) = h.
Proof.
  rewrite clean_spec. intros Hc. apply list_eq. intros i. unfold mark_set.
  rewrite !list_lookup_imap. destruct (h !! i) as [nd|] eqn:E; [|done]. simpl.
  case_bool_decide; [|done]. specialize (Hc _ _ E). destruct nd. simpl in *.
  by subst.
Qed.

Lemma mark_set_shape b l h : shape (mark_set b l h) = shape h.
Proof.
  apply list_eq. intros i. unfold mark_set.
  rewrite !shape_lookup, list_lookup_imap. destruct (h !! i) as [nd|]; [|done].
  simpl. by case_bool_decide.
Qed.

(** *** What the construction pass builds *)

Lemma create_term_step sf item h v o s m cs post :
  (do t <- Node_init item false sf; append_child (length h) t)
    (h ++ mkNode v o s cs m :: post)
  = (Ok tt, h ++ mkNode v o s (cs ++ [S (length h) + length post]) m
              :: post ++ [term_node sf item]).
Proof.
  unfold bind, Node_init, append_child.
  rewrite lookup_app_l by (rewrite length_app; simpl; lia).
  rewrite list_lookup_middle by done.
  rewrite <- (assoc_L (++)). rewrite insert_app_r_alt by done.
  rewrite Nat.sub_diag. simpl. unfold set_children. simpl.
  rewrite length_app. simpl. by rewrite Nat.add_succ_r.
Qed.

Lemma create_terms_spec sf ts : ∀ h v o s m cs post,
  for_each (λ item, do t <- Node_init item false sf; append_child (length h) t)
    ts (h ++ mkNode v o s cs m :: post)
  = (Ok tt, h ++ mkNode v o s (cs ++ seq (S (length h) + length post) (length ts)) m
              :: post ++ (term_node sf <$> ts)).
Proof.
  induction ts as [|t ts IH]; intros h v o s m cs post.
  { simpl. unfold ret. by rewrite !app_nil_r. }
  simpl. unfold bind at 1. rewrite create_term_step, IH.
  rewrite length_app. simpl. rewrite <- !(assoc_L (++)). simpl.
  by replace (length h + (length post + 1)) with (S (length h + length post))
    by lia.
Qed.

Lemma append_child_root h v o s m cs post c :
  append_child (length h) c (h ++ mkNode v o s cs m :: post)
  = (Ok tt, h ++ mkNode v o s (cs ++ [c]) m :: post).
Proof.
  unfold append_child. rewrite list_lookup_middle by done.
  rewrite insert_app_r_alt by done. by rewrite Nat.sub_diag.
Qed.

Lemma append_roots_spec (ns : list Query) : ∀ h v o s m cs post,
  for_each (λ query, append_child (length h) (root (query_tree query)))
    ns (h ++ mkNode v o s cs m :: post)
  = (Ok tt, h ++ mkNode v o s (cs ++ ((λ q, root (query_tree q)) <$> ns)) m
              :: post).
Proof.
  induction ns as [|q ns IH]; intros h v o s m cs post.
  { simpl. unfold ret. by rewrite app_nil_r. }
  simpl. unfold bind at 1. rewrite append_child_root, IH.
  by rewrite <- (assoc_L (++)).
Qed.

Lemma build_spec h op ts ns sf :
  _build_query_tree (mkQuery (mkTree (length h))) ts ns sf
    (h ++ [mkNode op true sf [] false])
  = (Ok tt, built h op ts ns sf).
Proof.
  unfold _build_query_tree, built, bind.
  assert (match ts with
          | [] => ret tt
          | _ => _create_term_nodes (mkQuery (mkTree (length h))) ts sf
          end (h ++ [mkNode op true sf [] false])
          = (Ok tt, h ++ mkNode op true sf (seq (S (length h)) (length ts)) false
                      :: (term_node sf <$> ts))) as ->.
  { destruct ts as [|t ts]; [done|]. unfold _create_term_nodes. simpl root.
    rewrite create_terms_spec. simpl. by rewrite Nat.add_0_r. }
  destruct ns as [|q ns]; [by rewrite app_nil_r|].
  apply append_roots_spec.
Qed.

Lemma Query_init_unfold F op ts ns sf h :
  valid_operator op = true →
  Query_init F op ts ns sf h
  = (do _ <- _validate_tree_structure F (length h);
     do _ <- remove_marks F (length h);
     do _ <- for_each (λ query, remove_all_marks F (query_tree query)) ns;
     ret (mkQuery (mkTree (length h)))) (built h op ts ns sf).
Proof.
  intros Hop. unfold Query_init. rewrite Hop. unfold bind at 1.
  unfold Node_init at 1. unfold bind at 1. by rewrite build_spec.
Qed.

Lemma built_length h op ts ns sf :
  length (built h op ts ns sf) = S (length h + length ts).
Proof. unfold built. rewrite length_app. simpl. rewrite length_fmap. lia. Qed.

Lemma built_lookup_old h op ts ns sf a nd :
  h !! a = Some nd → built h op ts ns sf !! a = Some nd.
Proof. apply lookup_app_l_Some. Qed.

Lemma built_lookup_root h op ts ns sf :
  built h op ts ns sf !! length h
  = Some (mkNode op true sf
            (seq (S (length h)) (length ts)
               ++ ((λ q, root (query_tree q)) <$> ns)) false).
Proof. unfold built. by rewrite list_lookup_middle. Qed.

Lemma built_lookup_term h op ts ns sf i t :
  ts !! i = Some t →
  built h op ts ns sf !! (S (length h) + i) = Some (term_node sf t).
Proof.
  intros Hi. unfold built. rewrite lookup_app_r by lia.
  replace (S (length h) + i - length h) with (S i) by lia. simpl.
  by rewrite list_lookup_fmap, Hi.
Qed.

Lemma built_clean h op ts ns sf :
  clean h = true → clean (built h op ts ns sf) = true.
Proof.
  unfold clean, built. rewrite forallb_app. intros ->. simpl.
  induction ts as [|t ts IH]; [done|]. done.
Qed.

Lemma mjoin_singletons {A} (l : list A) : mjoin ((λ x, [x]) <$> l) = l.
Proof. induction l as [|x l IH]; [done|]. simpl. by f_equal. Qed.

Lemma preorder_term f h op ts ns sf i t :
  ts !! i = Some t →
  preorder (S f) (built h op ts ns sf) (S (length h) + i)
  = Some [S (length h) + i].
Proof.
  intros Hi. cbn [preorder]. by rewrite (built_lookup_term _ _ _ _ _ _ _ Hi).
Qed.

Lemma preorder_old f h op ts ns sf a :
  a < length h → is_Some (preorder f h a) →
  preorder f (built h op ts ns sf) a = Some (nodes_of f h a).
Proof.
  intros Ha [l Hl]. unfold nodes_of. rewrite Hl. by apply preorder_app.
Qed.

Lemma preorder_built f h op ts ns sf :
  good f h = true → in_store h ns = true →
  preorder (S f) (built h op ts ns sf) (length h)
  = Some (length h :: seq (S (length h)) (length ts) ++ reach f h ns).
Proof.
  rewrite good_spec, in_store_spec. intros (Hf & _ & Hd) Hns.
  cbn [preorder]. rewrite built_lookup_root. cbn [children].
  assert (mapM (preorder f (built h op ts ns sf))
            (seq (S (length h)) (length ts)
               ++ ((λ q, root (query_tree q)) <$> ns))
          = Some (((λ a, [a]) <$> seq (S (length h)) (length ts))
                    ++ ((λ q, nodes_of f h (root (query_tree q))) <$> ns)))
    as ->.
  { apply mapM_Some, Forall2_app.
    - apply Forall2_fmap_r, Forall_Forall2_diag, Forall_forall.
      intros a Ha%elem_of_seq.
      destruct (lookup_lt_is_Some_2 ts (a - S (length h))) as [t Ht]; [lia|].
      destruct f as [|f]; [lia|].
      replace a with (S (length h) + (a - S (length h))) by lia.
      by eapply preorder_term.
    - apply Forall2_fmap, Forall_Forall2_diag, Forall_forall.
      intros q Hq. apply preorder_old; auto. }
  unfold reach. by rewrite join_app, mjoin_singletons.
Qed.

Lemma reach_bound f h ns a :
  a ∈ reach f h ns → a < length h.
Proof.
  unfold reach. intros (l & Ha & Hl)%list_elem_of_join.
  apply list_elem_of_fmap in Hl as (q & -> & _).
  unfold nodes_of in Ha. destruct (preorder f h _) as [l|] eqn:E.
  - by eapply preorder_bound.
  - by apply not_elem_of_nil in Ha.
Qed.

Lemma walk_NoDup f h n ns :
  NoDup (length h :: seq (S (length h)) n ++ reach f h ns)
  ↔ NoDup (reach f h ns).
Proof.
  rewrite NoDup_cons, NoDup_app. split; [tauto|]. intros Hr.
  split; [|split; [apply NoDup_seq|split; [|done]]].
  - intros [Hs|Hs%reach_bound]%elem_of_app; [|lia].
    apply elem_of_seq in Hs. lia.
  - intros a Hs%elem_of_seq Ha%reach_bound. lia.
Qed.

Lemma walk_bound f h op ts ns sf a :
  a ∈ length h :: seq (S (length h)) (length ts) ++ reach f h ns →
  a < length (built h op ts ns sf).
Proof.
  rewrite built_length.
  intros [->|[Hs%elem_of_seq|Hr%reach_bound]%elem_of_app]%elem_of_cons; lia.
Qed.

Lemma good_built f h op ts ns sf :
  good f h = true → in_store h ns = true →
  good (S f) (built h op ts ns sf) = true.
Proof.
  intros Hg Hns. pose proof (preorder_built f h op ts ns sf Hg Hns) as Hr.
  apply good_spec in Hg as (Hf & Hc & Hd). apply good_spec.
  split; [lia|]. split.
  { apply clean_spec, built_clean, clean_spec, Hc. }
  intros a. rewrite built_length. intros Ha.
  destruct (decide (a < length h)) as [Hlt|Hge].
  { destruct (Hd a Hlt) as [l Hl]. exists l.
    by apply preorder_S, preorder_app. }
  destruct (decide (a = length h)) as [->|Hne].
  { rewrite Hr. eauto. }
  destruct (lookup_lt_is_Some_2 ts (a - S (length h))) as [t Ht]; [lia|].
  replace a with (S (length h) + (a - S (length h))) by lia.
  erewrite preorder_term; eauto.
Qed.

(** *** The constructor on a good store *)

Lemma remove_marks_clean f h n :
  clean h = true → is_Some (preorder f h n) →
  remove_marks f n h = (Ok tt, h).
Proof.
  intros Hc [l Hl]. rewrite (remove_scan f h n l h eq_refl Hl).
  rewrite unmark_each_ok by (intros; by eapply preorder_bound).
  by rewrite mark_set_clean.
Qed.

Lemma Query_init_ok f h op ts ns sf :
  good f h = true → valid_operator op = true → in_store h ns = true →
  NoDup (reach f h ns) →
  Query_init (S f) op ts ns sf h
  = (Ok (mkQuery (mkTree (length h))), built h op ts ns sf).
Proof.
  intros Hg Hop Hns Hnd. rewrite Query_init_unfold by done.
  pose proof (preorder_built f h op ts ns sf Hg Hns) as Hr.
  pose proof (good_built f h op ts ns sf Hg Hns) as Hg'.
  apply good_spec in Hg' as (_ & Hc' & Hd'). apply clean_spec in Hc'.
  set (B := built h op ts ns sf) in *.
  set (L := length h :: seq (S (length h)) (length ts) ++ reach f h ns) in *.
  unfold bind at 1. rewrite (validate_scan _ B _ L B eq_refl Hr).
  rewrite mark_each_ok; cycle 1.
  { by apply walk_NoDup. }
  { intros a Ha%(walk_bound _ _ op _ _ sf).
    destruct (lookup_lt_is_Some_2 B a Ha) as [nd E]. exists nd.
    split; [done|]. by eapply clean_spec. }
  unfold bind at 1.
  rewrite (remove_scan _ B _ L _ (mark_set_shape _ _ _) Hr).
  rewrite unmark_each_ok; cycle 1.
  { intros a Ha%(walk_bound _ _ op _ _ sf). unfold mark_set.
    by rewrite length_imap. }
  rewrite mark_set_undo by done. unfold bind at 1.
  rewrite for_each_id; [done|]. intros q Hq. unfold remove_all_marks.
  apply remove_marks_clean; [done|]. apply Hd'. unfold B.
  rewrite built_length. pose proof (proj1 (in_store_spec _ _) Hns q Hq). lia.
Qed.

Lemma Query_init_raises f h op ts ns sf :
  good f h = true → valid_operator op = true → in_store h ns = true →
  ¬ NoDup (reach f h ns) →
  ∃ h', Query_init (S f) op ts ns sf h = (Raise tree_failed, h').
Proof.
  intros Hg Hop Hns Hnd. rewrite Query_init_unfold by done.
  pose proof (preorder_built f h op ts ns sf Hg Hns) as Hr.
  set (B := built h op ts ns sf) in *.
  set (L := length h :: seq (S (length h)) (length ts) ++ reach f h ns) in *.
  unfold bind at 1. rewrite (validate_scan _ B _ L B eq_refl Hr).
  destruct (mark_each_raise L B) as [h' ->]; [| |by eauto].
  - intros a Ha. by eapply walk_bound.
  - intros HL. by apply Hnd, (walk_NoDup f h (length ts) ns).
Qed.

Lemma Query_init_invalid F op ts ns sf h :
  valid_operator op = false →
  Query_init F op ts ns sf h = (Raise AssertionError, h).
Proof. unfold Query_init. by intros ->. Qed.

Lemma good_mono f f' h : f ≤ f' → good f h = true → good f' h = true.
Proof.
  rewrite !good_spec. intros Hf (? & ? & Hd). split; [lia|]. split; [done|].
  intros a Ha. destruct (Hd a Ha) as [l Hl]. exists l.
  by eapply preorder_mono.
Qed.

Lemma reach_mono f f' h ns :
  f ≤ f' → good f h = true → in_store h ns = true →
  reach f' h ns = reach f h ns.
Proof.
  rewrite good_spec, in_store_spec. intros Hf (_ & _ & Hd) Hns. unfold reach.
  f_equal. apply list_fmap_ext. intros _ q Hq%list_elem_of_lookup_2.
  unfold nodes_of. destruct (Hd _ (Hns q Hq)) as [l Hl].
  by rewrite Hl, (preorder_mono _ _ _ _ _ Hf Hl).
Qed.

Lemma reach_built f h op ts ns sf qs :
  good f h = true → in_store h qs = true →
  reach (S f) (built h op ts ns sf) qs = reach f h qs.
Proof.
  rewrite good_spec, in_store_spec. intros (_ & _ & Hd) Hqs. unfold reach.
  f_equal. apply list_fmap_ext. intros _ q Hq%list_elem_of_lookup_2.
  unfold nodes_of. destruct (Hd _ (Hqs q Hq)) as [l Hl].
  rewrite Hl. unfold built. by erewrite preorder_S by (by apply preorder_app).
Qed.

Lemma in_store_built h op ts ns sf qs :
  in_store h qs = true → in_store (built h op ts ns sf) qs = true.
Proof.
  rewrite !in_store_spec. intros H q Hq. rewrite built_length.
  specialize (H q Hq). lia.
Qed.

Lemma Query_init_shape F op ts ns sf h q h' :
  Query_init F op ts ns sf h = (Ok q, h') →
  q = mkQuery (mkTree (length h)) ∧ shape h' = shape (built h op ts ns sf).
Proof.
  destruct (valid_operator op) eqn:Hop.
  2: { by rewrite Query_init_invalid. }
  rewrite Query_init_unfold by done.
  intros (? & h1 & H1 & H)%bind_Ok_inv. apply validate_shape in H1.
  apply bind_Ok_inv in H as (? & h2 & H2 & H). apply remove_marks_shape in H2.
  apply bind_Ok_inv in H as (? & h3 & H3 & H).
  eapply for_each_shape in H3.
  2: { intros ?????. by eapply remove_marks_shape. }
  unfold ret in H. simplify_eq. split; [done|]. congruence.
Qed.

Lemma nodes_of_root f h n :
  is_Some (preorder f h n) → n ∈ nodes_of f h n.
Proof.
  intros [l Hl]. unfold nodes_of. rewrite Hl. destruct f as [|f]; [done|].
  simpl in Hl. destruct (h !! n); [|done].
  destruct (mapM _ _); [|done]. simplify_eq. by left.
Qed.

Lemma reach_twice f h q l1 l2 l3 :
  good f h = true → in_store h (l1 ++ q :: l2 ++ q :: l3) = true →
  ¬ NoDup (reach f h (l1 ++ q :: l2 ++ q :: l3)).
Proof.
  intros (_ & _ & Hd)%good_spec Hin. rewrite in_store_spec in Hin.
  assert (root (query_tree q) ∈ nodes_of f h (root (query_tree q))) as Hq.
  { apply nodes_of_root, Hd, Hin. set_solver. }
  unfold reach. rewrite fmap_app, join_app. simpl.
  rewrite fmap_app, join_app. simpl.
  intros (_ & _ & (_ & Hdis & _)%NoDup_app)%NoDup_app.
  apply (Hdis _ Hq). apply elem_of_app. right. apply elem_of_app. by left.
Qed.

(** *** Serializers: where a field lookup aborts the call *)

Lemma fine_not_ok {A} (r : result A) :
  fine r → ¬ is_Ok r → r = Raise UnboundLocalError.
Proof. destruct r; simpl; intros; by subst. Qed.

Lemma fine_rbind {A B} (r : result A) (k : A → result B) :
  fine r → (∀ a, fine (k a)) → fine (rbind r k).
Proof. destruct r; simpl; auto. Qed.

Lemma not_ok_rbind {A B} (r : result A) (k : A → result B) :
  ¬ is_Ok r → ¬ is_Ok (rbind r k).
Proof. by destruct r. Qed.

Lemma fold_children_fine {A} (body : string → A → result string) l :
  (∀ acc x, x ∈ l → fine (body acc x)) → ∀ acc, fine (fold_children body acc l).
Proof.
  induction l as [|x l IH]; intros H acc; [done|]. simpl.
  apply fine_rbind; [apply H; by left|]. intros acc'. apply IH.
  intros ???. apply H. by right.
Qed.

Lemma fold_children_not_ok {A} (body : string → A → result string) l x :
  x ∈ l → (∀ acc, ¬ is_Ok (body acc x)) →
  ∀ acc, ¬ is_Ok (fold_children body acc l).
Proof.
  induction l as [|y l IH]; intros Hx Hb acc; [by apply not_elem_of_nil in Hx|].
  simpl. apply elem_of_cons in Hx as [<-|Hx].
  - by apply not_ok_rbind.
  - destruct (body acc y); simpl; auto.
Qed.

Lemma get_search_field_wos_fine sf : fine (get_search_field_wos sf).
Proof. unfold get_search_field_wos. by repeat case_match. Qed.

Lemma get_search_field_pubmed_fine sf : fine (get_search_field_pubmed sf).
Proof. unfold get_search_field_pubmed. by repeat case_match. Qed.

Lemma preorder_children f h n l nd c :
  preorder (S f) h n = Some l → h !! n = Some nd → c ∈ children nd →
  is_Some (preorder f h c) ∧ is_Some (h !! c).
Proof.
  simpl. intros H E Hc. rewrite E in H.
  destruct (mapM (preorder f h) (children nd)) as [ls|] eqn:Em; [|done].
  apply mapM_Some in Em. apply list_elem_of_lookup in Hc as [i Hi].
  destruct (Forall2_lookup_l _ _ _ _ _ Em Hi) as (lc & _ & Hlc).
  split; [by eauto|]. destruct f as [|f]; [done|]. simpl in Hlc.
  by destruct (h !! c).
Qed.

Ltac fine_step IH :=
  repeat first
    [ done
    | apply fine_rbind; [|intros ?]
    | apply get_search_field_wos_fine
    | apply get_search_field_pubmed_fine
    | by apply IH
    | case_match ].

Lemma _print_query_wos_fine f h n l :
  preorder f h n = Some l → fine (_print_query_wos f h n).
Proof.
  revert n l. induction f as [|f IH]; intros n l Hp; [done|].
  pose proof Hp as Hp'. simpl in Hp'. simpl.
  destruct (h !! n) as [nd|] eqn:E; [|done].
  apply fold_children_fine. intros acc c Hc.
  destruct (preorder_children _ _ _ _ _ _ Hp E Hc) as [[lc Hlc] [cn ->]].
  pose proof (IH _ _ Hlc). fine_step IH.
Qed.

Lemma _print_query_pubmed_fine f h n l :
  preorder f h n = Some l → fine (_print_query_pubmed f h n).
Proof.
  revert n l. induction f as [|f IH]; intros n l Hp; [done|].
  pose proof Hp as Hp'. simpl in Hp'. simpl.
  destruct (h !! n) as [nd|] eqn:E; [|done].
  apply fold_children_fine. intros acc c Hc.
  destruct (preorder_children _ _ _ _ _ _ Hp E Hc) as [[lc Hlc] [cn ->]].
  pose proof (IH _ _ Hlc). fine_step IH.
Qed.

Lemma pubmed_unmapped_not_ok h n t tn :
  term_below h n t → h !! t = Some tn →
  get_search_field_pubmed (search_field tn) = Raise UnboundLocalError →
  ∀ f, ¬ is_Ok (_print_query_pubmed f h n).
Proof.
  intros Hb Ht Hsf. induction Hb as [n nd t' tn' En Hc Et Hop|n nd c cn t' En Hc Ec Hop Hb IH];
    (intros [|f]; [simpl; tauto|]); simpl; rewrite En.
  - assert (tn' = tn) as -> by congruence.
    apply (fold_children_not_ok _ _ t' Hc). intros acc.
    rewrite Ht, Hop, Hsf. simpl. case_match; simpl; tauto.
  - apply (fold_children_not_ok _ _ c Hc). intros acc.
    rewrite Ec, Hop. simpl. specialize (IH Ht f).
    destruct (_print_query_pubmed f h c); simpl in *; [tauto| |];
      repeat case_match; simpl; tauto.
Qed.

Lemma wos_unmapped_not_ok h n t tn :
  wos_field_site h n t → h !! t = Some tn →
  get_search_field_wos (search_field tn) = Raise UnboundLocalError →
  ∀ f, ¬ is_Ok (_print_query_wos f h n).
Proof.
  intros Hb Ht Hsf. induction Hb as [n nd t' tn' En Hfst Hlst Et Hop|n nd c cn t' En Hc Ec Hop Hb IH];
    (intros [|f]; [simpl; tauto|]); simpl; rewrite En.
  - assert (tn' = tn) as -> by congruence.
    assert (t' ∈ children nd) as Hc.
    { unfold is_first in Hfst. apply bool_decide_eq_true_1 in Hfst.
      by eapply list_elem_of_lookup_2. }
    apply (fold_children_not_ok _ _ t' Hc). intros acc.
    rewrite Ht, Hop, Hfst, Hlst, Hsf. simpl. tauto.
  - apply (fold_children_not_ok _ _ c Hc). intros acc.
    rewrite Ec, Hop. simpl. specialize (IH Ht f).
    destruct (_print_query_wos f h c); simpl in *; [tauto| |];
      repeat case_match; simpl; tauto.
Qed.

Lemma get_search_field_wos_unmapped sf :
  sf ∉ field_table → get_search_field_wos sf = Raise UnboundLocalError.
Proof.
  intros H. unfold get_search_field_wos.
  repeat match goal with
         | |- context [String.eqb sf ?s] =>
             destruct (String.eqb_spec sf s) as [->|_];
             [exfalso; apply H; unfold field_table; set_solver|]
         end.
  done.
Qed.

Lemma get_search_field_pubmed_unmapped sf :
  sf ∉ field_table → get_search_field_pubmed sf = Raise UnboundLocalError.
Proof.
  intros H. unfold get_search_field_pubmed.
  repeat match goal with
         | |- context [String.eqb sf ?s] =>
             destruct (String.eqb_spec sf s) as [->|_];
             [exfalso; apply H; unfold field_table; set_solver|]
         end.
  done.
Qed.

(** The empty store, from which every program starts, is a good one. *)
Lemma good_empty : good 1 [] = true.
Proof. reflexivity. Qed.

(** *** The claims about the query tree *)

Lemma reach_app f h ns1 ns2 :
  reach f h (ns1 ++ ns2) = reach f h ns1 ++ reach f h ns2.
Proof. unfold reach. by rewrite fmap_app, join_app. Qed.

(** C1, as amended.  On a store without stale marks, with enough fuel for
    the depth of its trees and valid operator names:
    - two constructions in a row whose trees share no node (the nested
      queries of the two parents reach pairwise different nodes) both
      return;
    - a construction that reaches one node twice raises
      [ValueError("Building Query Tree failed")];
    - this is the case when the same query occurs twice in the nested
      queries of one parent.
    Nothing is stated here about a query nested in two different parents:
    the lemma after the witness shows that such a reuse is not always
    refused. *)
Theorem C1_marks_guard_one_construction f F1 F2 h
    op1 ts1 ns1 sf1 op2 ts2 ns2 sf2 :
  good f h = true → S f ≤ F1 → S F1 ≤ F2 →
  valid_operator op1 = true → valid_operator op2 = true →
  in_store h ns1 = true → in_store h ns2 = true →
  (NoDup (reach f h (ns1 ++ ns2)) →
     ∃ p1 h1 p2 h2,
       Query_init F1 op1 ts1 ns1 sf1 h = (Ok p1, h1) ∧
       Query_init F2 op2 ts2 ns2 sf2 h1 = (Ok p2, h2) ∧
       p1 ≠ p2)
  ∧ (¬ NoDup (reach f h ns1) →
     ∃ h', Query_init F1 op1 ts1 ns1 sf1 h = (Raise tree_failed, h'))
  ∧ (∀ q l1 l2 l3, ns1 = l1 ++ q :: l2 ++ q :: l3 →
     ∃ h', Query_init F1 op1 ts1 ns1 sf1 h = (Raise tree_failed, h')).
Proof.
  intros Hg HF1 HF2 Hop1 Hop2 Hin1 Hin2.
  destruct F1 as [|f1]; [lia|]. destruct F2 as [|f2]; [lia|].
  assert (good f1 h = true) as Hg1 by (eapply good_mono; [|done]; lia).
  assert (∀ ns, in_store h ns = true → reach f1 h ns = reach f h ns) as Hreach.
  { intros ns Hns. apply reach_mono; [lia|done..]. }
  split; [|split].
  - rewrite reach_app. intros (Hnd1 & _ & Hnd2)%NoDup_app.
    pose proof (good_built f1 h op1 ts1 ns1 sf1 Hg1 Hin1) as HgB.
    assert (good f2 (built h op1 ts1 ns1 sf1) = true) as HgB2
      by (eapply good_mono; [|done]; lia).
    pose proof (in_store_built h op1 ts1 ns1 sf1 ns2 Hin2) as Hin2'.
    eexists _, _, _, _. split.
    { apply Query_init_ok; [done..|]. by rewrite Hreach. }
    split.
    { apply Query_init_ok; [done..|].
      rewrite (reach_mono (S f1) f2) by (done || lia).
      by rewrite reach_built, Hreach. }
    rewrite built_length. intros [=]. lia.
  - intros Hnd. apply Query_init_raises; [done..|]. by rewrite Hreach.
  - intros q l1 l2 l3 ->. apply Query_init_raises; [done..|].
    by apply reach_twice.
Qed.

Lemma C1_marks_guard_witness :
  good 2 (built lung_store "OR" ["breast"] [] "Title") = true ∧
  NoDup (reach 2 (built lung_store "OR" ["breast"] [] "Title")
           ([lung_query] ++ [mkQuery (mkTree 2)])) ∧
  (∃ p1 h1 p2 h2,
     Query_init 3 "AND" ["a"] [lung_query] "Abstract"
       (built lung_store "OR" ["breast"] [] "Title") = (Ok p1, h1) ∧
     Query_init 4 "OR" ["b"] [mkQuery (mkTree 2)] "Title" h1 = (Ok p2, h2) ∧
     p1 ≠ p2).
Proof.
  assert (NoDup (reach 2 (built lung_store "OR" ["breast"] [] "Title")
                   ([lung_query] ++ [mkQuery (mkTree 2)]))) as Hnd
    by compute_done.
  split; [reflexivity|]. split; [exact Hnd|].
  apply (C1_marks_guard_one_construction 2 3 4
           (built lung_store "OR" ["breast"] [] "Title")
           "AND" ["a"] [lung_query] "Abstract"
           "OR" ["b"] [mkQuery (mkTree 2)] "Title");
    (reflexivity || lia || exact Hnd).
Defined.

(** C1 as stated fails: a query is built, then used as the nested query of
    two different parents, and no construction raises. *)
Lemma C1_shared_across_parents_accepted :
  ∃ q h1 p1 h2 p2 h3,
    Query_init 5 "OR" ["lung"] [] "Title" [] = (Ok q, h1) ∧
    Query_init 5 "AND" ["a"] [q] "Abstract" h1 = (Ok p1, h2) ∧
    Query_init 5 "AND" ["b"] [q] "Abstract" h2 = (Ok p2, h3).
Proof. eexists _, _, _, _, _, _. vm_compute. done. Qed.

(** C6.  When [Query(operator, search_terms, nested_queries, search_field)]
    returns, the root of its tree has [len(search_terms) +
    len(nested_queries)] children: first one term node per search term, in
    order, carrying the term and the search field, then the root of each
    nested query, in order. *)
Theorem C6_root_children F op ts ns sf h q h' :
  Query_init F op ts ns sf h = (Ok q, h') →
  ∃ nd terms,
    h' !! root (query_tree q) = Some nd ∧
    length (children nd) = length ts + length ns ∧
    children nd = terms ++ ((λ n, root (query_tree n)) <$> ns) ∧
    Forall2 (λ a t, ∃ tn, h' !! a = Some tn ∧ value tn = t ∧
                          operator tn = false ∧ search_field tn = sf ∧
                          children tn = [])
      terms ts.
Proof.
  intros [-> Hs]%Query_init_shape. simpl.
  destruct (shape_children _ _ _ _ (eq_sym Hs)
              (built_lookup_root h op ts ns sf)) as (nd & E & Hc & _).
  simpl in Hc. exists nd, (seq (S (length h)) (length ts)).
  split; [done|]. split.
  { rewrite Hc, length_app, length_seq, length_fmap. done. }
  split; [done|].
  apply Forall2_same_length_lookup. split; [by rewrite length_seq|].
  intros i a t Ha Ht. apply lookup_seq in Ha as [-> _].
  destruct (shape_children _ _ _ _ (eq_sym Hs)
              (built_lookup_term h op ts ns sf i t Ht)) as (tn & Et & ? & ? & ? & ?).
  exists tn. done.
Qed.

Lemma C6_root_children_witness :
  ∃ q h',
    Query_init 3 "AND" ["cancer"; "tumor"] [lung_query] "Abstract" lung_store
      = (Ok q, h') ∧
    ∃ nd terms,
      h' !! root (query_tree q) = Some nd ∧
      length (children nd) = 2 + 1 ∧
      children nd = terms ++ [0] ∧
      Forall2 (λ a t, ∃ tn, h' !! a = Some tn ∧ value tn = t ∧
                            operator tn = false ∧ search_field tn = "Abstract" ∧
                            children tn = [])
        terms ["cancer"; "tumor"].
Proof.
  eexists _, _. split; [vm_compute; reflexivity|].
  apply (C6_root_children 3 "AND" ["cancer"; "tumor"] [lung_query] "Abstract"
           lung_store).
  vm_compute. reflexivity.
Defined.

(** C2, as amended.  For the AND query over the term cancer (field
    Abstract) and one nested OR query over lung and breast (field Title),
    [to_string("wos")] returns [AB=(cancer AND TI=(lung OR breast))]: the
    field code stands once before the first term of a run and one
    parenthesis closes after the last child. *)
Theorem C2_wos_example (k : nat) :
  ∃ q h1 p h2,
    Query_init (3 + k) "OR" ["lung"; "breast"] [] "Title" [] = (Ok q, h1) ∧
    Query_init (3 + k) "AND" ["cancer"] [q] "Abstract" h1 = (Ok p, h2) ∧
    to_string (3 + k) h2 p "wos" = Ok "AB=(cancer AND TI=(lung OR breast))".
Proof. eexists _, _, _, _. vm_compute. done. Qed.

(** C2 as stated fails: the string of the claim is not what the serializer
    returns. *)
Lemma C2_wos_example_differs :
  ∃ q h1 p h2,
    Query_init 3 "OR" ["lung"; "breast"] [] "Title" [] = (Ok q, h1) ∧
    Query_init 3 "AND" ["cancer"] [q] "Abstract" h1 = (Ok p, h2) ∧
    to_string 3 h2 p "wos" ≠ Ok "AB=(cancer) AND (TI=(lung) OR TI=(breast))".
Proof. eexists _, _, _, _. vm_compute. done. Qed.

(** C3.  What the code does at the input of the claim: for the AND query
    over the single term covid (field Title), [to_string("pubmed")] returns
    the operator, the term and an unmatched closing parenthesis, because an
    only child takes the branch written for the children after the first. *)
Theorem C3_pubmed_single_term (k : nat) :
  ∃ p h,
    Query_init (2 + k) "AND" ["covid"] [] "Title" [] = (Ok p, h) ∧
    to_string (2 + k) h p "pubmed" = Ok " AND covid[ti])".
Proof. eexists _, _. vm_compute. done. Qed.

(** Where the code does what C5 says.  On a tree the serializer can walk,
    a term node whose search field is not a key of the field table makes
    [to_string("pubmed")] raise [UnboundLocalError], wherever the node
    stands below the root; it makes [to_string("wos")] raise it when the
    node stands where the WoS serializer emits the field code: first
    child, and not the last one, of the root or of an operator node below
    it. *)
Theorem C5_unmapped_field_aborts f h q l t tn :
  preorder f h (root (query_tree q)) = Some l →
  h !! t = Some tn → search_field tn ∉ field_table →
  (term_below h (root (query_tree q)) t →
     to_string f h q "pubmed" = Raise UnboundLocalError)
  ∧ (wos_field_site h (root (query_tree q)) t →
     to_string f h q "wos" = Raise UnboundLocalError).
Proof.
  intros Hp Ht Hsf. split; intros Hb.
  - apply fine_not_ok; [by eapply _print_query_pubmed_fine|].
    eapply pubmed_unmapped_not_ok; [done..|].
    by apply get_search_field_pubmed_unmapped.
  - apply fine_not_ok; [by eapply _print_query_wos_fine|].
    eapply wos_unmapped_not_ok; [done..|].
    by apply get_search_field_wos_unmapped.
Qed.

Lemma C5_unmapped_field_witness :
  preorder 2 foo_store 0 = Some [0; 1; 2] ∧
  ("Foo" ∉ field_table) ∧
  term_below foo_store 0 1 ∧ wos_field_site foo_store 0 1 ∧
  to_string 2 foo_store (mkQuery (mkTree 0)) "pubmed" = Raise UnboundLocalError ∧
  to_string 2 foo_store (mkQuery (mkTree 0)) "wos" = Raise UnboundLocalError.
Proof.
  assert ("Foo" ∉ field_table) as Hfoo by compute_done.
  assert (term_below foo_store 0 1) as Hb.
  { eapply term_child; [reflexivity| |reflexivity|reflexivity]. compute_done. }
  assert (wos_field_site foo_store 0 1) as Hw.
  { eapply site_here; reflexivity. }
  split; [reflexivity|]. split; [exact Hfoo|]. split; [exact Hb|].
  split; [exact Hw|].
  destruct (C5_unmapped_field_aborts 2 foo_store (mkQuery (mkTree 0))
              [0; 1; 2] 1 (term_node "Foo" "covid") eq_refl eq_refl Hfoo)
    as [H1 H2].
  split; [exact (H1 Hb)|exact (H2 Hw)].
Defined.


(** ** Serializers: when they return *)

Lemma is_Ok_rbind {A B} (r : result A) (k : A → result B) :
  is_Ok r → (∀ a, is_Ok (k a)) → is_Ok (rbind r k).
Proof. destruct r; simpl; auto. Qed.

Lemma is_Ok_rbind_inv {A B} (r : result A) (k : A → result B) :
  is_Ok (rbind r k) → is_Ok r.
Proof. by destruct r. Qed.

Lemma fold_children_Ok {A} (body : string → A → result string) l :
  (∀ acc x, x ∈ l → is_Ok (body acc x)) →
  ∀ acc, is_Ok (fold_children body acc l).
Proof.
  induction l as [|x l IH]; intros H acc; [done|]. simpl.
  apply is_Ok_rbind; [apply H; by left|]. intros acc'. apply IH.
  intros ???. apply H. by right.
Qed.

Lemma fold_enumerate_Ok (body : string → nat → addr → result string) l :
  ∀ k, (∀ acc j x, l !! j = Some x → is_Ok (body acc (k + j) x)) →
  ∀ acc, is_Ok (fold_enumerate body acc k l).
Proof.
  induction l as [|x l IH]; intros k H acc; [done|]. simpl.
  apply is_Ok_rbind.
  { specialize (H acc 0 x eq_refl). by rewrite Nat.add_0_r in H. }
  intros acc'. apply IH. intros acc'' j y Hy.
  specialize (H acc'' (S j) y Hy). by rewrite Nat.add_succ_r in H.
Qed.

Lemma _print_query_pre_notation_unfold f h n :
  _print_query_pre_notation (S f) h n
  = match h !! n with
    | None => Stuck
    | Some nd =>
        if bool_decide (children nd = []) then Ok (value nd)
        else
          let! result :=
            fold_children (λ result child,
                let! s := _print_query_pre_notation f h child in
                let result := result +:+ s in
                Ok (if negb (is_last (children nd) child) then result +:+ ", "
                    else result))
              (value nd +:+ "[") (children nd) in
          Ok (result +:+ "]")
    end.
Proof.
  cbn [_print_query_pre_notation]. destruct (h !! n) as [nd|]; [|done].
  by destruct (children nd).
Qed.

(** The canonical notation has no field lookup: on a tree it can walk it
    always returns a string. *)
Lemma _print_query_pre_notation_Ok f h n l :
  preorder f h n = Some l → is_Ok (_print_query_pre_notation f h n).
Proof.
  revert n l. induction f as [|f IH]; intros n l Hp; [done|].
  rewrite _print_query_pre_notation_unfold.
  pose proof Hp as Hp'. simpl in Hp'.
  destruct (h !! n) as [nd|] eqn:E; [|done].
  case_bool_decide; [done|].
  apply is_Ok_rbind; [|done]. apply fold_children_Ok. intros acc c Hc.
  destruct (preorder_children _ _ _ _ _ _ Hp E Hc) as [[lc Hlc] _].
  apply is_Ok_rbind; [by eapply IH|done].
Qed.

Lemma is_last_index (cs : list addr) i x :
  cs !! i = Some x → is_last cs x = false → S i < length cs.
Proof.
  intros Hi Hl. pose proof (lookup_lt_Some _ _ _ Hi).
  destruct (decide (S i = length cs)) as [Heq|]; [|lia].
  unfold is_last in Hl. apply bool_decide_eq_false_1 in Hl. destruct Hl.
  rewrite last_lookup, <- Heq. done.
Qed.

Lemma next_is_operator_Ok f h n l nd i x :
  preorder (S f) h n = Some l → h !! n = Some nd →
  children nd !! i = Some x → is_last (children nd) x = false →
  is_Ok (next_is_operator h (children nd) i).
Proof.
  intros Hp E Hi Hl. unfold next_is_operator.
  destruct (lookup_lt_is_Some_2 (children nd) (i + 1)) as [a Ha].
  { pose proof (is_last_index _ _ _ Hi Hl). lia. }
  rewrite Ha.
  destruct (preorder_children _ _ _ _ _ _ Hp E (list_elem_of_lookup_2 _ _ _ Ha))
    as [_ [an ->]].
  done.
Qed.

(** The IEEE serializer has no field lookup either, and its lookahead
    [node.children[index + 1]] is only evaluated for a child that is not the
    last one: on a tree it can walk it always returns a string. *)
Lemma _print_query_ieee_Ok f h n l :
  preorder f h n = Some l → is_Ok (_print_query_ieee f h n).
Proof.
  revert n l. induction f as [|f IH]; intros n l Hp; [done|].
  pose proof Hp as Hp'. simpl in Hp'. simpl.
  destruct (h !! n) as [nd|] eqn:E; [|done].
  apply fold_enumerate_Ok. intros acc j c Hj. simpl.
  pose proof (list_elem_of_lookup_2 _ _ _ Hj) as Hc.
  destruct (preorder_children _ _ _ _ _ _ Hp E Hc) as [[lc Hlc] [cn ->]].
  pose proof (IH _ _ Hlc) as Hrec.
  destruct (operator cn); simpl.
  - destruct (is_first (children nd) c && negb (is_last (children nd) c));
      (apply is_Ok_rbind; [done|done]).
  - apply is_Ok_rbind; [|done].
    destruct (is_first (children nd) c && negb (is_last (children nd) c)) eqn:Eb.
    + apply andb_true_iff in Eb as [_ Hl%negb_true_iff].
      apply is_Ok_rbind; [by eapply next_is_operator_Ok|done].
    + destruct (is_last (children nd) c) eqn:Hl; simpl; [done|].
      apply is_Ok_rbind; [by eapply next_is_operator_Ok|done].
Qed.

Lemma get_search_field_wos_mapped sf :
  sf ∈ field_table → is_Ok (get_search_field_wos sf).
Proof.
  unfold field_table. rewrite !elem_of_cons, elem_of_nil.
  intros [->|[->|[->|[->|[->|[->|[->|[]]]]]]]]; done.
Qed.

Lemma get_search_field_pubmed_mapped sf :
  sf ∈ field_table → is_Ok (get_search_field_pubmed sf).
Proof.
  unfold field_table. rewrite !elem_of_cons, elem_of_nil.
  intros [->|[->|[->|[->|[->|[->|[->|[]]]]]]]]; done.
Qed.

Lemma pubmed_mapped_Ok h f : ∀ n l,
  preorder f h n = Some l →
  (∀ t tn, term_below h n t → h !! t = Some tn →
           search_field tn ∈ field_table) →
  is_Ok (_print_query_pubmed f h n).
Proof.
  induction f as [|f IH]; intros n l Hp Hm; [done|].
  pose proof Hp as Hp'. simpl in Hp'. simpl.
  destruct (h !! n) as [nd|] eqn:E; [|done].
  apply fold_children_Ok. intros acc c Hc.
  destruct (preorder_children _ _ _ _ _ _ Hp E Hc) as [[lc Hlc] [cn Ecn]].
  rewrite Ecn. destruct (operator cn) eqn:Eop; simpl.
  - assert (is_Ok (_print_query_pubmed f h c)) as Hrec.
    { eapply IH; [done|]. intros t tn Ht. apply Hm. by eapply term_deeper. }
    apply is_Ok_rbind; [|done].
    destruct (String.eqb (value cn) "NOT");
      [|destruct (is_first (children nd) c && negb (is_last (children nd) c))];
      by apply is_Ok_rbind.
  - assert (is_Ok (get_search_field_pubmed (search_field cn))) as Hsf.
    { apply get_search_field_pubmed_mapped, (Hm c); [|done].
      by eapply term_child. }
    apply is_Ok_rbind; [|done].
    destruct (is_first (children nd) c && negb (is_last (children nd) c));
      by apply is_Ok_rbind.
Qed.

Lemma wos_mapped_Ok h f : ∀ n l,
  preorder f h n = Some l →
  (∀ t tn, wos_field_site h n t → h !! t = Some tn →
           search_field tn ∈ field_table) →
  is_Ok (_print_query_wos f h n).
Proof.
  induction f as [|f IH]; intros n l Hp Hm; [done|].
  pose proof Hp as Hp'. simpl in Hp'. simpl.
  destruct (h !! n) as [nd|] eqn:E; [|done].
  apply fold_children_Ok. intros acc c Hc.
  destruct (preorder_children _ _ _ _ _ _ Hp E Hc) as [[lc Hlc] [cn Ecn]].
  rewrite Ecn. destruct (operator cn) eqn:Eop; simpl.
  - assert (is_Ok (_print_query_wos f h c)) as Hrec.
    { eapply IH; [done|]. intros t tn Ht. apply Hm. by eapply site_deeper. }
    apply is_Ok_rbind; [|done].
    destruct (String.eqb (value cn) "NOT");
      [|destruct (is_first (children nd) c && negb (is_last (children nd) c))];
      by apply is_Ok_rbind.
  - apply is_Ok_rbind; [|done].
    destruct (is_first (children nd) c) eqn:Hfst,
      (is_last (children nd) c) eqn:Hlst; simpl; try done.
    apply is_Ok_rbind; [|done].
    apply get_search_field_wos_mapped, (Hm c); [|done]. by eapply site_here.
Qed.

(** X1.  When the vendor serializers succeed.  On a tree the serializer can walk,
    [to_string("pubmed")] returns a string exactly when every term node
    below the root has a search field of the field table, and
    [to_string("wos")] exactly when every term node that is the first and
    not the last child of its parent has one. *)
Theorem vendor_serialization_succeeds_iff f h q l :
  preorder f h (root (query_tree q)) = Some l →
  (is_Ok (to_string f h q "pubmed") ↔
     ∀ t tn, term_below h (root (query_tree q)) t → h !! t = Some tn →
             search_field tn ∈ field_table)
  ∧ (is_Ok (to_string f h q "wos") ↔
     ∀ t tn, wos_field_site h (root (query_tree q)) t → h !! t = Some tn →
             search_field tn ∈ field_table).
Proof.
  intros Hp. split; (split; [|by (eapply pubmed_mapped_Ok || eapply wos_mapped_Ok)]).
  - intros Hok t tn Hb Ht.
    destruct (decide (search_field tn ∈ field_table)) as [|Hn]; [done|].
    destruct (pubmed_unmapped_not_ok h _ t tn Hb Ht
                (get_search_field_pubmed_unmapped _ Hn) f Hok).
  - intros Hok t tn Hb Ht.
    destruct (decide (search_field tn ∈ field_table)) as [|Hn]; [done|].
    destruct (wos_unmapped_not_ok h _ t tn Hb Ht
                (get_search_field_wos_unmapped _ Hn) f Hok).
Qed.

Lemma vendor_serialization_witness :
  preorder 2 lung_store 0 = Some [0; 1]
  ∧ (is_Ok (to_string 2 lung_store lung_query "pubmed") ↔
       ∀ t tn, term_below lung_store 0 t → lung_store !! t = Some tn →
               search_field tn ∈ field_table)
  ∧ (is_Ok (to_string 2 lung_store lung_query "wos") ↔
       ∀ t tn, wos_field_site lung_store 0 t → lung_store !! t = Some tn →
               search_field tn ∈ field_table).
Proof.
  split; [reflexivity|].
  exact (vendor_serialization_succeeds_iff 2 lung_store lung_query [0; 1] eq_refl).
Defined.

(** X2.  The canonical notation and the IEEE syntax have no field lookup: on a
    tree the serializer can walk, [to_string] with syntax [pre_notation] or
    [ieee] returns a string, whatever the search fields are. *)
Theorem to_string_without_lookup_total f h q l :
  preorder f h (root (query_tree q)) = Some l →
  is_Ok (to_string f h q "pre_notation") ∧ is_Ok (to_string f h q "ieee").
Proof.
  intros Hp. split.
  - by eapply _print_query_pre_notation_Ok.
  - by eapply _print_query_ieee_Ok.
Qed.

Lemma to_string_without_lookup_witness :
  preorder 2 foo_store 0 = Some [0; 1; 2]
  ∧ is_Ok (to_string 2 foo_store (mkQuery (mkTree 0)) "pre_notation")
  ∧ is_Ok (to_string 2 foo_store (mkQuery (mkTree 0)) "ieee").
Proof.
  split; [reflexivity|].
  exact (to_string_without_lookup_total 2 foo_store (mkQuery (mkTree 0))
           [0; 1; 2] eq_refl).
Defined.

(** ** Construction: edge cases and what it leaves alone *)

(** X3.  A query without search terms and without nested queries.  The
    constructor accepts it on every store, stale marks or not; the canonical
    notation prints the operator alone and the vendor syntaxes print the
    empty string. *)
Theorem empty_query F op sf h :
  1 ≤ F → valid_operator op = true →
  let q := mkQuery (mkTree (length h)) in
  let h' := h ++ [mkNode op true sf [] false] in
  Query_init F op [] [] sf h = (Ok q, h')
  ∧ to_string F h' q "pre_notation" = Ok op
  ∧ to_string F h' q "wos" = Ok ""
  ∧ to_string F h' q "pubmed" = Ok ""
  ∧ to_string F h' q "ieee" = Ok "".
Proof.
  intros HF Hop. destruct F as [|f]; [lia|]. simpl.
  assert ((h ++ [mkNode op true sf [] false]) !! length h
          = Some (mkNode op true sf [] false)) as Hl
    by by rewrite list_lookup_middle.
  split.
  - rewrite Query_init_unfold by done. unfold built. simpl.
    unfold bind. simpl. rewrite Hl. simpl.
    rewrite list_lookup_insert_eq by (rewrite length_app; simpl; lia).
    simpl. rewrite list_insert_insert_eq. unfold set_marked. simpl.
    by rewrite list_insert_id.
  - unfold to_string. simpl. rewrite Hl. done.
Qed.

Lemma empty_query_witness :
  Query_init 1 "NOT" [] [] "Title" lung_store
  = (Ok (mkQuery (mkTree 2)), lung_store ++ [mkNode "NOT" true "Title" [] false])
  ∧ to_string 1 (lung_store ++ [mkNode "NOT" true "Title" [] false])
      (mkQuery (mkTree 2)) "wos" = Ok "".
Proof.
  destruct (empty_query 1 "NOT" "Title" lung_store) as (H1 & _ & H2 & _);
    [lia|reflexivity|].
  split; [exact H1|exact H2].
Defined.

(** X4.  What a construction leaves alone.  When [Query(...)] returns, the store
    has exactly one new node for the root and one per search term, and every
    node that existed before has kept its value, operator flag, search field
    and children. *)
Theorem construction_frame F op ts ns sf h q h' :
  Query_init F op ts ns sf h = (Ok q, h') →
  root (query_tree q) = length h
  ∧ length h' = length h + 1 + length ts
  ∧ ∀ a nd, h !! a = Some nd →
      ∃ nd', h' !! a = Some nd' ∧ value nd' = value nd
        ∧ operator nd' = operator nd ∧ search_field nd' = search_field nd
        ∧ children nd' = children nd.
Proof.
  intros [-> Hs]%Query_init_shape. split; [done|]. split.
  - rewrite <- (shape_length h'), Hs, shape_length, built_length. lia.
  - intros a nd Ha.
    destruct (shape_children _ _ _ _ (eq_sym Hs)
                (built_lookup_old h op ts ns sf a nd Ha))
      as (nd' & ? & ? & ? & ? & ?).
    exists nd'. done.
Qed.

Lemma construction_frame_witness :
  ∃ q h',
    Query_init 3 "AND" ["cancer"] [lung_query] "Abstract" lung_store = (Ok q, h')
    ∧ root (query_tree q) = 2 ∧ length h' = 2 + 1 + 1
    ∧ ∀ a nd, lung_store !! a = Some nd →
        ∃ nd', h' !! a = Some nd' ∧ value nd' = value nd
          ∧ operator nd' = operator nd ∧ search_field nd' = search_field nd
          ∧ children nd' = children nd.
Proof.
  eexists _, _. split; [vm_compute; reflexivity|].
  apply (construction_frame 3 "AND" ["cancer"] [lung_query] "Abstract" lung_store).
  vm_compute. reflexivity.
Defined.

(** *** Marks left behind by a construction that raises *)

Lemma for_each_keeps_marks {A} (body : A → M unit) l a :
  (∀ x h r h', body x h = (r, h') →
     marked <$> h !! a = Some true → marked <$> h' !! a = Some true) →
  ∀ h r h', for_each body l h = (r, h') →
    marked <$> h !! a = Some true → marked <$> h' !! a = Some true.
Proof.
  intros Hb. induction l as [|x l IH]; intros h r h' H Ha; simpl in H.
  - unfold ret in H. by simplify_eq.
  - unfold bind in H. destruct (body x h) as [[[]| |] h1] eqn:E;
      try (simplify_eq; by eapply Hb).
    eapply IH; [done|]. by eapply Hb.
Qed.

(** The validator only sets marks: a node marked before is marked after,
    however the walk ends. *)
Lemma validate_keeps_marks f n h r h' a :
  _validate_tree_structure f n h = (r, h') →
  marked <$> h !! a = Some true → marked <$> h' !! a = Some true.
Proof.
  revert n h r h'. induction f as [|f IH]; intros n h r h' H Ha; simpl in H.
  { unfold stuck in H. by simplify_eq. }
  destruct (h !! n) as [nd|] eqn:E; [|by simplify_eq].
  destruct (marked nd) eqn:Em; [by simplify_eq|].
  apply (for_each_keeps_marks _ _ a IH _ _ _ H).
  destruct (decide (a = n)) as [->|Hne].
  - by rewrite list_lookup_insert_eq by (by eapply lookup_lt_Some).
  - by rewrite list_lookup_insert_ne.
Qed.

(** Whenever the walk from [n] ends, with or without an exception, [n] is
    marked. *)
Lemma validate_marks_root f n h r h' :
  _validate_tree_structure f n h = (r, h') → r ≠ Stuck →
  marked <$> h' !! n = Some true.
Proof.
  destruct f as [|f]; simpl; intros H Hr.
  { unfold stuck in H. by simplify_eq. }
  destruct (h !! n) as [nd|] eqn:E; [|by simplify_eq].
  destruct (marked nd) eqn:Em.
  { simplify_eq. by rewrite E; simpl; rewrite Em. }
  apply (for_each_keeps_marks _ _ n
           (λ x h r h', validate_keeps_marks f x h r h' n) _ _ _ H).
  by rewrite list_lookup_insert_eq by (by eapply lookup_lt_Some).
Qed.

(** A loop of walks that returns found the start of each walk unmarked. *)
Lemma for_each_validate_Ok f cs : ∀ h h',
  for_each (_validate_tree_structure f) cs h = (Ok tt, h') →
  ∀ c, c ∈ cs → marked <$> h !! c ≠ Some true.
Proof.
  induction cs as [|c0 cs IH]; intros h h' H c Hc.
  { by apply elem_of_nil in Hc. }
  simpl in H. apply bind_Ok_inv in H as ([] & h1 & H0 & H1).
  apply elem_of_cons in Hc as [->|Hc].
  - destruct f as [|f]; [done|]. simpl in H0.
    destruct (h !! c0) as [nd|]; [|done]. simpl.
    by destruct (marked nd).
  - intros Hm. apply (IH _ _ H1 c Hc). by eapply validate_keeps_marks.
Qed.

Lemma for_each_app {A} (body : A → M unit) l1 l2 h :
  for_each body (l1 ++ l2) h
  = bind (for_each body l1) (λ _, for_each body l2) h.
Proof.
  revert h. induction l1 as [|x l1 IH]; intros h; [done|].
  simpl. unfold bind. destruct (body x h) as [[[]| |] h1]; [|done..].
  apply IH.
Qed.

Lemma validate_leaf f n h nd :
  h !! n = Some nd → marked nd = false → children nd = [] →
  _validate_tree_structure (S f) n h = (Ok tt, <[n := set_marked true nd]> h).
Proof. intros E Em Ec. simpl. by rewrite E, Em, Ec. Qed.

(** The fresh term nodes never stop the walk. *)
Lemma validate_leaves f n : ∀ k h,
  (∀ i, i < n → ∃ nd, h !! (k + i) = Some nd ∧ marked nd = false
                      ∧ children nd = []) →
  ∃ h', for_each (_validate_tree_structure (S f)) (seq k n) h = (Ok tt, h')
        ∧ ∀ a, a < k → h' !! a = h !! a.
Proof.
  induction n as [|n IH]; intros k h Hl; [by eexists|].
  destruct (Hl 0) as (nd & E & Em & Ec); [lia|]. rewrite Nat.add_0_r in E.
  cbn [seq for_each]. unfold bind at 1.
  rewrite (validate_leaf f k h nd E Em Ec).
  destruct (IH (S k) (<[k := set_marked true nd]> h)) as (h' & -> & Hh').
  { intros i Hi. destruct (Hl (S i)) as (nd' & E' & ?); [lia|].
    exists nd'. rewrite list_lookup_insert_ne by lia.
    by replace (S k + i) with (k + S i) by lia. }
  exists h'. split; [done|]. intros a Ha.
  rewrite Hh' by lia. by rewrite list_lookup_insert_ne by lia.
Qed.

Lemma for_each_remove_no_raise {A} (body : A → M unit) l :
  (∀ x h e h', body x h ≠ (Raise e, h')) →
  ∀ h e h', for_each body l h ≠ (Raise e, h').
Proof.
  intros Hb. induction l as [|x l IH]; intros h e h' H; simpl in H.
  { by unfold ret in H. }
  unfold bind in H. destruct (body x h) as [[[]| |] h1] eqn:E.
  - by eapply IH.
  - by eapply Hb.
  - done.
Qed.

Lemma remove_marks_no_raise f : ∀ n h e h',
  remove_marks f n h ≠ (Raise e, h').
Proof.
  induction f as [|f IH]; intros n h e h'; simpl; [by unfold stuck|].
  destruct (h !! n) as [nd|]; [|done].
  by apply for_each_remove_no_raise.
Qed.

Lemma validate_0_no_raise l h e h' :
  for_each (_validate_tree_structure 0) l h ≠ (Raise e, h').
Proof. by destruct l. Qed.

(** X5.  A construction that raises [ValueError] does not clear the marks it has
    set.  The root of its first nested query stays marked, and from then on
    no construction that nests this query returns: each one stops at the
    stale mark. *)
Theorem failed_construction_poisons F op ts q ns sf h h' :
  Query_init F op ts (q :: ns) sf h = (Raise tree_failed, h') →
  marked <$> h' !! root (query_tree q) = Some true
  ∧ ∀ F' op' ts' ns' sf',
      q ∈ ns' → ¬ is_Ok (Query_init F' op' ts' ns' sf' h').1.
Proof.
  intros H.
  assert (marked <$> h' !! root (query_tree q) = Some true) as Hm.
  { destruct (valid_operator op) eqn:Hop;
      [|by rewrite Query_init_invalid in H by done].
    rewrite Query_init_unfold in H by done. unfold bind at 1 in H.
    destruct (_validate_tree_structure F (length h) _) as [[[]| |] h1] eqn:Ev.
    - unfold bind at 1 in H.
      destruct (remove_marks F (length h) h1) as [[[]| |] h2] eqn:Er;
        [|by apply remove_marks_no_raise in Er|done].
      unfold bind at 1 in H.
      destruct (for_each _ (q :: ns) h2) as [[[]| |] h3] eqn:Ef; [done| |done].
      apply for_each_remove_no_raise in Ef; [done|].
      intros ????. apply remove_marks_no_raise.
    - simplify_eq. destruct F as [|f]; [done|].
      cbn [_validate_tree_structure] in Ev. rewrite built_lookup_root in Ev.
      cbn [marked children fmap list_fmap] in Ev.
      destruct f as [|f]; [by apply validate_0_no_raise in Ev|].
      rewrite for_each_app in Ev. unfold bind at 1 in Ev.
      match type of Ev with
      | context [for_each _ (seq _ _) ?H0] =>
          destruct (validate_leaves f (length ts) (S (length h)) H0)
            as (h2 & E2 & _)
      end.
      { intros i Hi. destruct (lookup_lt_is_Some_2 ts i Hi) as [t Ht].
        exists (term_node sf t). rewrite list_lookup_insert_ne by lia.
        by rewrite (built_lookup_term _ _ _ _ _ _ _ Ht). }
      rewrite E2 in Ev. cbn [for_each] in Ev. unfold bind at 1 in Ev.
      destruct (_validate_tree_structure (S f) (root (query_tree q)) h2)
        as [[[]| |] h3] eqn:Eq; [| |done].
      + apply validate_marks_root in Eq; [|done].
        eapply for_each_keeps_marks; [|exact Ev|exact Eq].
        intros ????. apply validate_keeps_marks.
      + simplify_eq. by apply validate_marks_root in Eq.
    - done. }
  split; [done|]. intros F' op' ts' ns' sf' Hq Hok.
  destruct (valid_operator op') eqn:Hop;
    [|by rewrite Query_init_invalid in Hok by done].
  rewrite Query_init_unfold in Hok by done. unfold bind at 1 in Hok.
  destruct (_validate_tree_structure F' (length h') _) as [[[]| |] h1] eqn:Ev;
    [|done..].
  destruct F' as [|f]; [done|].
  cbn [_validate_tree_structure] in Ev. rewrite built_lookup_root in Ev.
  cbn [marked children] in Ev.
  apply (for_each_validate_Ok _ _ _ _ Ev (root (query_tree q))).
  - apply elem_of_app. right. apply list_elem_of_fmap. eauto.
  - destruct (h' !! root (query_tree q)) as [nd|] eqn:E; [|done].
    rewrite list_lookup_insert_ne by (apply lookup_lt_Some in E; lia).
    by rewrite (built_lookup_old _ _ _ _ _ _ _ E).
Qed.

Lemma failed_construction_witness :
  let h' := (Query_init 3 "AND" [] [lung_query; lung_query] "Title" lung_store).2 in
  marked <$> h' !! 0 = Some true
  ∧ ¬ is_Ok (Query_init 3 "OR" ["x"] [lung_query] "Title" h').1.
Proof.
  destruct (failed_construction_poisons 3 "AND" [] lung_query [lung_query]
              "Title" lung_store
              (Query_init 3 "AND" [] [lung_query; lung_query] "Title" lung_store).2)
    as [H1 H2]; [vm_compute; reflexivity|].
  split; [exact H1|]. apply H2. by left.
Defined.

(** ** Closed forms of the serializers on flat queries *)

Lemma append_assoc (s1 s2 s3 : string) : (s1 +:+ s2) +:+ s3 = s1 +:+ s2 +:+ s3.
Proof.
  induction s1 as [|a s1 IH]; [done|].
  change (String a ((s1 +:+ s2) +:+ s3) = String a (s1 +:+ s2 +:+ s3)).
  by rewrite IH.
Qed.

Lemma append_nil_r (s : string) : s +:+ "" = s.
Proof.
  induction s as [|a s IH]; [done|].
  change (String a (s +:+ "") = String a s). by rewrite IH.
Qed.

Lemma concat_cons2 sep (a b : string) l :
  String.concat sep (a :: b :: l) = a +:+ sep +:+ String.concat sep (b :: l).
Proof. reflexivity. Qed.

Lemma last_cons_ne {A} (x : A) l : l ≠ [] → last (x :: l) = last l.
Proof. by destruct l. Qed.

Lemma NoDup_last_head (x : addr) l : NoDup (x :: l) → l ≠ [] → last (x :: l) ≠ Some x.
Proof.
  intros [Hx _]%NoDup_cons Hl. rewrite last_cons_ne by done.
  intros Hlast. apply Hx. rewrite last_lookup in Hlast.
  by eapply list_elem_of_lookup_2.
Qed.

(** A loop over children that are not the first: each adds the operator
    and its item, the last one closes the parenthesis. *)
Lemma fold_rest {R : addr → string → Prop}
    (body : string → addr → result string) cs op (item : string → string) :
  ∀ l ts pre it0,
    Forall2 R l ts → l ≠ [] → NoDup l →
    (∀ x, x ∈ l → is_last cs x = bool_decide (last l = Some x)) →
    (∀ acc x t, x ∈ l → R x t →
       body acc x
       = Ok (if is_last cs x
             then (acc +:+ " " +:+ op +:+ " " +:+ item t) +:+ ")"
             else acc +:+ " " +:+ op +:+ " " +:+ item t)) →
    fold_children body (pre +:+ it0) l
    = Ok (pre +:+ String.concat (" " +:+ op +:+ " ") (it0 :: (item <$> ts))
            +:+ ")").
Proof.
  induction l as [|x l IH]; intros ts pre it0 HR Hne Hnd Hlast Hbody; [done|].
  inversion HR as [|? t ? ts' Hx HR']; simplify_eq.
  cbn [fold_children]. rewrite (Hbody _ x t) by (done || by left).
  rewrite Hlast by by left. destruct l as [|x' l].
  - apply Forall2_nil_inv_l in HR' as ->.
    rewrite bool_decide_true by done. cbn [rbind fold_children fmap list_fmap].
    rewrite concat_cons2. cbn [String.concat]. f_equal.
    by rewrite !append_assoc.
  - rewrite bool_decide_false by (by apply NoDup_last_head).
    cbn [rbind].
    replace ((pre +:+ it0) +:+ " " +:+ op +:+ " " +:+ item t)
      with ((pre +:+ it0 +:+ " " +:+ op +:+ " ") +:+ item t)
      by (by rewrite !append_assoc).
    apply NoDup_cons in Hnd as [_ Hnd].
    rewrite (IH ts' _ (item t) HR'); [|done|done| |].
    + f_equal. rewrite fmap_cons, concat_cons2. by rewrite !append_assoc.
    + intros y Hy. rewrite Hlast by by right. by rewrite last_cons_ne.
    + intros acc y t' Hy. apply Hbody. by right.
Qed.

(** What the store holds after the construction of a query without nested
    queries. *)
Lemma flat_store F op ts sf h q h' :
  Query_init F op ts [] sf h = (Ok q, h') →
  root (query_tree q) = length h
  ∧ ∃ nd, h' !! length h = Some nd ∧ value nd = op
      ∧ children nd = seq (S (length h)) (length ts)
      ∧ Forall2 (term_at h' sf) (seq (S (length h)) (length ts)) ts.
Proof.
  intros [-> Hs]%Query_init_shape. split; [done|].
  destruct (shape_children _ _ _ _ (eq_sym Hs)
              (built_lookup_root h op ts [] sf)) as (nd & E & Hc & Hv & _).
  simpl in Hc, Hv. rewrite app_nil_r in Hc. exists nd.
  split; [done|]. split; [done|]. split; [done|].
  apply Forall2_same_length_lookup. split; [by rewrite length_seq|].
  intros i a t Ha Ht. apply lookup_seq in Ha as [-> _].
  destruct (shape_children _ _ _ _ (eq_sym Hs)
              (built_lookup_term h op ts [] sf i t Ht)) as (tn & Et & ? & ? & ? & ?).
  exists tn. done.
Qed.

Section flat.
Context (h : store) (n : addr) (nd : Node) (sf : string).

Abbreviation term := (term_at h sf).

Hypothesis Hn : h !! n = Some nd.
Hypothesis Hnd : NoDup (children nd).

Lemma is_first_head c l : children nd = c :: l → is_first (children nd) c = true.
Proof. intros ->. by apply bool_decide_eq_true_2. Qed.

Lemma is_first_tail c l x :
  children nd = c :: l → x ∈ l → is_first (children nd) x = false.
Proof.
  intros E Hx. rewrite E in *. apply bool_decide_eq_false_2. intros [= ->].
  by apply NoDup_cons in Hnd as [? _].
Qed.

Lemma is_last_head c l :
  children nd = c :: l → l ≠ [] → is_last (children nd) c = false.
Proof.
  intros E Hl. rewrite E in *. apply bool_decide_eq_false_2.
  by apply NoDup_last_head.
Qed.

Lemma is_last_tail c l x :
  children nd = c :: l → x ∈ l →
  is_last (children nd) x = bool_decide (last l = Some x).
Proof.
  intros -> Hx. unfold is_last. rewrite last_cons_ne; [done|].
  intros ->. by apply elem_of_nil in Hx.
Qed.

Lemma is_last_only c : children nd = [c] → is_last (children nd) c = true.
Proof. intros ->. by apply bool_decide_eq_true_2. Qed.

Lemma is_first_only c : children nd = [c] → is_first (children nd) c = true.
Proof. intros ->. by apply bool_decide_eq_true_2. Qed.

Lemma wos_flat f c l t ts code :
  children nd = c :: l → l ≠ [] → Forall2 term (c :: l) (t :: ts) →
  get_search_field_wos sf = Ok code →
  _print_query_wos (S f) h n
  = Ok (code +:+ "=(" +:+ String.concat (" " +:+ value nd +:+ " ") (t :: ts)
          +:+ ")").
Proof.
  intros E Hl HR Hcode. apply Forall2_cons_1 in HR as [(tn & Ec & <- & Eop & Esf & _) HR'].
  cbn [_print_query_wos]. rewrite Hn. cbn zeta.
  match goal with |- fold_children ?b _ _ = _ => set (body := b) end.
  rewrite E. cbn [fold_children]. unfold body at 1.
  rewrite Ec, Eop. cbn [negb].
  rewrite (is_first_head c l E), (is_last_head c l E Hl), Esf, Hcode.
  cbn [andb negb rbind].
  change ("" +:+ code +:+ "=(" +:+ value tn) with (code +:+ "=(" +:+ value tn).
  rewrite <- (append_assoc code "=(" (value tn)).
  rewrite (fold_rest (R := term) body (children nd) (value nd) id l ts);
    [by rewrite list_fmap_id, !append_assoc|done|done| | |].
  - rewrite E in Hnd. by apply NoDup_cons in Hnd as [_ ?].
  - intros x Hx. by apply (is_last_tail c l).
  - intros acc x t' Hx (tx & Ex & <- & Eopx & _). unfold body.
    rewrite Ex, Eopx. cbn [negb].
    rewrite (is_first_tail c l x E Hx). cbn [andb rbind]. done.
Qed.
Lemma pubmed_flat f c l t ts code :
  children nd = c :: l → l ≠ [] → Forall2 term (c :: l) (t :: ts) →
  get_search_field_pubmed sf = Ok code →
  _print_query_pubmed (S f) h n
  = Ok ("(" +:+ String.concat (" " +:+ value nd +:+ " ")
                  ((λ t, t +:+ "[" +:+ code +:+ "]") <$> t :: ts)
          +:+ ")").
Proof.
  intros E Hl HR Hcode. apply Forall2_cons_1 in HR as [(tn & Ec & <- & Eop & Esf & _) HR'].
  cbn [_print_query_pubmed]. rewrite Hn. cbn zeta.
  match goal with |- fold_children ?b _ _ = _ => set (body := b) end.
  rewrite E. cbn [fold_children]. unfold body at 1.
  rewrite Ec, Eop. cbn [negb].
  rewrite (is_first_head c l E), (is_last_head c l E Hl), Esf, Hcode.
  cbn [andb negb rbind].
  etrans; [|reflexivity].
  apply (fold_rest (R := term) body (children nd) (value nd)
           (λ t, t +:+ "[" +:+ code +:+ "]") l ts "("
           (value tn +:+ "[" +:+ code +:+ "]") HR' Hl).
  - rewrite E in Hnd. by apply NoDup_cons in Hnd as [_ ?].
  - intros x Hx. by apply (is_last_tail c l).
  - intros acc x t' Hx (tx & Ex & <- & Eopx & Esfx & _). unfold body.
    rewrite Ex, Eopx, Esfx, Hcode. cbn [negb].
    rewrite (is_first_tail c l x E Hx). cbn [andb rbind]. done.
Qed.

Lemma fold_enumerate_children (body : string → nat → addr → result string)
    (body' : string → addr → result string) cs :
  (∀ acc i x, cs !! i = Some x → body acc i x = body' acc x) →
  ∀ l k acc, drop k cs = l →
    fold_enumerate body acc k l = fold_children body' acc l.
Proof.
  intros Hb. induction l as [|x l IH]; intros k acc Hd; [done|].
  assert (cs !! k = Some x) as Hk.
  { by rewrite <- (Nat.add_0_r k), <- lookup_drop, Hd. }
  cbn [fold_enumerate fold_children]. rewrite (Hb _ _ _ Hk).
  destruct (body' acc x); [|done..]. cbn [rbind]. apply IH.
  by rewrite (drop_S _ _ _ Hk) in Hd; simplify_eq.
Qed.

Lemma next_is_operator_flat ts i x :
  Forall2 term (children nd) ts → children nd !! i = Some x →
  is_last (children nd) x = false →
  next_is_operator h (children nd) i = Ok false.
Proof.
  intros HR Hi Hlast. unfold next_is_operator.
  destruct (lookup_lt_is_Some_2 (children nd) (i + 1)) as [a Ha].
  { pose proof (is_last_index _ _ _ Hi Hlast). lia. }
  rewrite Ha.
  destruct (Forall2_lookup_l _ _ _ _ _ HR Ha) as (t & _ & tn & -> & _ & -> & _).
  done.
Qed.

Lemma ieee_flat f c l t ts :
  children nd = c :: l → l ≠ [] → Forall2 term (c :: l) (t :: ts) →
  _print_query_ieee (S f) h n
  = Ok ("(" +:+ String.concat (" " +:+ value nd +:+ " ")
                  ((λ t, dquote +:+ sf +:+ dquote +:+ ":" +:+ t) <$> t :: ts)
          +:+ ")").
Proof.
  intros E Hl HR. pose proof HR as HR0. rewrite <- E in HR0.
  apply Forall2_cons_1 in HR as [(tn & Ec & <- & Eop & Esf & _) HR'].
  cbn [_print_query_ieee]. rewrite Hn. cbn zeta.
  set (item := λ t : string, dquote +:+ sf +:+ dquote +:+ ":" +:+ t).
  set (body' := λ (acc : string) (x : addr),
         match h !! x with
         | None => Stuck
         | Some cx =>
             Ok (if is_last (children nd) x
                 then (acc +:+ " " +:+ value nd +:+ " " +:+ item (value cx))
                      +:+ ")"
                 else acc +:+ (if is_first (children nd) x then "("
                               else " " +:+ value nd +:+ " ") +:+ item (value cx))
         end : result string).
  rewrite (fold_enumerate_children _ body' (children nd)); [| |done].
  2: { intros acc i x Hi. unfold body'.
       destruct (Forall2_lookup_l _ _ _ _ _ HR0 Hi)
         as (tx & _ & cx & Ex & _ & Eopx & Esfx & _).
       rewrite Ex, Eopx. cbn [negb]. rewrite Esfx.
       destruct (is_last (children nd) x) eqn:Elast.
       - rewrite andb_false_r. cbn [negb rbind]. done.
       - rewrite andb_true_r. cbn [negb].
         rewrite (next_is_operator_flat _ _ _ HR0 Hi Elast).
         destruct (is_first (children nd) x); cbn [rbind]; unfold item;
           by rewrite ?append_assoc. }
  rewrite E. cbn [fold_children]. unfold body' at 1.
  rewrite Ec, (is_first_head c l E), (is_last_head c l E Hl). cbn [rbind].
  clear Esf.
  etrans; [|reflexivity].
  apply (fold_rest (R := term) body' (children nd) (value nd) item l ts "("
           (item (value tn)) HR' Hl).
  - rewrite E in Hnd. by apply NoDup_cons in Hnd as [_ ?].
  - intros x Hx. by apply (is_last_tail c l).
  - intros acc x t' Hx (tx & Ex & <- & _). unfold body'.
    rewrite Ex, (is_first_tail c l x E Hx).
    by rewrite !append_assoc.
Qed.

Lemma wos_single f c t :
  children nd = [c] → term c t →
  _print_query_wos (S f) h n = Ok (" " +:+ value nd +:+ " " +:+ t +:+ ")").
Proof.
  intros E (tn & Ec & <- & Eop & _). cbn [_print_query_wos]. rewrite Hn.
  cbn zeta.
  match goal with |- fold_children ?b _ _ = _ => set (body := b) end.
  rewrite E. cbn [fold_children]. unfold body. rewrite Ec, Eop.
  rewrite (is_first_only c E), (is_last_only c E).
  cbn [negb andb rbind]. by rewrite !append_assoc.
Qed.

Lemma pubmed_single f c t code :
  children nd = [c] → term c t → get_search_field_pubmed sf = Ok code →
  _print_query_pubmed (S f) h n
  = Ok (" " +:+ value nd +:+ " " +:+ t +:+ "[" +:+ code +:+ "]" +:+ ")").
Proof.
  intros E (tn & Ec & <- & Eop & Esf & _) Hcode. cbn [_print_query_pubmed].
  rewrite Hn. cbn zeta.
  match goal with |- fold_children ?b _ _ = _ => set (body := b) end.
  rewrite E. cbn [fold_children]. unfold body.
  rewrite Ec, Eop, Esf, Hcode.
  rewrite (is_first_only c E), (is_last_only c E).
  cbn [negb andb rbind]. by rewrite !append_assoc.
Qed.

Lemma ieee_single f c t :
  children nd = [c] → term c t →
  _print_query_ieee (S f) h n
  = Ok (" " +:+ value nd +:+ " " +:+ dquote +:+ sf +:+ dquote +:+ ":" +:+ t
          +:+ ")").
Proof.
  intros E (tn & Ec & <- & Eop & Esf & _). cbn [_print_query_ieee].
  rewrite Hn. cbn zeta.
  match goal with |- fold_enumerate ?b _ _ _ = _ => set (body := b) end.
  rewrite E. cbn [fold_enumerate]. unfold body.
  rewrite Ec, Eop, Esf.
  rewrite (is_first_only c E), (is_last_only c E).
  cbn [negb andb rbind]. by rewrite !append_assoc.
Qed.

End flat.

(** X13.  The vendor strings of a query over two or more search terms and no
    nested query.  WoS writes the field code once, then the terms joined by
    the operator, in one pair of parentheses; PubMed tags every term with
    the field code; IEEE prefixes every term with the quoted field name. *)
Theorem flat_query_vendor_strings F f op ts sf h q h' :
  Query_init F op ts [] sf h = (Ok q, h') → 2 ≤ length ts → 1 ≤ f →
  (∀ code, get_search_field_wos sf = Ok code →
     to_string f h' q "wos"
     = Ok (code +:+ "=(" +:+ String.concat (" " +:+ op +:+ " ") ts +:+ ")"))
  ∧ (∀ code, get_search_field_pubmed sf = Ok code →
     to_string f h' q "pubmed"
     = Ok ("(" +:+ String.concat (" " +:+ op +:+ " ")
                     ((λ t, t +:+ "[" +:+ code +:+ "]") <$> ts) +:+ ")"))
  ∧ to_string f h' q "ieee"
    = Ok ("(" +:+ String.concat (" " +:+ op +:+ " ")
                    ((λ t, dquote +:+ sf +:+ dquote +:+ ":" +:+ t) <$> ts)
            +:+ ")").
Proof.
  intros (Hq & nd & Hn & <- & Hc & HR)%flat_store Hlen Hf.
  destruct f as [|f]; [lia|].
  destruct ts as [|t [|t' ts]]; [simpl in Hlen; lia..|]. clear Hlen.
  assert (NoDup (children nd)) as Hnd by (rewrite Hc; apply NoDup_seq).
  cbn [length seq] in Hc, HR. unfold to_string. rewrite Hq. cbn [String.eqb Ascii.eqb Bool.eqb].
  split; [|split].
  - intros code Hcode. by eapply (wos_flat h' _ nd sf Hn Hnd).
  - intros code Hcode. by eapply (pubmed_flat h' _ nd sf Hn Hnd).
  - by eapply (ieee_flat h' _ nd sf Hn Hnd).
Qed.

Lemma flat_query_vendor_strings_witness :
  ∃ q h',
    Query_init 2 "OR" ["lung"; "breast"; "skin"] [] "Title" lung_store = (Ok q, h')
    ∧ to_string 1 h' q "wos" = Ok "TI=(lung OR breast OR skin)"
    ∧ to_string 1 h' q "pubmed" = Ok "(lung[ti] OR breast[ti] OR skin[ti])".
Proof.
  eexists _, _. split; [vm_compute; reflexivity|].
  destruct (flat_query_vendor_strings 2 1 "OR" ["lung"; "breast"; "skin"]
              "Title" lung_store _ _ eq_refl) as (Hw & Hp & _);
    [simpl; lia|lia|].
  split; [exact (Hw "TI" eq_refl)|exact (Hp "ti" eq_refl)].
Defined.

(** X14.  The vendor strings of a query over a single search term.  The only
    child is first and last at once and takes the branch written for the
    later children: the string starts with the operator and ends with a
    closing parenthesis that nothing opens; WoS looks no field up. *)
Theorem single_term_query_strings F f op t sf h q h' :
  Query_init F op [t] [] sf h = (Ok q, h') → 1 ≤ f →
  to_string f h' q "wos" = Ok (" " +:+ op +:+ " " +:+ t +:+ ")")
  ∧ (∀ code, get_search_field_pubmed sf = Ok code →
     to_string f h' q "pubmed"
     = Ok (" " +:+ op +:+ " " +:+ t +:+ "[" +:+ code +:+ "]" +:+ ")"))
  ∧ to_string f h' q "ieee"
    = Ok (" " +:+ op +:+ " " +:+ dquote +:+ sf +:+ dquote +:+ ":" +:+ t
            +:+ ")").
Proof.
  intros (Hq & nd & Hn & <- & Hc & HR)%flat_store Hf.
  destruct f as [|f]; [lia|].
  assert (NoDup (children nd)) as Hnd by (rewrite Hc; apply NoDup_seq).
  cbn [length seq] in Hc, HR. apply Forall2_cons_1 in HR as [Ht _].
  unfold to_string. rewrite Hq. cbn [String.eqb Ascii.eqb Bool.eqb].
  split; [|split].
  - by eapply (wos_single h' _ nd sf Hn).
  - intros code Hcode. by eapply (pubmed_single h' _ nd sf Hn).
  - by eapply (ieee_single h' _ nd sf Hn).
Qed.

Lemma single_term_query_strings_witness :
  ∃ q h',
    Query_init 2 "AND" ["covid"] [] "Foo" lung_store = (Ok q, h')
    ∧ to_string 1 h' q "wos" = Ok " AND covid)".
Proof.
  eexists _, _. split; [vm_compute; reflexivity|].
  destruct (single_term_query_strings 2 1 "AND" "covid" "Foo" lung_store _ _
              eq_refl) as (Hw & _); [lia|].
  exact Hw.
Defined.

(** A loop of walks that returns has visited pairwise different nodes. *)
Lemma validate_children_NoDup f cs : ∀ h h',
  for_each (_validate_tree_structure f) cs h = (Ok tt, h') → NoDup cs.
Proof.
  induction cs as [|c cs IH]; intros h h' H; [constructor|].
  simpl in H. apply bind_Ok_inv in H as ([] & h1 & H0 & H1).
  constructor; [|by eapply IH].
  intros Hc. apply (for_each_validate_Ok _ _ _ _ H1 c Hc).
  by eapply validate_marks_root.
Qed.

(** When the constructor returns, the children of the new root are pairwise
    different nodes. *)
Lemma constructed_children_NoDup F op ts ns sf h q h' :
  Query_init F op ts ns sf h = (Ok q, h') →
  NoDup (seq (S (length h)) (length ts)
           ++ ((λ q, root (query_tree q)) <$> ns)).
Proof.
  destruct (valid_operator op) eqn:Hop.
  2: { by rewrite Query_init_invalid. }
  rewrite Query_init_unfold by done.
  intros ([] & h1 & H1 & _)%bind_Ok_inv.
  destruct F as [|f]; [done|]. cbn [_validate_tree_structure] in H1.
  rewrite built_lookup_root in H1. cbn [marked children] in H1.
  by eapply validate_children_NoDup.
Qed.

Lemma fold_pre_notation f h cs : ∀ l ss pre,
  Forall2 (λ x s, _print_query_pre_notation f h x = Ok s) l ss →
  NoDup l →
  (∀ x, x ∈ l → is_last cs x = bool_decide (last l = Some x)) →
  fold_children (λ result child,
      let! s := _print_query_pre_notation f h child in
      let result := result +:+ s in
      Ok (if negb (is_last cs child) then result +:+ ", " else result))
    pre l
  = Ok (pre +:+ String.concat ", " ss).
Proof.
  induction l as [|x l IH]; intros ss pre HR Hnd Hlast.
  { apply Forall2_nil_inv_l in HR as ->. simpl. by rewrite append_nil_r. }
  apply Forall2_cons_inv_l in HR as (s & ss' & Hs & HR & ->).
  cbn [fold_children]. rewrite Hs. cbn [rbind]. rewrite Hlast by by left.
  destruct l as [|x' l].
  - apply Forall2_nil_inv_l in HR as ->.
    by rewrite bool_decide_true by done.
  - rewrite bool_decide_false by (by apply NoDup_last_head).
    cbn [negb rbind]. apply NoDup_cons in Hnd as [_ Hnd].
    rewrite (IH ss' _ HR Hnd).
    + destruct ss' as [|s' ss']; [by apply Forall2_nil_inv_r in HR|].
      rewrite concat_cons2. by rewrite !append_assoc.
    + intros y Hy. rewrite Hlast by by right. by rewrite last_cons_ne.
Qed.

(** X15.  The canonical notation is compositional.  When the constructor returns
    a query with at least one child, [to_string("pre_notation")] is the
    operator followed, in square brackets and separated by a comma and a
    space, by the search terms and then by the strings of the nested
    queries, in the order in which they were given. *)
Theorem pre_notation_compositional F f op ts ns sf h q h' ss :
  Query_init F op ts ns sf h = (Ok q, h') → 1 ≤ f → ts ++ ss ≠ [] →
  Forall2 (λ n s, to_string f h' n "pre_notation" = Ok s) ns ss →
  to_string (S f) h' q "pre_notation"
  = Ok (op +:+ "[" +:+ String.concat ", " (ts ++ ss) +:+ "]").
Proof.
  intros Hinit Hf Hne Hss.
  pose proof (constructed_children_NoDup _ _ _ _ _ _ _ _ Hinit) as Hnd.
  apply Query_init_shape in Hinit as [-> Hs].
  destruct (shape_children _ _ _ _ (eq_sym Hs)
              (built_lookup_root h op ts ns sf)) as (nd & Hn & Hc & Hv & _).
  cbn [children value] in Hc, Hv. rewrite <- Hc in Hnd.
  unfold to_string. cbn [String.eqb Ascii.eqb Bool.eqb query_tree root].
  rewrite _print_query_pre_notation_unfold, Hn.
  rewrite bool_decide_false.
  2: { rewrite Hc. intros Hnil. apply (f_equal length) in Hnil.
       rewrite length_app, length_seq, length_fmap in Hnil.
       apply Forall2_length in Hss. destruct ts, ss; simpl in *; try lia.
       done. }
  rewrite (fold_pre_notation f h' (children nd) (children nd) (ts ++ ss));
    [cbn [rbind]; by rewrite Hv, !append_assoc| |done|reflexivity].
  rewrite Hc. apply Forall2_app.
  - apply Forall2_same_length_lookup. split; [by rewrite length_seq|].
    intros i a t Ha Ht. apply lookup_seq in Ha as [-> _].
    destruct (shape_children _ _ _ _ (eq_sym Hs)
                (built_lookup_term h op ts ns sf i t Ht))
      as (tn & Et & Hct & Hvt & _).
    destruct f as [|f]; [lia|].
    rewrite _print_query_pre_notation_unfold, Et, Hct.
    rewrite bool_decide_true by done. by rewrite Hvt.
  - by apply Forall2_fmap_l.
Qed.

Lemma pre_notation_compositional_witness :
  ∃ q h',
    Query_init 3 "AND" ["cancer"; "tumor"] [lung_query] "Abstract" lung_store
    = (Ok q, h')
    ∧ to_string 2 h' lung_query "pre_notation" = Ok "OR[lung]"
    ∧ to_string 3 h' q "pre_notation" = Ok "AND[cancer, tumor, OR[lung]]".
Proof.
  eexists _, _. split; [vm_compute; reflexivity|].
  split; [vm_compute; reflexivity|].
  apply (pre_notation_compositional 3 2 "AND" ["cancer"; "tumor"] [lung_query]
           "Abstract" lung_store _ _ ["OR[lung]"]);
    [vm_compute; reflexivity|lia|done|].
  constructor; [vm_compute; reflexivity|constructor].
Defined.

(** ** The serializers do not read the marks *)

Lemma agree_fields h1 h2 a nd1 :
  shape h1 !! a = shape h2 !! a → h1 !! a = Some nd1 →
  ∃ b, h2 !! a = Some (set_marked b nd1).
Proof.
  rewrite !shape_lookup. intros H E. rewrite E in H.
  destruct (h2 !! a) as [nd2|]; [|done]. exists (marked nd2).
  destruct nd1, nd2. simpl in *. by simplify_eq.
Qed.

Lemma preorder_sub f h n l nd c :
  preorder (S f) h n = Some l → h !! n = Some nd → c ∈ children nd →
  n ∈ l ∧ ∃ lc cn, preorder f h c = Some lc ∧ h !! c = Some cn ∧ c ∈ l
                   ∧ ∀ a, a ∈ lc → a ∈ l.
Proof.
  intros H E Hc.
  destruct (preorder_children _ _ _ _ _ _ H E Hc) as [[lc Hlc] [cn Ecn]].
  simpl in H. rewrite E in H.
  destruct (mapM (preorder f h) (children nd)) as [ls|] eqn:Em; [|done].
  simplify_eq. split; [by left|]. exists lc, cn.
  apply mapM_Some in Em. apply list_elem_of_lookup in Hc as [i Hi].
  destruct (Forall2_lookup_l _ _ _ _ _ Em Hi) as (lc' & Hls & Hlc').
  assert (lc' = lc) as -> by congruence.
  assert (∀ a, a ∈ lc → a ∈ n :: mjoin ls) as Hsub.
  { intros a Ha. right. apply list_elem_of_join. exists lc.
    split; [done|]. by eapply list_elem_of_lookup_2. }
  split; [done|]. split; [done|]. split; [|done].
  apply Hsub. destruct f as [|f]; [done|]. simpl in Hlc. rewrite Ecn in Hlc.
  destruct (mapM _ _); [|done]. simplify_eq. by left.
Qed.

Lemma fold_children_ext {A} (b1 b2 : string → A → result string) l :
  (∀ acc x, x ∈ l → b1 acc x = b2 acc x) →
  ∀ acc, fold_children b1 acc l = fold_children b2 acc l.
Proof.
  induction l as [|x l IH]; intros H acc; [done|]. cbn [fold_children].
  rewrite H by by left. destruct (b2 acc x); [|done..]. cbn [rbind].
  apply IH. intros ???. apply H. by right.
Qed.

Lemma fold_enumerate_ext (b1 b2 : string → nat → addr → result string) l :
  ∀ k, (∀ acc i x, l !! i = Some x → b1 acc (k + i) x = b2 acc (k + i) x) →
  ∀ acc, fold_enumerate b1 acc k l = fold_enumerate b2 acc k l.
Proof.
  induction l as [|x l IH]; intros k H acc; [done|]. cbn [fold_enumerate].
  pose proof (H acc 0 x eq_refl) as H0. rewrite Nat.add_0_r in H0.
  rewrite H0. destruct (b2 acc k x); [|done..]. cbn [rbind].
  apply IH. intros acc' i y Hy. specialize (H acc' (S i) y Hy).
  by rewrite Nat.add_succ_r in H.
Qed.

Lemma preorder_root f h n l :
  preorder (S f) h n = Some l → ∃ nd, h !! n = Some nd ∧ n ∈ l.
Proof.
  simpl. destruct (h !! n) as [nd|]; [|done].
  destruct (mapM _ _); [|done]. intros [= <-]. exists nd. split; [done|by left].
Qed.

Section agree.
Context (h1 h2 : store).

Lemma pre_notation_agree f : ∀ n l,
  preorder f h1 n = Some l → (∀ a, a ∈ l → shape h1 !! a = shape h2 !! a) →
  _print_query_pre_notation f h2 n = _print_query_pre_notation f h1 n.
Proof.
  induction f as [|f IH]; intros n l Hp Hag; [done|].
  destruct (preorder_root _ _ _ _ Hp) as (nd & E & Hn).
  destruct (agree_fields _ _ _ _ (Hag n Hn) E) as [b E2].
  rewrite !_print_query_pre_notation_unfold, E, E2.
  cbn [set_marked children value]. case_bool_decide; [done|]. f_equal.
  apply fold_children_ext. intros acc x Hx.
  destruct (preorder_sub _ _ _ _ _ _ Hp E Hx) as (_ & lc & cn & Hlc & _ & _ & Hsub).
  rewrite (IH x lc); [done|done|]. intros a Ha. by apply Hag, Hsub.
Qed.

Lemma wos_agree f : ∀ n l,
  preorder f h1 n = Some l → (∀ a, a ∈ l → shape h1 !! a = shape h2 !! a) →
  _print_query_wos f h2 n = _print_query_wos f h1 n.
Proof.
  induction f as [|f IH]; intros n l Hp Hag; [done|].
  destruct (preorder_root _ _ _ _ Hp) as (nd & E & Hn).
  destruct (agree_fields _ _ _ _ (Hag n Hn) E) as [b E2].
  cbn [_print_query_wos]. rewrite E, E2. cbn zeta.
  cbn [set_marked children value].
  apply fold_children_ext. intros acc x Hx.
  destruct (preorder_sub _ _ _ _ _ _ Hp E Hx)
    as (_ & lc & cn & Hlc & Ex & Hxl & Hsub).
  destruct (agree_fields _ _ _ _ (Hag x Hxl) Ex) as [bx Ex2].
  rewrite Ex, Ex2. cbn [set_marked operator value search_field].
  rewrite (IH x lc); [done|done|]. intros a Ha. by apply Hag, Hsub.
Qed.

Lemma pubmed_agree f : ∀ n l,
  preorder f h1 n = Some l → (∀ a, a ∈ l → shape h1 !! a = shape h2 !! a) →
  _print_query_pubmed f h2 n = _print_query_pubmed f h1 n.
Proof.
  induction f as [|f IH]; intros n l Hp Hag; [done|].
  destruct (preorder_root _ _ _ _ Hp) as (nd & E & Hn).
  destruct (agree_fields _ _ _ _ (Hag n Hn) E) as [b E2].
  cbn [_print_query_pubmed]. rewrite E, E2. cbn zeta.
  cbn [set_marked children value].
  apply fold_children_ext. intros acc x Hx.
  destruct (preorder_sub _ _ _ _ _ _ Hp E Hx)
    as (_ & lc & cn & Hlc & Ex & Hxl & Hsub).
  destruct (agree_fields _ _ _ _ (Hag x Hxl) Ex) as [bx Ex2].
  rewrite Ex, Ex2. cbn [set_marked operator value search_field].
  rewrite (IH x lc); [done|done|]. intros a Ha. by apply Hag, Hsub.
Qed.

Lemma next_is_operator_agree f n l nd i :
  preorder (S f) h1 n = Some l → h1 !! n = Some nd →
  (∀ a, a ∈ l → shape h1 !! a = shape h2 !! a) →
  next_is_operator h2 (children nd) i = next_is_operator h1 (children nd) i.
Proof.
  intros Hp E Hag. unfold next_is_operator.
  destruct (children nd !! (i + 1)) as [a|] eqn:Ea; [|done].
  destruct (preorder_sub _ _ _ _ _ _ Hp E (list_elem_of_lookup_2 _ _ _ Ea))
    as (_ & lc & cn & _ & Ex & Hxl & _).
  destruct (agree_fields _ _ _ _ (Hag a Hxl) Ex) as [bx Ex2].
  by rewrite Ex, Ex2.
Qed.

Lemma ieee_agree f : ∀ n l,
  preorder f h1 n = Some l → (∀ a, a ∈ l → shape h1 !! a = shape h2 !! a) →
  _print_query_ieee f h2 n = _print_query_ieee f h1 n.
Proof.
  induction f as [|f IH]; intros n l Hp Hag; [done|].
  destruct (preorder_root _ _ _ _ Hp) as (nd & E & Hn).
  destruct (agree_fields _ _ _ _ (Hag n Hn) E) as [b E2].
  cbn [_print_query_ieee]. rewrite E, E2. cbn zeta.
  cbn [set_marked children value].
  apply fold_enumerate_ext. intros acc i x Hx%list_elem_of_lookup_2.
  destruct (preorder_sub _ _ _ _ _ _ Hp E Hx)
    as (_ & lc & cn & Hlc & Ex & Hxl & Hsub).
  destruct (agree_fields _ _ _ _ (Hag x Hxl) Ex) as [bx Ex2].
  rewrite Ex, Ex2. cbn [set_marked operator value search_field].
  rewrite (next_is_operator_agree f n l nd) by done.
  rewrite (IH x lc); [done|done|]. intros a Ha. by apply Hag, Hsub.
Qed.

End agree.

(** X16.  Constructing a query does not change what the queries that exist
    already serialize to: the construction adds nodes and sets and clears
    marks, and no serializer reads a mark. *)
Theorem serialization_frame F op ts ns sf h q h' f q0 l syntax :
  Query_init F op ts ns sf h = (Ok q, h') →
  preorder f h (root (query_tree q0)) = Some l →
  to_string f h' q0 syntax = to_string f h q0 syntax.
Proof.
  intros [_ Hs]%Query_init_shape Hp.
  assert (∀ a, a ∈ l → shape h !! a = shape h' !! a) as Hag.
  { intros a Ha%(preorder_bound _ _ _ _ _ Hp).
    rewrite Hs, !shape_lookup.
    destruct (lookup_lt_is_Some_2 h a Ha) as [nd E].
    by rewrite E, (built_lookup_old _ _ _ _ _ _ _ E). }
  unfold to_string.
  destruct (String.eqb syntax "pre_notation"); [by eapply pre_notation_agree|].
  destruct (String.eqb syntax "wos"); [by eapply wos_agree|].
  destruct (String.eqb syntax "pubmed"); [by eapply pubmed_agree|].
  destruct (String.eqb syntax "ieee"); [by eapply ieee_agree|].
  done.
Qed.

Lemma serialization_frame_witness :
  ∃ q h',
    Query_init 3 "AND" ["cancer"] [lung_query] "Abstract" lung_store = (Ok q, h')
    ∧ preorder 2 lung_store 0 = Some [0; 1]
    ∧ to_string 2 h' lung_query "wos" = to_string 2 lung_store lung_query "wos".
Proof.
  eexists _, _. split; [vm_compute; reflexivity|]. split; [reflexivity|].
  eapply (serialization_frame 3 "AND" ["cancer"] [lung_query] "Abstract"
            lung_store _ _ 2 lung_query [0; 1] "wos");
    [vm_compute; reflexivity|reflexivity].
Defined.

End SearchQueryFacts.

(** * Facts about the validators *)

Module ParserValidationFacts.
Import ParserValidation.

(** ** Spans and splices *)

Lemma ordered_spans_weaken n p p' spans :
  p' ≤ p → ordered_spans n p spans → ordered_spans n p' spans.
Proof. destruct spans as [|m l]; simpl; [done|]. intros ? (? & ? & ? & ?). repeat split; [lia|done..]. Qed.

Lemma span_of_before n p spans i :
  ordered_spans n p spans → i < p → span_of spans i = None.
Proof.
  revert p. induction spans as [|m l IH]; intros p Ho Hi; [done|].
  destruct Ho as (? & ? & ? & Ho). simpl.
  rewrite bool_decide_false by lia. apply (IH m.2); [done|lia].
Qed.

Lemma span_of_Some spans i m :
  span_of spans i = Some m → m ∈ spans ∧ m.1 ≤ i < m.2.
Proof.
  induction spans as [|m' l IH]; [done|]. simpl. case_bool_decide.
  - intros [= ->]. split; [by left|done].
  - intros [? ?]%IH. split; [by right|done].
Qed.

Lemma span_of_elem n p spans m i :
  ordered_spans n p spans → m ∈ spans → m.1 ≤ i < m.2 → span_of spans i = Some m.
Proof.
  revert p. induction spans as [|m' l IH]; intros p Ho Hm Hi.
  { by apply not_elem_of_nil in Hm. }
  destruct Ho as (? & ? & ? & Ho). simpl.
  apply elem_of_cons in Hm as [->|Hm]; [by rewrite bool_decide_true|].
  case_bool_decide as Hi'; [|by eapply IH].
  rewrite (span_of_before _ _ _ i Ho) in IH by lia.
  pose proof (IH _ Ho Hm Hi). done.
Qed.

Lemma splice_length q a b new :
  a ≤ b → b ≤ length q → length new = b - a → length (splice q a b new) = length q.
Proof.
  intros. unfold splice. rewrite !length_app, length_take, length_drop. lia.
Qed.

Lemma splice_lookup q a b new i :
  a ≤ b → b ≤ length q → length new = b - a →
  splice q a b new !! i
  = if bool_decide (a ≤ i < b) then new !! (i - a) else q !! i.
Proof.
  intros Hab Hb Hn. unfold splice.
  destruct (decide (i < a)) as [Hia|Hia].
  { rewrite bool_decide_false by lia.
    rewrite lookup_app_l by (rewrite length_take; lia).
    by rewrite lookup_take_lt. }
  rewrite lookup_app_r by (rewrite length_take; lia).
  rewrite length_take, Nat.min_l by lia.
  case_bool_decide as Hib.
  - by rewrite lookup_app_l by lia.
  - rewrite lookup_app_r by lia. rewrite lookup_drop. f_equal. lia.
Qed.

Section splice.
Context (cond : nat * nat → bool) (repl : nat * nat → pystr).

Lemma splice_step_eq q m :
  splice_step cond repl q m = if cond m then splice q m.1 m.2 (repl m) else q.
Proof. reflexivity. Qed.

Lemma foldl_splice n spans : ∀ p q,
  ordered_spans n p spans → length q = n →
  (∀ m, m ∈ spans → cond m = true → length (repl m) = m.2 - m.1) →
  length (foldl (splice_step cond repl) q spans) = n
  ∧ ∀ i, foldl (splice_step cond repl) q spans !! i
         = spliced_at cond repl spans q i.
Proof.
  induction spans as [|m l IH]; intros p q Ho Hq Hr; [done|].
  destruct Ho as (Hp & Hm & Hn & Ho). simpl.
  assert (length (splice_step cond repl q m) = n
          ∧ ∀ i, splice_step cond repl q m !! i
                 = if bool_decide (m.1 ≤ i < m.2) && cond m
                   then repl m !! (i - m.1) else q !! i) as [Hq1 Hl1].
  { unfold splice_step. destruct (cond m) eqn:Ec.
    - specialize (Hr m (list_elem_of_here _ _) Ec). split.
      + rewrite splice_length; [done|lia..].
      + intros i. rewrite splice_lookup by lia. by rewrite andb_true_r.
    - split; [done|]. intros i. by rewrite andb_false_r. }
  destruct (IH m.2 (splice_step cond repl q m) Ho Hq1) as [Hlen Hlook].
  { intros m' Hm'. apply Hr. by right. }
  split; [done|]. intros i. rewrite Hlook. unfold spliced_at. simpl.
  case_bool_decide as Hi.
  - rewrite (span_of_before _ _ _ i Ho) by lia. rewrite Hl1.
    rewrite bool_decide_true by done. simpl. by destruct (cond m).
  - destruct (span_of l i) as [m'|] eqn:Es.
    + destruct (cond m'); [done|]. rewrite Hl1.
      by rewrite bool_decide_false by done.
    + rewrite Hl1. by rewrite bool_decide_false by done.
Qed.

End splice.

(** *** [finditer] *)

Section finditer.
Context (m : option N → pystr → option nat).
Hypothesis m_length : ∀ prev rest len, m prev rest = Some len → 1 ≤ len ≤ length rest.

Lemma finditer_from_ordered rest : ∀ skip pos prev,
  ordered_spans (pos + length rest) (pos + skip)
    (finditer_from m skip pos prev rest).
Proof.
  induction rest as [|c rest IH]; intros skip pos prev; [done|].
  simpl. destruct skip as [|k].
  - destruct (m prev (c :: rest)) as [len|] eqn:Em.
    + apply m_length in Em. simpl in Em. simpl. repeat split; [lia..|].
      specialize (IH (len - 1) (S pos) (Some c)).
      replace (S pos + length rest) with (pos + S (length rest)) in IH by lia.
      by replace (S pos + (len - 1)) with (pos + len) in IH by lia.
    + specialize (IH 0 (S pos) (Some c)).
      replace (S pos + length rest) with (pos + S (length rest)) in IH by lia.
      eapply ordered_spans_weaken; [|done]. lia.
  - specialize (IH k (S pos) (Some c)).
    replace (S pos + length rest) with (pos + S (length rest)) in IH by lia.
    by replace (S pos + k) with (pos + S k) in IH by lia.
Qed.

Lemma finditer_ordered s : ordered_spans (length s) 0 (finditer m s).
Proof. apply (finditer_from_ordered s 0 0 None). Qed.

Lemma finditer_from_matches rest : ∀ pre skip sp,
  sp ∈ finditer_from m skip (length pre) (last pre) rest →
  m (prev_at (pre ++ rest) sp.1) (drop sp.1 (pre ++ rest)) = Some (sp.2 - sp.1).
Proof.
  induction rest as [|c rest IH]; intros pre skip sp Hsp.
  { by apply not_elem_of_nil in Hsp. }
  assert (∀ k, sp ∈ finditer_from m k (S (length pre)) (Some c) rest →
            m (prev_at (pre ++ c :: rest) sp.1) (drop sp.1 (pre ++ c :: rest))
            = Some (sp.2 - sp.1)) as Hrec.
  { intros k Hk. specialize (IH (pre ++ [c]) k sp).
    rewrite length_app, last_snoc, <- (assoc_L (++)) in IH. simpl in IH.
    rewrite Nat.add_1_r in IH. by apply IH. }
  simpl in Hsp. destruct skip as [|k]; [|by eapply Hrec].
  destruct (m (last pre) (c :: rest)) as [len|] eqn:Em; [|by eapply Hrec].
  apply elem_of_cons in Hsp as [->|Hsp]; [|by eapply Hrec].
  simpl. unfold prev_at. rewrite take_app_length, drop_app_length.
  rewrite Em. f_equal. lia.
Qed.

Lemma finditer_matches s sp :
  sp ∈ finditer m s →
  m (prev_at s sp.1) (drop sp.1 s) = Some (sp.2 - sp.1).
Proof. apply (finditer_from_matches s [] 0 sp). Qed.

End finditer.

Lemma finditer_from_rel (R : N → N → Prop) (m : option N → pystr → option nat) :
  (∀ prev prev' rest rest',
     option_Forall2 R prev prev' → Forall2 R rest rest' →
     m prev rest = m prev' rest') →
  ∀ rest rest' skip pos prev prev',
    Forall2 R rest rest' → option_Forall2 R prev prev' →
    finditer_from m skip pos prev rest = finditer_from m skip pos prev' rest'.
Proof.
  intros Hm rest rest' skip pos prev prev' HR. revert skip pos prev prev'.
  induction HR as [|c c' rest rest' Hc HR IH]; intros skip pos prev prev' Hp;
    [done|].
  simpl. assert (option_Forall2 R (Some c) (Some c')) as Hcc by by constructor.
  destruct skip as [|k]; [|by apply IH].
  rewrite (Hm prev prev' (c :: rest) (c' :: rest')) by (done || by constructor).
  destruct (m prev' (c' :: rest')); [f_equal|]; by apply IH.
Qed.

Ltac N_decide :=
  repeat match goal with
  | |- context [(?a <=? ?b)%N] =>
      first [ rewrite (proj2 (N.leb_le a b)) by lia
            | rewrite (proj2 (N.leb_gt a b)) by lia ]
  | |- context [(?a <? ?b)%N] =>
      first [ rewrite (proj2 (N.ltb_lt a b)) by lia
            | rewrite (proj2 (N.ltb_ge a b)) by lia ]
  | |- context [(?a =? ?b)%N] =>
      first [ rewrite (proj2 (N.eqb_eq a b)) by lia
            | rewrite (proj2 (N.eqb_neq a b)) by lia ]
  end.

Lemma between_spec lo hi c : between lo hi c = true ↔ (lo ≤ c ≤ hi)%N.
Proof. unfold between. rewrite andb_true_iff, !N.leb_le. done. Qed.

Lemma case_closed_pair l :
  between 97 122 l = true → case_closed [l; (l - 32)%N].
Proof.
  intros Hl%between_spec c. unfold in_class, upper_char. simpl.
  destruct (between 97 122 c) eqn:E; [|done]. apply between_spec in E.
  destruct (N.eqb_spec c l) as [->|Hne]; by N_decide.
Qed.

Lemma in_class_cased cls c c' :
  case_closed cls → cased c c' → in_class c' cls = in_class c cls.
Proof. intros Hcls [->| ->]; [done|apply Hcls]. Qed.

Section chars.
Context `{U : Unicode}.

Lemma is_word_upper_char c : is_word (upper_char c) = is_word c.
Proof.
  unfold upper_char. destruct (between 97 122 c) eqn:E; [|done].
  apply between_spec in E. unfold is_word, between. by N_decide.
Qed.

Lemma is_word_cased c c' : cased c c' → is_word c' = is_word c.
Proof. intros [->| ->]; [done|apply is_word_upper_char]. Qed.

Lemma at_boundary_cased p p' n n' :
  option_Forall2 cased p p' → option_Forall2 cased n n' →
  at_boundary p n = at_boundary p' n'.
Proof.
  unfold at_boundary. intros [c c' Hc|] [d d' Hd|]; simpl;
    by rewrite ?(is_word_cased _ _ Hc), ?(is_word_cased _ _ Hd).
Qed.

Lemma Forall2_last_option {A B} (R : A → B → Prop) l k :
  Forall2 R l k → option_Forall2 R (last l) (last k).
Proof.
  induction 1 as [|x y l k Hxy Hlk IH]; [constructor|].
  destruct Hlk; simpl in *; [by constructor|done].
Qed.

Lemma Forall2_lookup_option {A B} (R : A → B → Prop) l k i :
  Forall2 R l k → option_Forall2 R (l !! i) (k !! i).
Proof. intros H. apply Forall2_lookup. done. Qed.

Lemma Forall2_head_option {A B} (R : A → B → Prop) l k :
  Forall2 R l k → option_Forall2 R (head l) (head k).
Proof. destruct 1; by constructor. Qed.

Lemma forallb_zip_cased (classes : list pystr) l l' :
  Forall case_closed classes → Forall2 cased l l' →
  forallb (λ p, in_class p.1 p.2) (zip l classes)
  = forallb (λ p, in_class p.1 p.2) (zip l' classes).
Proof.
  intros Hcls HR. revert classes Hcls.
  induction HR as [|c c' l l' Hc HR IH]; intros classes Hcls; [done|].
  destruct Hcls as [|cls classes Hcl Hcls]; [done|]. simpl.
  by rewrite (in_class_cased _ _ _ Hcl Hc), IH.
Qed.

Lemma match_alternative_cased classes rest rest' :
  Forall case_closed classes → Forall2 cased rest rest' →
  match_alternative classes rest = match_alternative classes rest'.
Proof.
  intros Hcls HR. unfold match_alternative.
  rewrite (Forall2_length _ _ _ HR).
  rewrite (forallb_zip_cased classes (take (length classes) rest)
             (take (length classes) rest')) by (done || by apply Forall2_take).
  rewrite (at_boundary_cased (last (take (length classes) rest))
             (last (take (length classes) rest'))
             (rest !! length classes) (rest' !! length classes)); [done| |].
  - by apply Forall2_last_option, Forall2_take.
  - by apply Forall2_lookup_option.
Qed.

Lemma case_closed_aA : case_closed (str "aA").
Proof. apply (case_closed_pair 97). done. Qed.
Lemma case_closed_nN : case_closed (str "nN").
Proof. apply (case_closed_pair 110). done. Qed.
Lemma case_closed_dD : case_closed (str "dD").
Proof. apply (case_closed_pair 100). done. Qed.
Lemma case_closed_oO : case_closed (str "oO").
Proof. apply (case_closed_pair 111). done. Qed.
Lemma case_closed_rR : case_closed (str "rR").
Proof. apply (case_closed_pair 114). done. Qed.
Lemma case_closed_tT : case_closed (str "tT").
Proof. apply (case_closed_pair 116). done. Qed.

Lemma match_FAULTY_OPERATOR_cased prev prev' rest rest' :
  option_Forall2 cased prev prev' → Forall2 cased rest rest' →
  match_FAULTY_OPERATOR prev rest = match_FAULTY_OPERATOR prev' rest'.
Proof.
  intros Hp HR. unfold match_FAULTY_OPERATOR.
  rewrite (at_boundary_cased prev prev' (head rest) (head rest'))
    by (done || by apply Forall2_head_option).
  rewrite !(match_alternative_cased _ rest rest'); [done|..]; try done;
    repeat constructor;
    auto using case_closed_aA, case_closed_nN, case_closed_dD,
      case_closed_oO, case_closed_rR, case_closed_tT.
Qed.

End chars.

Lemma in_class_pair c l u : in_class c [l; u] = true → c = l ∨ c = u.
Proof.
  unfold in_class. simpl. rewrite orb_false_r, orb_true_iff, !N.eqb_eq. done.
Qed.

Lemma slice_lookup (q : pystr) a b j :
  slice q a b !! j = if bool_decide (j < b - a) then q !! (a + j) else None.
Proof.
  unfold slice. case_bool_decide.
  - by rewrite lookup_take_lt, lookup_drop.
  - by rewrite lookup_take_ge by lia.
Qed.

Section check_operator.
Context `{U : Unicode}.

Lemma match_alternative_Some classes rest n :
  match_alternative classes rest = Some n →
  n = length classes ∧ n ≤ length rest
  ∧ forallb (λ p, in_class p.1 p.2) (zip (take n rest) classes) = true.
Proof.
  unfold match_alternative. case_match eqn:E; [|done]. intros [= <-].
  apply andb_true_iff in E as [[Hn Hf]%andb_true_iff _].
  by apply bool_decide_eq_true_1 in Hn.
Qed.

Lemma match_FAULTY_OPERATOR_text prev rest len :
  match_FAULTY_OPERATOR prev rest = Some len →
  1 ≤ len ≤ length rest
  ∧ upper (take len rest) ∈ operators
  ∧ upper (take len rest) = upper_char <$> take len rest.
Proof.
  unfold match_FAULTY_OPERATOR. destruct (at_boundary prev (head rest)); [|done].
  destruct (match_alternative [str "aA"; str "nN"; str "dD"] rest) as [n|] eqn:E1.
  { intros [= <-]. apply match_alternative_Some in E1 as (-> & Hlen & Hf).
    destruct rest as [|c1 [|c2 [|c3 rest]]]; simpl in Hlen; try lia.
    simpl in Hf. rewrite !andb_true_iff in Hf. destruct Hf as (H1 & H2 & H3 & _).
    apply (in_class_pair _ 97 65)%N in H1. apply (in_class_pair _ 110 78)%N in H2.
    apply (in_class_pair _ 100 68)%N in H3.
    split; [simpl; lia|].
    destruct H1 as [-> | ->], H2 as [-> | ->], H3 as [-> | ->];
      (split; [by left|reflexivity]). }
  destruct (match_alternative [str "oO"; str "rR"] rest) as [n|] eqn:E2.
  { intros [= <-]. apply match_alternative_Some in E2 as (-> & Hlen & Hf).
    destruct rest as [|c1 [|c2 rest]]; simpl in Hlen; try lia.
    simpl in Hf. rewrite !andb_true_iff in Hf. destruct Hf as (H1 & H2 & _).
    apply (in_class_pair _ 111 79)%N in H1. apply (in_class_pair _ 114 82)%N in H2.
    split; [simpl; lia|].
    destruct H1 as [-> | ->], H2 as [-> | ->];
      (split; [right; by left|reflexivity]). }
  intros E3. apply match_alternative_Some in E3 as (-> & Hlen & Hf).
  destruct rest as [|c1 [|c2 [|c3 rest]]]; simpl in Hlen; try lia.
  simpl in Hf. rewrite !andb_true_iff in Hf. destruct Hf as (H1 & H2 & H3 & _).
  apply (in_class_pair _ 110 78)%N in H1. apply (in_class_pair _ 111 79)%N in H2.
  apply (in_class_pair _ 116 84)%N in H3.
  split; [simpl; lia|].
  destruct H1 as [-> | ->], H2 as [-> | ->], H3 as [-> | ->];
    (split; [right; right; by left|reflexivity]).
Qed.

Lemma match_FAULTY_OPERATOR_length prev rest len :
  match_FAULTY_OPERATOR prev rest = Some len → 1 ≤ len ≤ length rest.
Proof. by intros (? & _)%match_FAULTY_OPERATOR_text. Qed.

(** What is known of a span that [finditer] reports. *)
Lemma faulty_span s m :
  m ∈ finditer match_FAULTY_OPERATOR s →
  m.1 < m.2 ∧ m.2 ≤ length s
  ∧ capitalized s m ∈ operators
  ∧ capitalized s m = upper_char <$> slice s m.1 m.2
  ∧ length (capitalized s m) = m.2 - m.1.
Proof.
  intros Hm. pose proof (finditer_matches _ _ _ Hm) as Hmatch.
  apply match_FAULTY_OPERATOR_text in Hmatch as (Hlen & Hop & Hup).
  rewrite length_drop in Hlen. unfold capitalized, slice.
  split; [lia|]. split; [lia|]. split; [done|]. split; [done|].
  rewrite Hup, length_fmap, length_take, length_drop. lia.
Qed.

Lemma check_operator_step_eq s v m :
  check_operator_step s v m
  = if faulty s m
    then mkValidator (splice (query_str v) m.1 m.2 (capitalized s m))
           (search_field_general v)
           (linter_messages v ++ [capitalized_warning (slice s m.1 m.2) m.1 m.2])
    else v.
Proof. reflexivity. Qed.

Lemma check_operator_foldl s spans : ∀ v0,
  foldl (check_operator_step s) v0 spans
  = mkValidator
      (foldl (splice_step (faulty s) (capitalized s)) (query_str v0) spans)
      (search_field_general v0)
      (linter_messages v0
         ++ ((λ m, capitalized_warning (slice s m.1 m.2) m.1 m.2)
               <$> filter (λ m, faulty s m = true) spans)).
Proof.
  induction spans as [|m spans IH]; intros v0; cbn [foldl].
  { rewrite filter_nil. simpl. rewrite app_nil_r. by destruct v0. }
  rewrite IH, check_operator_step_eq, splice_step_eq.
  destruct (faulty s m) eqn:Ef; simpl.
  - rewrite filter_cons_True by done. simpl. by rewrite <- (assoc_L (++)).
  - by rewrite filter_cons_False by (rewrite Ef; done).
Qed.

Lemma check_operator_unfold v :
  check_operator v
  = mkValidator
      (foldl (splice_step (faulty (query_str v)) (capitalized (query_str v)))
         (query_str v) (finditer match_FAULTY_OPERATOR (query_str v)))
      (search_field_general v)
      ((λ m, capitalized_warning (slice (query_str v) m.1 m.2) m.1 m.2)
         <$> filter (λ m, faulty (query_str v) m = true)
               (finditer match_FAULTY_OPERATOR (query_str v))).
Proof. unfold check_operator. by rewrite check_operator_foldl. Qed.

Lemma check_operator_length v :
  length (query_str (check_operator v)) = length (query_str v).
Proof.
  rewrite check_operator_unfold. simpl.
  eapply foldl_splice; [|done|].
  - apply finditer_ordered, @match_FAULTY_OPERATOR_length.
  - intros m Hm _. by apply faulty_span.
Qed.

Lemma check_operator_lookup v i :
  query_str (check_operator v) !! i
  = match span_of (finditer match_FAULTY_OPERATOR (query_str v)) i with
    | Some _ => upper_char <$> query_str v !! i
    | None => query_str v !! i
    end.
Proof.
  rewrite check_operator_unfold. simpl. set (s := query_str v).
  destruct (foldl_splice (faulty s) (capitalized s) (length s)
              (finditer match_FAULTY_OPERATOR s) 0 s) as [_ ->]; [|done| |].
  { apply finditer_ordered, @match_FAULTY_OPERATOR_length. }
  { intros m Hm _. by apply faulty_span. }
  unfold spliced_at. destruct (span_of _ i) as [m|] eqn:Es; [|done].
  apply span_of_Some in Es as [Hm Hi].
  destruct (faulty_span s m Hm) as (_ & _ & _ & Hup & _).
  assert ((upper_char <$> slice s m.1 m.2) !! (i - m.1)
          = upper_char <$> s !! i) as Hlook.
  { rewrite list_lookup_fmap, slice_lookup, bool_decide_true by lia.
    do 2 f_equal. lia. }
  destruct (faulty s m) eqn:Ef.
  - by rewrite Hup.
  - unfold faulty in Ef. apply bool_decide_eq_false_1 in Ef.
    apply dec_stable in Ef. fold (capitalized s m) in Ef.
    rewrite <- Hlook, <- Hup, <- Ef, slice_lookup, bool_decide_true by lia.
    f_equal. lia.
Qed.

End check_operator.

Lemma foldl_splice_none cond repl spans : ∀ q,
  (∀ m, m ∈ spans → cond m = false) →
  foldl (splice_step cond repl) q spans = q.
Proof.
  induction spans as [|m spans IH]; intros q H; [done|]. cbn [foldl].
  rewrite splice_step_eq, H by left. apply IH. intros m' Hm'. apply H. by right.
Qed.

Lemma filter_none {A} (P : A → Prop) `{∀ x, Decision (P x)} (l : list A) :
  (∀ x, x ∈ l → ¬ P x) → filter P l = [].
Proof.
  induction l as [|x l IH]; intros Hl; [done|].
  rewrite filter_cons_False by (apply Hl; by left).
  apply IH. intros y Hy. apply Hl. by right.
Qed.

Section check_operator_claims.
Context `{U : Unicode}.

Lemma unfaulty_lookup s m i :
  m ∈ finditer match_FAULTY_OPERATOR s → faulty s m = false →
  m.1 ≤ i < m.2 → upper_char <$> s !! i = s !! i.
Proof.
  intros Hm Ef Hi. destruct (faulty_span s m Hm) as (_ & _ & _ & Hup & _).
  unfold faulty in Ef. apply bool_decide_eq_false_1, dec_stable in Ef.
  fold (capitalized s m) in Ef. rewrite Hup in Ef.
  assert (slice s m.1 m.2 !! (i - m.1)
          = (upper_char <$> slice s m.1 m.2) !! (i - m.1)) as H by by rewrite <- Ef.
  rewrite list_lookup_fmap, slice_lookup, bool_decide_true in H by lia.
  replace (m.1 + (i - m.1)) with i in H by lia. done.
Qed.

Lemma check_operator_slice v m :
  m ∈ finditer match_FAULTY_OPERATOR (query_str v) →
  slice (query_str (check_operator v)) m.1 m.2 = capitalized (query_str v) m.
Proof.
  intros Hm. destruct (faulty_span _ m Hm) as (? & ? & _ & -> & _).
  apply list_eq. intros j.
  rewrite list_lookup_fmap, !slice_lookup. case_bool_decide; [|done].
  rewrite check_operator_lookup.
  erewrite span_of_elem; [done| |done|lia].
  apply finditer_ordered, @match_FAULTY_OPERATOR_length.
Qed.

Lemma check_operator_cased v :
  Forall2 cased (query_str v) (query_str (check_operator v)).
Proof.
  apply Forall2_same_length_lookup. split; [by rewrite check_operator_length|].
  intros i c c' Hc. rewrite check_operator_lookup, Hc.
  destruct (span_of _ i); intros [= <-]; [by right|by left].
Qed.

Lemma check_operator_same_matches v :
  finditer match_FAULTY_OPERATOR (query_str (check_operator v))
  = finditer match_FAULTY_OPERATOR (query_str v).
Proof.
  symmetry. apply (finditer_from_rel cased).
  - intros. by apply match_FAULTY_OPERATOR_cased.
  - apply check_operator_cased.
  - constructor.
Qed.

Lemma operators_upper x : x ∈ operators → upper x = x.
Proof.
  unfold operators. rewrite !elem_of_cons, elem_of_nil.
  intros [->|[->|[->|[]]]]; reflexivity.
Qed.

(** C7.  [check_operator] on the query string [cancer and lung] stores
    [cancer AND lung] and leaves exactly one message, a Warning whose
    position is the span (7, 10); that span holds the lower-case [and] of
    the original string. *)
Theorem C7_check_operator_example sfg msgs :
  check_operator (mkValidator (str "cancer and lung") sfg msgs)
  = mkValidator (str "cancer AND lung") sfg
      [mkMessage "Warning" (str "Operator 'and' automatically capitalized")
         (Span 7 10)]
  ∧ slice (str "cancer and lung") 7 10 = str "and".
Proof. split; vm_compute; reflexivity. Qed.

(** C9.  For every query string, a second run of [check_operator] after a
    first one leaves no message and the query string as the first run left
    it. *)
Theorem C9_check_operator_idempotent v :
  check_operator (check_operator v)
  = mkValidator (query_str (check_operator v)) (search_field_general v) [].
Proof.
  rewrite (check_operator_unfold (check_operator v)).
  rewrite check_operator_same_matches.
  assert (∀ m, m ∈ finditer match_FAULTY_OPERATOR (query_str v) →
            faulty (query_str (check_operator v)) m = false) as Hnone.
  { intros m Hm. unfold faulty. apply bool_decide_eq_false_2. intros Hne.
    apply Hne. rewrite check_operator_slice by done. symmetry.
    apply operators_upper. by apply faulty_span. }
  rewrite foldl_splice_none by done. f_equal.
  - by rewrite check_operator_unfold.
  - rewrite filter_none; [done|]. intros m Hm. by rewrite Hnone.
Qed.

(** C10.  For every query string, [check_operator] keeps the length of the
    query string, changes no character outside the spans of its warnings,
    keeps [search_field_general], and every warning's span holds, in the
    rewritten string, the upper-case form of the operator it held before,
    one of AND, OR and NOT. *)
Theorem C10_check_operator_frame v :
  length (query_str (check_operator v)) = length (query_str v)
  ∧ (∀ i, (∀ w a b, w ∈ linter_messages (check_operator v) →
                    pos w = Span a b → ¬ (a ≤ i < b)) →
          query_str (check_operator v) !! i = query_str v !! i)
  ∧ search_field_general (check_operator v) = search_field_general v
  ∧ (∀ w, w ∈ linter_messages (check_operator v) →
       ∃ a b,
         w = capitalized_warning (slice (query_str v) a b) a b
         ∧ a < b ≤ length (query_str v)
         ∧ slice (query_str (check_operator v)) a b
           = upper (slice (query_str v) a b)
         ∧ slice (query_str (check_operator v)) a b ∈ operators).
Proof.
  split; [apply check_operator_length|]. split; [|split].
  - intros i Hi. rewrite check_operator_lookup.
    destruct (span_of _ i) as [m|] eqn:Es; [|done].
    apply span_of_Some in Es as [Hm Hin].
    destruct (faulty (query_str v) m) eqn:Ef; [|by eapply unfaulty_lookup].
    destruct (Hi (capitalized_warning (slice (query_str v) m.1 m.2) m.1 m.2)
                m.1 m.2); [|done|done].
    rewrite check_operator_unfold. simpl.
    apply list_elem_of_fmap. exists m. split; [done|].
    by apply list_elem_of_filter.
  - by rewrite check_operator_unfold.
  - intros w Hw. rewrite check_operator_unfold in Hw. simpl in Hw.
    apply list_elem_of_fmap in Hw as (m & -> & [_ Hm]%list_elem_of_filter).
    exists m.1, m.2. split; [done|].
    destruct (faulty_span _ m Hm) as (? & ? & Hop & _ & _).
    split; [lia|]. rewrite check_operator_slice by done. done.
Qed.

End check_operator_claims.

Section unsupported.
Context `{U : Unicode}.

Lemma is_upper_word a : is_upper_AZ a = true → is_word a = true.
Proof.
  unfold is_upper_AZ. intros H%between_spec. unfold is_word, between.
  by N_decide.
Qed.

Lemma is_upper_not_digit a : is_upper_AZ a = true → is_digit a = false.
Proof.
  unfold is_upper_AZ. intros H%between_spec. unfold is_digit, between.
  by N_decide.
Qed.

Lemma is_upper_not_space a : is_upper_AZ a = true → is_space a = false.
Proof.
  unfold is_upper_AZ. intros H%between_spec. unfold is_space, between.
  by N_decide.
Qed.

Lemma no_boundary_inside a b :
  is_upper_AZ a = true → is_upper_AZ b = true →
  at_boundary (Some a) (Some b) = false.
Proof.
  intros Ha%is_upper_word Hb%is_upper_word. unfold at_boundary. simpl.
  by rewrite Ha, Hb.
Qed.

Lemma match_unsupported_spec prev rest :
  match_UNSUPPORTED_SEARCH_FIELD prev rest
  = match rest with
    | a :: b :: rest' =>
        if is_upper_AZ a && is_upper_AZ b
           && at_boundary prev (Some a) && at_boundary (Some b) (head rest')
           && negb ((a =? 79)%N && (b =? 82)%N)
        then Some 2 else None
    | _ => None
    end.
Proof.
  unfold match_UNSUPPORTED_SEARCH_FIELD.
  destruct rest as [|a [|b rest']]; [by case_match..|].
  unfold lookahead_OR, lookahead_S_digits. cbn [head digits_then_boundary].
  destruct (is_upper_AZ b) eqn:Eb.
  - rewrite (is_upper_not_digit b Eb). simpl.
    destruct (at_boundary prev (Some a)), (at_boundary (Some b) (head rest')),
      (is_upper_AZ a), (a =? 79)%N, (b =? 82)%N, (a =? 83)%N; done.
  - rewrite !andb_false_r. simpl. by case_match.
Qed.

Lemma match_unsupported_length prev rest len :
  match_UNSUPPORTED_SEARCH_FIELD prev rest = Some len → 1 ≤ len ≤ length rest.
Proof.
  rewrite match_unsupported_spec. destruct rest as [|a [|b rest']]; try done.
  case_match; [|done]. intros [= <-]. simpl. lia.
Qed.

Lemma match_unsupported_Some prev rest len :
  match_UNSUPPORTED_SEARCH_FIELD prev rest = Some len →
  len = 2 ∧ ∃ a b rest', rest = a :: b :: rest'
    ∧ is_upper_AZ a = true ∧ is_upper_AZ b = true
    ∧ at_boundary prev (Some a) = true
    ∧ at_boundary (Some b) (head rest') = true
    ∧ ((a =? 79)%N && (b =? 82)%N) = false.
Proof.
  rewrite match_unsupported_spec. destruct rest as [|a [|b rest']]; try done.
  case_match eqn:E; [|done]. intros [= <-]. split; [done|].
  exists a, b, rest'. rewrite !andb_true_iff, negb_true_iff in E.
  destruct E as ((((? & ?) & ?) & ?) & ?). done.
Qed.

Lemma match_unsupported_next prev a rest :
  is_Some (match_UNSUPPORTED_SEARCH_FIELD prev (a :: rest)) →
  match_UNSUPPORTED_SEARCH_FIELD (Some a) rest = None.
Proof.
  intros [len (_ & a' & b & rest' & [= <- ->] & Ha & Hb & _)%match_unsupported_Some].
  rewrite match_unsupported_spec. destruct rest' as [|c rest']; [done|].
  by rewrite (no_boundary_inside a b Ha Hb), !andb_false_r.
Qed.

(** The scan loses no match by resuming after the end of a match. *)
Lemma finditer_from_all n : ∀ rest pos prev,
  length rest ≤ n →
  finditer_from match_UNSUPPORTED_SEARCH_FIELD 0 pos prev rest
  = all_matches_from match_UNSUPPORTED_SEARCH_FIELD pos prev rest.
Proof.
  induction n as [|n IH]; intros rest pos prev Hn.
  { destruct rest; [done|simpl in Hn; lia]. }
  destruct rest as [|c rest]; [done|]. simpl in *.
  destruct (match_UNSUPPORTED_SEARCH_FIELD prev (c :: rest)) as [len|] eqn:Em;
    [|apply IH; lia].
  pose proof (match_unsupported_next prev c rest (mk_is_Some _ _ Em)) as Hnext.
  apply match_unsupported_Some in Em as (-> & a & b & rest' & [= <- ->] & _).
  f_equal. simpl. rewrite Hnext. apply IH. simpl in Hn. lia.
Qed.

Lemma all_matches_from_index rest : ∀ pre,
  all_matches_from match_UNSUPPORTED_SEARCH_FIELD (length pre) (last pre) rest
  = (λ i, (i, i + 2))
      <$> filter (λ i, field_match (pre ++ rest) i = true)
            (seq (length pre) (length rest)).
Proof.
  induction rest as [|c rest IH]; intros pre; [done|].
  cbn [all_matches_from length seq].
  specialize (IH (pre ++ [c])).
  rewrite length_app, last_snoc, <- (assoc_L (++)) in IH. simpl in IH.
  rewrite Nat.add_1_r in IH. rewrite IH.
  assert (match_UNSUPPORTED_SEARCH_FIELD (prev_at (pre ++ c :: rest) (length pre))
            (drop (length pre) (pre ++ c :: rest))
          = match_UNSUPPORTED_SEARCH_FIELD (last pre) (c :: rest)) as Hm.
  { unfold prev_at. by rewrite take_app_length, drop_app_length. }
  destruct (match_UNSUPPORTED_SEARCH_FIELD (last pre) (c :: rest)) as [len|] eqn:Em.
  - rewrite filter_cons_True.
    2: { unfold field_match. apply bool_decide_eq_true_2. rewrite Hm. eauto. }
    apply match_unsupported_Some in Em as [-> _]. done.
  - rewrite filter_cons_False; [done|].
    unfold field_match. rewrite bool_decide_eq_true, Hm. by intros [? ?].
Qed.

Lemma finditer_unsupported s :
  finditer match_UNSUPPORTED_SEARCH_FIELD s
  = (λ i, (i, i + 2))
      <$> filter (λ i, field_match s i = true) (seq 0 (length s)).
Proof.
  unfold finditer. rewrite (finditer_from_all (length s)) by done.
  apply (all_matches_from_index s []).
Qed.

End unsupported.

Lemma prev_at_S (s : pystr) i : i < length s → prev_at s (S i) = s !! i.
Proof.
  intros Hi. unfold prev_at. rewrite last_lookup, length_take, Nat.min_l by lia.
  simpl. by rewrite lookup_take_lt by lia.
Qed.

Lemma drop_cons2 (s : pystr) i a b rest :
  drop i s = a :: b :: rest →
  s !! i = Some a ∧ s !! (i + 1) = Some b ∧ s !! (i + 2) = head rest
  ∧ i + 2 ≤ length s ∧ slice s i (i + 2) = [a; b].
Proof.
  intros Hd.
  assert (∀ j, s !! (i + j) = (a :: b :: rest) !! j) as Hl.
  { intros j. by rewrite <- Hd, lookup_drop. }
  pose proof (Hl 0) as H0. pose proof (Hl 1) as H1. pose proof (Hl 2) as H2.
  rewrite Nat.add_0_r in H0. simpl in *.
  split; [done|]. split; [done|]. split; [by rewrite H2; destruct rest|].
  split.
  - apply lookup_lt_Some in H1. lia.
  - unfold slice. rewrite Hd. by replace (i + 2 - i) with 2 by lia.
Qed.

Section filter_search_field.
Context `{U : Unicode}.

Lemma strip_two_upper a b :
  is_upper_AZ a = true → is_upper_AZ b = true → strip [a; b] = [a; b].
Proof.
  intros Ha%is_upper_not_space Hb%is_upper_not_space. unfold strip. simpl.
  rewrite Ha. simpl. rewrite Hb. done.
Qed.

Lemma field_match_inv s i :
  field_match s i = true →
  ∃ a b, s !! i = Some a ∧ s !! (i + 1) = Some b ∧ i + 2 ≤ length s
    ∧ slice s i (i + 2) = [a; b]
    ∧ is_upper_AZ a = true ∧ is_upper_AZ b = true
    ∧ at_boundary (prev_at s i) (Some a) = true
    ∧ at_boundary (Some b) (s !! (i + 2)) = true
    ∧ ((a =? 79)%N && (b =? 82)%N) = false.
Proof.
  unfold field_match. intros [len Hm]%bool_decide_eq_true_1.
  apply match_unsupported_Some in Hm
    as (_ & a & b & rest & Hd & Ha & Hb & Hb1 & Hb2 & Hor).
  apply drop_cons2 in Hd as (? & ? & Hh & ? & ?). exists a, b.
  rewrite Hh. done.
Qed.

Lemma field_match_next s i :
  field_match s i = true → field_match s (S i) = false.
Proof.
  intros (a & b & Ha & Hb & Hlen & _ & Hua & Hub & _)%field_match_inv.
  apply bool_decide_eq_false_2. intros [len Hm].
  apply match_unsupported_Some in Hm
    as (_ & a' & b' & rest & Hd & _ & _ & Hb1 & _).
  apply drop_cons2 in Hd as (Ha' & _). rewrite prev_at_S in Hb1 by lia.
  rewrite Ha in Hb1. replace (i + 1) with (S i) in Hb by lia.
  assert (a' = b) as -> by congruence.
  by rewrite (no_boundary_inside a b) in Hb1.
Qed.

Lemma drop_two (s : pystr) i a b :
  s !! i = Some a → s !! (i + 1) = Some b →
  drop i s = a :: b :: drop (i + 2) s.
Proof.
  intros Ha Hb. rewrite (drop_S _ _ _ Ha).
  replace (i + 1) with (S i) in Hb by lia. rewrite (drop_S _ _ _ Hb).
  by replace (i + 2) with (S (S i)) by lia.
Qed.

Lemma head_drop (s : pystr) i : head (drop i s) = s !! i.
Proof. by rewrite head_lookup, lookup_drop, Nat.add_0_r. Qed.

Lemma field_match_intro s i a b :
  s !! i = Some a → s !! (i + 1) = Some b →
  is_upper_AZ a = true → is_upper_AZ b = true →
  at_boundary (prev_at s i) (Some a) = true →
  at_boundary (Some b) (s !! (i + 2)) = true →
  ((a =? 79)%N && (b =? 82)%N) = false →
  field_match s i = true.
Proof.
  intros Ha Hb Hua Hub Hb1 Hb2 Hor. apply bool_decide_eq_true_2.
  rewrite match_unsupported_spec, (drop_two s i a b Ha Hb), head_drop.
  rewrite Hua, Hub, Hb1, Hb2, Hor. simpl. eauto.
Qed.

Lemma replaced_spec s i :
  replaced s i = field_match s i && unsupported s (i, i + 2).
Proof.
  unfold replaced, unsupported. simpl.
  destruct (field_match s i) eqn:Ef.
  - apply field_match_inv in Ef
      as (a & b & Ha & Hb & Hlen & Hs & Hua & Hub & Hb1 & Hb2 & Hor).
    unfold two_letter_token. rewrite Ha, Hb, Hs, Hua, Hub, Hb1, Hb2.
    rewrite (strip_two_upper a b Hua Hub). unfold form_S_digits.
    cbn [forallb]. rewrite (is_upper_not_digit b Hub), !andb_false_r. simpl.
    assert (bool_decide ([a; b] = str "OR") = false) as ->.
    { apply bool_decide_eq_false_2. intros [= -> ->]. done. }
    simpl. repeat case_bool_decide; done.
  - destruct (two_letter_token s i) eqn:Et; [|done]. simpl.
    unfold two_letter_token in Et.
    destruct (s !! i) as [a|] eqn:Ha; [|done].
    destruct (s !! (i + 1)) as [b|] eqn:Hb; [|done].
    rewrite !andb_true_iff in Et. destruct Et as (((Hua & Hub) & Hb1) & Hb2).
    destruct ((a =? 79)%N && (b =? 82)%N) eqn:Hor.
    2: { by rewrite (field_match_intro s i a b) in Ef. }
    apply andb_true_iff in Hor as [->%N.eqb_eq ->%N.eqb_eq].
    pose proof (drop_cons2 s i _ _ _ (drop_two s i _ _ Ha Hb)) as (_ & _ & _ & _ & ->).
    done.
Qed.

Lemma filter_loop_cons s m spans q msgs stdin :
  filter_loop false s (m :: spans) q msgs stdin
  = if unsupported s m
    then filter_loop false s spans (splice q m.1 m.2 (str "AB"))
           (msgs ++ [unsupported_error (strip (slice s m.1 m.2)) m.1 m.2]) stdin
    else filter_loop false s spans q msgs stdin.
Proof. by destruct m. Qed.

Lemma filter_loop_nonstrict s spans : ∀ q msgs stdin,
  filter_loop false s spans q msgs stdin
  = Ok (foldl (splice_step (unsupported s) (λ _, str "AB")) q spans,
        msgs ++ ((λ m, unsupported_error (strip (slice s m.1 m.2)) m.1 m.2)
                   <$> filter (λ m, unsupported s m = true) spans),
        stdin).
Proof.
  induction spans as [|m spans IH]; intros q msgs stdin.
  { rewrite filter_nil. simpl. by rewrite app_nil_r. }
  rewrite filter_loop_cons. cbn [foldl]. rewrite splice_step_eq.
  destruct (unsupported s m) eqn:Eu.
  - rewrite IH, filter_cons_True by done. simpl. by rewrite <- (assoc_L (++)).
  - by rewrite IH, filter_cons_False by (rewrite Eu; done).
Qed.

End filter_search_field.

Section filter_claim.
Context `{U : Unicode}.

Lemma elem_of_finditer_unsupported s m :
  m ∈ finditer match_UNSUPPORTED_SEARCH_FIELD s
  ↔ ∃ i, m = (i, i + 2) ∧ field_match s i = true.
Proof.
  rewrite finditer_unsupported, list_elem_of_fmap. split.
  - intros (i & -> & [? _]%list_elem_of_filter). eauto.
  - intros (i & -> & Hf). exists i. split; [done|].
    apply list_elem_of_filter. split; [done|]. apply elem_of_seq.
    apply field_match_inv in Hf as (_ & _ & _ & _ & ? & _). lia.
Qed.

Lemma field_match_prev s i :
  field_match s (S i) = true → field_match s i = false.
Proof.
  intros H. destruct (field_match s i) eqn:E; [|done].
  apply field_match_next in E. congruence.
Qed.

Lemma filter_messages s (l : list nat) :
  (λ m, unsupported_error (strip (slice s m.1 m.2)) m.1 m.2)
    <$> filter (λ m, unsupported s m = true)
          ((λ i, (i, i + 2)) <$> filter (λ i, field_match s i = true) l)
  = (λ i, unsupported_error (slice s i (i + 2)) i (i + 2))
      <$> filter (λ i, replaced s i = true) l.
Proof.
  induction l as [|i l IH]; [done|].
  destruct (field_match s i) eqn:Ef.
  - rewrite (filter_cons_True (λ i, field_match s i = true)) by done.
    rewrite fmap_cons. destruct (unsupported s (i, i + 2)) eqn:Eu.
    + rewrite filter_cons_True by done.
      rewrite (filter_cons_True (λ i, replaced s i = true))
        by (by rewrite replaced_spec, Ef, Eu).
      rewrite !fmap_cons, IH. f_equal. simpl.
      apply field_match_inv in Ef as (a & b & _ & _ & _ & -> & Ha & Hb & _).
      by rewrite strip_two_upper.
    + rewrite filter_cons_False by (rewrite Eu; done).
      by rewrite (filter_cons_False (λ i, replaced s i = true))
        by (rewrite replaced_spec, Ef, Eu; done).
  - rewrite (filter_cons_False (λ i, field_match s i = true))
      by (rewrite Ef; done).
    by rewrite (filter_cons_False (λ i, replaced s i = true))
      by (rewrite replaced_spec, Ef; done).
Qed.

Lemma filter_query s :
  foldl (splice_step (unsupported s) (λ _, str "AB")) s
    (finditer match_UNSUPPORTED_SEARCH_FIELD s)
  = expected_query s.
Proof.
  apply list_eq. intros j.
  destruct (foldl_splice (unsupported s) (λ _, str "AB") (length s)
              (finditer match_UNSUPPORTED_SEARCH_FIELD s) 0 s) as [_ ->];
    [|done| |].
  { apply finditer_ordered, @match_unsupported_length. }
  { intros m (i & -> & _)%elem_of_finditer_unsupported _. simpl. lia. }
  unfold expected_query. rewrite list_lookup_imap. unfold spliced_at.
  pose proof (finditer_ordered _ (@match_unsupported_length U) s) as Hord.
  destruct (span_of _ j) as [m|] eqn:Es.
  - apply span_of_Some in Es as [(i & -> & Hf)%elem_of_finditer_unsupported Hj].
    simpl in Hj.
    pose proof (field_match_next _ _ Hf) as Hnext.
    pose proof Hf as (a & b & Ha & Hb & _)%field_match_inv.
    destruct (unsupported s (i, i + 2)) eqn:Eu; cbn [fst snd].
    + change (str "AB") with [65%N; 66%N].
      destruct (decide (j = i)) as [->|Hne].
      * rewrite Nat.sub_diag, Ha. cbn [lookup list_lookup fmap option_fmap option_map].
        by rewrite replaced_spec, Hf, Eu.
      * assert (j = S i) as -> by lia.
        replace (S i - i) with 1 by lia. replace (i + 1) with (S i) in Hb by lia.
        rewrite Hb. cbn [lookup list_lookup fmap option_fmap option_map].
        rewrite !replaced_spec, Hnext. cbn [andb].
        rewrite bool_decide_true by lia. cbn [andb Nat.sub].
        by rewrite Nat.sub_0_r, Hf, Eu.
    + destruct (s !! j) as [c|] eqn:Hc; [|done].
      cbn [fmap option_fmap option_map]. f_equal.
      rewrite !replaced_spec.
      destruct (decide (j = i)) as [->|Hne].
      * rewrite Hf, Eu. cbn [andb]. case_bool_decide; [|done].
        destruct i as [|i]; [lia|]. cbn [andb Nat.sub]. rewrite Nat.sub_0_r.
        by rewrite (field_match_prev s i Hf).
      * assert (j = S i) as -> by lia. rewrite Hnext. cbn [andb Nat.sub].
        rewrite Nat.sub_0_r, Hf, Eu. by case_bool_decide.
  - destruct (s !! j) as [c|] eqn:Hc; [|done]. simpl. f_equal.
    rewrite !replaced_spec.
    assert (field_match s j = false) as ->.
    { destruct (field_match s j) eqn:Ef; [|done].
      rewrite (span_of_elem _ _ _ (j, j + 2) j Hord) in Es; [done| |simpl; lia].
      apply elem_of_finditer_unsupported. eauto. }
    simpl. case_bool_decide; [|done]. destruct j as [|j]; [lia|]. simpl.
    rewrite Nat.sub_0_r.
    assert (field_match s j = false) as ->; [|done].
    destruct (field_match s j) eqn:Ef; [|done].
    rewrite (span_of_elem _ _ _ (j, j + 2) (S j) Hord) in Es; [done| |simpl; lia].
    apply elem_of_finditer_unsupported. eauto.
Qed.

(** C8.  In non-strict mode [filter_search_field] reads nothing from the
    input and returns: the query string in which AB stands over every
    word-bounded token of two upper-case letters that is not OR, not of the
    form S<digits> and not a supported code, every other character being
    kept; one Error message per such token, from left to right, carrying
    the span of the token. *)
Theorem C8_filter_search_field_nonstrict v stdin :
  filter_search_field false stdin v
  = Ok (mkValidator (expected_query (query_str v)) (search_field_general v)
          (expected_messages (query_str v)),
        stdin).
Proof.
  unfold filter_search_field. rewrite filter_loop_nonstrict.
  rewrite filter_query. simpl. rewrite finditer_unsupported.
  by rewrite filter_messages.
Qed.

End filter_claim.

(** C4.  For every pair of token categories, [validate_token_position]
    leaves exactly one Error message when the current category is not in
    the previous category's set of the transition table, and none when it
    is; it leaves none when there is no previous category. *)
Theorem C4_token_transitions (v : Validator) (previous current : category)
    (position : option (nat * nat)) :
  linter_messages
    (validate_token_position v (category_name current)
       (Some (category_name previous)) position)
  = (if bool_decide (current ∈ allowed_after previous) then []
     else [mkMessage "Error"
             (str ("Invalid token sequence: '" +:+ category_name previous
                     +:+ "' followed by '" +:+ category_name current +:+ "'"))
             (match position with
              | Some (start, end_) => Span start end_
              | None => NoPosition
              end)])
  ∧ linter_messages
      (validate_token_position v (category_name current) None position) = [].
Proof. split; [|done]. destruct previous, current; vm_compute; reflexivity. Qed.

(** ** [check_parenthesis] *)

Lemma check_parenthesis_step_eq scanned counts m :
  check_parenthesis_step scanned counts m
  = ((if bool_decide (slice scanned m.1 m.2 = [40%N]) then S counts.1 else counts.1),
     (if bool_decide (slice scanned m.1 m.2 = [41%N]) then S counts.2 else counts.2)).
Proof. reflexivity. Qed.

Lemma slice_one (pre : pystr) c rest :
  slice (pre ++ c :: rest) (length pre) (length pre + 1) = [c].
Proof.
  unfold slice. rewrite drop_app_length.
  by replace (length pre + 1 - length pre) with 1 by lia.
Qed.

Lemma occurrences_cons c x s :
  occurrences c (x :: s)
  = (if bool_decide (x = c) then S (occurrences c s) else occurrences c s).
Proof.
  unfold occurrences. case_bool_decide.
  - by rewrite filter_cons_True.
  - by rewrite filter_cons_False.
Qed.

Lemma occurrences_Permutation c s s' :
  s ≡ₚ s' → occurrences c s = occurrences c s'.
Proof.
  induction 1 as [|x s s' _ IH|x y s|s1 s2 s3 _ IH1 _ IH2].
  - done.
  - by rewrite !occurrences_cons, IH.
  - rewrite !occurrences_cons. by repeat case_bool_decide.
  - by rewrite IH1.
Qed.

Lemma check_parenthesis_scan rest : ∀ pre prev counts,
  foldl (check_parenthesis_step (pre ++ rest)) counts
    (finditer_from match_PARENTHESIS 0 (length pre) prev rest)
  = (counts.1 + occurrences 40 rest, counts.2 + occurrences 41 rest).
Proof.
  induction rest as [|c rest IH]; intros pre prev [o k].
  { simpl. f_equal; unfold occurrences; simpl; lia. }
  specialize (IH (pre ++ [c]) (Some c)).
  rewrite <- (assoc_L (++)), length_app in IH. simpl in IH.
  replace (length pre + 1) with (S (length pre)) in IH by lia.
  rewrite !occurrences_cons. cbn [finditer_from match_PARENTHESIS].
  destruct (in_class c (str "()")) eqn:Ec.
  - cbn [foldl Nat.sub]. rewrite check_parenthesis_step_eq. cbn [fst snd].
    rewrite slice_one, IH. cbn [fst snd].
    assert (c = 40%N ∨ c = 41%N) as [->| ->].
    { unfold in_class in Ec. simpl in Ec.
      rewrite !orb_true_iff, !N.eqb_eq in Ec.
      destruct Ec as [?|[?|?]]; [by left|by right|done]. }
    + repeat case_bool_decide; simplify_eq; f_equal; lia.
    + repeat case_bool_decide; simplify_eq; f_equal; lia.
  - rewrite IH. cbn [fst snd].
    unfold in_class in Ec. simpl in Ec.
    rewrite !orb_false_iff, !N.eqb_neq in Ec.
    rewrite !bool_decide_false by tauto. done.
Qed.

Lemma check_parenthesis_counts s :
  foldl (check_parenthesis_step s) (0, 0) (finditer match_PARENTHESIS s)
  = (occurrences 40 s, occurrences 41 s).
Proof. apply (check_parenthesis_scan s [] None (0, 0)). Qed.

(** X6.  [check_parenthesis] compares the number of [(] with the number of [)]
    in the query string: it leaves no message when they are equal and one
    Fatal message that reports both numbers when they differ.  The query
    string and the search field are not changed, and the messages of an
    earlier check are gone. *)
Theorem check_parenthesis_counts_only v :
  check_parenthesis v
  = mkValidator (query_str v) (search_field_general v)
      (if bool_decide (occurrences 40 (query_str v) ≠ occurrences 41 (query_str v))
       then [unbalanced_error (occurrences 40 (query_str v))
                              (occurrences 41 (query_str v))]
       else []).
Proof. unfold check_parenthesis. by rewrite check_parenthesis_counts. Qed.

(** X7.  [check_parenthesis] does not look at the order of the parentheses: two
    query strings with the same characters in any order get the same
    messages, so a string that closes a parenthesis before it opens one is
    accepted as long as the numbers agree. *)
Theorem check_parenthesis_ignores_order v v' :
  query_str v ≡ₚ query_str v' →
  linter_messages (check_parenthesis v) = linter_messages (check_parenthesis v').
Proof.
  intros Hp. unfold check_parenthesis. rewrite !check_parenthesis_counts.
  cbn [linter_messages fst snd].
  by rewrite !(occurrences_Permutation _ _ _ Hp).
Qed.

Lemma check_parenthesis_ignores_order_witness :
  str "(a OR b)" ≡ₚ str ")a OR b("
  ∧ linter_messages (check_parenthesis (mkValidator (str ")a OR b(") [] [])) = [].
Proof.
  assert (str "(a OR b)" ≡ₚ str ")a OR b(") as Hp by compute_done.
  split; [exact Hp|].
  rewrite <- (check_parenthesis_ignores_order
                (mkValidator (str "(a OR b)") [] [])
                (mkValidator (str ")a OR b(") [] []) Hp).
  reflexivity.
Defined.

Lemma check_parenthesis_example :
  linter_messages
    (check_parenthesis (mkValidator (str "((((((((((a) OR b") (str "TI") []))
  = [mkMessage "Fatal" (str "Unbalanced parentheses: open = 10, close = 1")
       EmptyPosition].
Proof. reflexivity. Qed.

Lemma category_name_inj c c' : category_name c = category_name c' → c = c'.
Proof. by destruct c, c'. Qed.

Lemma dict_get_transitions previous :
  dict_get valid_transitions previous []
  = match list_find (λ p, category_name p = previous)
            [FIELD; SEARCH_TERM; LOGIC_OPERATOR; PROXIMITY_OPERATOR;
             PARENTHESIS_OPEN; PARENTHESIS_CLOSED] with
    | Some (_, p) => category_name <$> allowed_after p
    | None => []
    end.
Proof.
  unfold valid_transitions. cbn [dict_get list_find].
  repeat (match goal with
          | |- context [String.eqb ?k previous] =>
              destruct (String.eqb_spec k previous) as [<-|?]; [reflexivity|]
          end).
  repeat (rewrite decide_False by done; cbn [fmap option_fmap option_map]).
  done.
Qed.

(** X8.  [validate_token_position] on arbitrary type names.  It leaves at most
    one message, and it leaves none exactly when the previous and the
    current name are two of the six token types and the table allows the
    current one after the previous one.  A name that is not a token type is
    never accepted, neither as the previous nor as the current token:
    [valid_transitions.get(previous, [])] answers the empty list instead of
    raising [KeyError]. *)
Theorem token_position_accepts_iff v token_type previous position :
  let v' := validate_token_position v token_type (Some previous) position in
  (linter_messages v' = []
   ∨ linter_messages v' = [invalid_sequence_error token_type previous position])
  ∧ (linter_messages v' = []
     ↔ ∃ p c, previous = category_name p ∧ token_type = category_name c
              ∧ c ∈ allowed_after p)
  ∧ query_str v' = query_str v
  ∧ search_field_general v' = search_field_general v.
Proof.
  cbn zeta. unfold validate_token_position. case_bool_decide as Hin.
  - split; [by right|]. split; [|done]. split; [done|].
    intros (p & c & -> & -> & Hc). destruct Hin.
    replace (dict_get valid_transitions (category_name p) [])
      with (category_name <$> allowed_after p) by (by destruct p).
    by apply list_elem_of_fmap_2.
  - split; [by left|]. split; [|done]. split; [|done]. intros _.
    rewrite dict_get_transitions in Hin.
    destruct (list_find _ _) as [[i p]|] eqn:Ef.
    + apply list_find_Some in Ef as (_ & <- & _).
      apply list_elem_of_fmap in Hin as (c & -> & Hc). eauto.
    + by apply elem_of_nil in Hin.
Qed.

(** ** The strict mode of [filter_search_field] *)

Section strict.
Context `{U : Unicode}.

Lemma ask_replacement_None stdin :
  accepted_lines stdin = [] → ask_replacement stdin = None.
Proof.
  unfold accepted_lines. induction stdin as [|line stdin IH]; [done|].
  simpl. case_bool_decide as Hl.
  - by rewrite filter_cons_True.
  - rewrite filter_cons_False by done. done.
Qed.

Lemma ask_replacement_Some stdin line lines :
  accepted_lines stdin = line :: lines →
  ∃ stdin', ask_replacement stdin = Some (strip line, stdin')
    ∧ stdin' `suffix_of` stdin ∧ accepted_lines stdin' = lines.
Proof.
  unfold accepted_lines. induction stdin as [|l0 stdin IH]; [done|].
  simpl. case_bool_decide as Hl.
  - rewrite filter_cons_True by done. intros [= -> <-].
    exists stdin. split; [done|]. split; [|done]. by apply suffix_cons_r.
  - rewrite filter_cons_False by done. intros (stdin' & -> & ? & ?)%IH.
    exists stdin'. split; [done|]. split; [|done]. by apply suffix_cons_r.
Qed.

Lemma supported_fields_length r : r ∈ supported_fields → length r = 2.
Proof.
  unfold supported_fields. rewrite !fmap_cons, !elem_of_cons, fmap_nil, elem_of_nil.
  intros H. repeat (destruct H as [->|H]; [done|]). done.
Qed.

Lemma supported_fields_upper r :
  r ∈ supported_fields →
  ∃ a b, r = [a; b] ∧ is_upper_AZ a = true ∧ is_upper_AZ b = true.
Proof.
  unfold supported_fields. rewrite !fmap_cons, !elem_of_cons, fmap_nil, elem_of_nil.
  intros H. repeat (destruct H as [->|H]; [by eexists _, _|]). done.
Qed.

Lemma accepted_lines_elem stdin line :
  line ∈ accepted_lines stdin → strip line ∈ supported_fields.
Proof. unfold accepted_lines. by intros [? _]%list_elem_of_filter. Qed.

Lemma ordered_spans_filter (P : nat * nat → Prop) `{∀ m, Decision (P m)} n spans :
  ∀ p, ordered_spans n p spans → ordered_spans n p (filter P spans).
Proof.
  induction spans as [|m spans IH]; intros p Ho; [done|].
  destruct Ho as (? & ? & ? & Ho). destruct (decide (P m)).
  - rewrite filter_cons_True by done. simpl. auto.
  - rewrite filter_cons_False by done.
    apply (ordered_spans_weaken _ m.2); [lia|auto].
Qed.

Lemma filter_loop_strict_cons s m spans q msgs stdin :
  filter_loop true s (m :: spans) q msgs stdin
  = if unsupported s m
    then match ask_replacement stdin with
         | None => Raise EOFError
         | Some (replacement, stdin') =>
             filter_loop true s spans (splice q m.1 m.2 replacement) msgs stdin'
         end
    else filter_loop true s spans q msgs stdin.
Proof. by destruct m. Qed.

Lemma slice_two (q : pystr) i r :
  length r = 2 → (∀ j, j < 2 → q !! (i + j) = r !! j) → slice q i (i + 2) = r.
Proof.
  intros Hr Hq. apply list_eq. intros j. rewrite slice_lookup.
  replace (i + 2 - i) with 2 by lia. case_bool_decide; [by apply Hq|].
  symmetry. apply lookup_ge_None. lia.
Qed.

(** The loop of the strict mode over [spans], started on [q]. *)
Lemma filter_loop_strict s spans : ∀ p q msgs stdin,
  ordered_spans (length s) p spans → (∀ m, m ∈ spans → m.2 = m.1 + 2) →
  length q = length s →
  let toks := filter (λ m, unsupported s m = true) spans in
  if bool_decide (length toks ≤ length (accepted_lines stdin)) then
    ∃ q' stdin',
      filter_loop true s spans q msgs stdin = Ok (q', msgs, stdin')
      ∧ length q' = length s
      ∧ stdin' `suffix_of` stdin
      ∧ (toks = [] → stdin' = stdin)
      ∧ accepted_lines stdin' = drop (length toks) (accepted_lines stdin)
      ∧ (∀ k m line, toks !! k = Some m → accepted_lines stdin !! k = Some line →
           slice q' m.1 m.2 = strip line)
      ∧ (∀ i, span_of toks i = None → q' !! i = q !! i)
  else filter_loop true s spans q msgs stdin = Raise EOFError.
Proof.
  induction spans as [|m spans IH]; intros p q msgs stdin Ho H2 Hq; cbn zeta.
  { rewrite filter_nil. simpl. exists q, stdin. by rewrite drop_0. }
  destruct Ho as (Hp & Hm & Hn & Ho).
  assert (∀ m', m' ∈ spans → m'.2 = m'.1 + 2) as H2'.
  { intros m' Hm'. apply H2. by right. }
  pose proof (H2 m (list_elem_of_here _ _)) as Hm2.
  rewrite filter_loop_strict_cons. destruct (unsupported s m) eqn:Eu.
  2: { rewrite filter_cons_False by (by rewrite Eu).
       apply (IH m.2); done. }
  rewrite filter_cons_True by done. cbn [length].
  destruct (accepted_lines stdin) as [|line lines] eqn:El.
  { rewrite bool_decide_false by (simpl; lia).
    by rewrite ask_replacement_None. }
  destruct (ask_replacement_Some _ _ _ El) as (stdin1 & -> & Hsuf & El1).
  assert (strip line ∈ supported_fields) as Hsup.
  { apply (accepted_lines_elem stdin). rewrite El. by left. }
  pose proof (supported_fields_length _ Hsup) as Hlen.
  assert (length (splice q m.1 m.2 (strip line)) = length s) as Hq1.
  { rewrite splice_length; [done|lia..]. }
  specialize (IH m.2 (splice q m.1 m.2 (strip line)) msgs stdin1 Ho H2' Hq1).
  cbn zeta in IH. rewrite El1 in IH. cbn [length].
  pose proof (ordered_spans_filter (λ m, unsupported s m = true) _ _ _ Ho) as Ho'.
  case_bool_decide as Hle.
  - rewrite bool_decide_true by lia.
    destruct IH as (q' & stdin' & -> & ? & ? & _ & ? & Hk & Hi).
    exists q', stdin'. split; [done|]. split; [done|].
    split; [by etrans|]. split; [done|]. split; [done|]. split.
    + intros [|k] m' line' Hm' Hl'; simplify_eq/=; [|by eapply Hk].
      rewrite Hm2. apply slice_two; [done|]. intros j Hj.
      rewrite Hi by (apply (span_of_before _ _ _ _ Ho'); lia).
      rewrite splice_lookup by lia. rewrite bool_decide_true by lia.
      f_equal. lia.
    + intros i. cbn [span_of]. case_bool_decide as Hin; [done|].
      intros Hs. rewrite (Hi i Hs), splice_lookup by lia.
      by rewrite bool_decide_false.
  - by rewrite bool_decide_false by lia.
Qed.

End strict.

Section settle.
Context `{U : Unicode}.

Lemma elem_of_unsupported_tokens s m :
  m ∈ unsupported_tokens s ↔ ∃ i, m = (i, i + 2) ∧ replaced s i = true.
Proof.
  unfold unsupported_tokens.
  rewrite list_elem_of_filter, elem_of_finditer_unsupported. split.
  - intros (Hu & i & -> & Hf). exists i. by rewrite replaced_spec, Hf, Hu.
  - intros (i & -> & Hr). rewrite replaced_spec in Hr.
    apply andb_true_iff in Hr as [Hf Hu]. eauto.
Qed.

Lemma unsupported_tokens_ordered s :
  ordered_spans (length s) 0 (unsupported_tokens s).
Proof.
  apply ordered_spans_filter, finditer_ordered, @match_unsupported_length.
Qed.

Lemma filter_loop_supported strict s spans q msgs stdin :
  (∀ m, m ∈ spans → unsupported s m = false) →
  filter_loop strict s spans q msgs stdin = Ok (q, msgs, stdin).
Proof.
  induction spans as [|[a b] spans IH]; intros H; [done|]. simpl.
  pose proof (H (a, b) (list_elem_of_here _ _)) as Hu.
  unfold unsupported in Hu. simpl in Hu. rewrite Hu.
  apply IH. intros m Hm. apply H. by right.
Qed.

Lemma filter_search_field_clean strict stdin v :
  (∀ i, replaced (query_str v) i = false) →
  filter_search_field strict stdin v
  = Ok (mkValidator (query_str v) (search_field_general v) [], stdin).
Proof.
  intros H. unfold filter_search_field. rewrite filter_loop_supported; [done|].
  intros m (i & -> & Hf)%elem_of_finditer_unsupported.
  specialize (H i). by rewrite replaced_spec, Hf in H.
Qed.

Lemma at_boundary_word p p' n n' :
  from_option is_word false p = from_option is_word false p' →
  from_option is_word false n = from_option is_word false n' →
  at_boundary p n = at_boundary p' n'.
Proof. unfold at_boundary. by intros -> ->. Qed.

Lemma prev_at_lookup (s : pystr) i :
  prev_at s i = match i `min` length s with 0 => None | S j => s !! j end.
Proof.
  unfold prev_at. rewrite last_lookup, length_take.
  destruct (i `min` length s) as [|j] eqn:E; simpl.
  - apply lookup_ge_None_2. rewrite length_take. lia.
  - apply lookup_take_lt. lia.
Qed.

Lemma replaced_inv s i :
  replaced s i = true →
  ∃ a b, s !! i = Some a ∧ s !! (i + 1) = Some b
    ∧ is_upper_AZ a = true ∧ is_upper_AZ b = true
    ∧ replaced s (i + 1) = false
    ∧ (match i with 0 => True | S j => replaced s j = false end).
Proof.
  rewrite replaced_spec. intros [Hf _]%andb_true_iff.
  pose proof Hf as (a & b & Ha & Hb & _ & _ & Hua & Hub & _)%field_match_inv.
  exists a, b. repeat split; try done.
  - rewrite replaced_spec. replace (i + 1) with (S i) by lia.
    by rewrite (field_match_next _ _ Hf).
  - destruct i as [|j]; [done|]. rewrite replaced_spec.
    by rewrite (field_match_prev _ _ Hf).
Qed.

(** A string that keeps the characters outside the replaced tokens and
    holds a supported code over each replaced token has no token left to
    replace. *)
Lemma rewritten_no_unsupported s s' :
  length s' = length s →
  (∀ i, replaced s i = true → slice s' i (i + 2) ∈ supported_fields) →
  (∀ i, replaced s i = false →
        match i with 0 => True | S j => replaced s j = false end →
        s' !! i = s !! i) →
  ∀ j, replaced s' j = false.
Proof.
  intros Hlen Hrep Hkeep.
  assert (∀ i, replaced s i = true →
            ∃ a b, s' !! i = Some a ∧ s' !! (i + 1) = Some b
              ∧ slice s' i (i + 2) = [a; b]
              ∧ is_upper_AZ a = true ∧ is_upper_AZ b = true) as Hrep'.
  { intros i Hi. destruct (supported_fields_upper _ (Hrep i Hi))
      as (a & b & E & Ha & Hb).
    exists a, b. split; [|split]; [| |done].
    - assert (slice s' i (i + 2) !! 0 = Some a) as H0 by (by rewrite E).
      rewrite slice_lookup in H0. case_bool_decide; [|done].
      by rewrite Nat.add_0_r in H0.
    - assert (slice s' i (i + 2) !! 1 = Some b) as H1 by (by rewrite E).
      rewrite slice_lookup in H1. by case_bool_decide. }
  assert (∀ k, from_option is_word false (s' !! k)
               = from_option is_word false (s !! k)) as Hword.
  { intros k. destruct (replaced s k) eqn:Ek.
    { destruct (Hrep' k Ek) as (a & b & -> & _ & _ & Ha & _).
      destruct (replaced_inv s k Ek) as (a0 & b0 & -> & _ & Ha0 & _).
      simpl. by rewrite !is_upper_word. }
    destruct k as [|k]; [by rewrite Hkeep|].
    destruct (replaced s k) eqn:Ek'; [|by rewrite Hkeep].
    destruct (Hrep' k Ek') as (a & b & _ & Hb' & _ & _ & Hb).
    destruct (replaced_inv s k Ek') as (a0 & b0 & _ & Hb0' & _ & Hb0 & _).
    replace (k + 1) with (S k) in * by lia. rewrite Hb', Hb0'.
    simpl. by rewrite !is_upper_word. }
  assert (∀ k, from_option is_word false (prev_at s' k)
               = from_option is_word false (prev_at s k)) as Hprev.
  { intros k. rewrite !prev_at_lookup, Hlen. by destruct (k `min` length s). }
  intros j. destruct (replaced s' j) eqn:Ej; [exfalso|done].
  rewrite replaced_spec in Ej. apply andb_true_iff in Ej as [Hf' Hu'].
  pose proof Hf' as (a & b & Ha & Hb & _ & Hs & Hua & Hub & Hb1 & Hb2 & Hor)
    %field_match_inv.
  assert (unsupported s' (j, j + 2) = false → False) as Hcontra.
  { intros E. by rewrite E in Hu'. }
  assert (∀ x y, slice s' j (j + 2) = [x; y] → [x; y] ∈ supported_fields →
            False) as Hsupp.
  { intros x y Hxy Hin. apply Hcontra. unfold unsupported. cbn [fst snd].
    rewrite Hxy. destruct (supported_fields_upper _ Hin) as (x' & y' & [= <- <-] & ? & ?).
    rewrite strip_two_upper by done. by apply bool_decide_eq_false_2; intros []. }
  destruct (replaced s j) eqn:Rj.
  { apply (Hsupp a b Hs). rewrite <- Hs. by apply Hrep. }
  assert (match j with 0 => True | S k => replaced s k = false end) as Rp.
  { destruct j as [|k]; [done|]. destruct (replaced s k) eqn:Rk; [|done].
    destruct (Hrep' k Rk) as (a0 & b0 & Ha0 & _ & _ & Hua0 & _).
    rewrite prev_at_S, Ha0 in Hb1 by (by eapply lookup_lt_Some).
    by rewrite (no_boundary_inside a0 a) in Hb1. }
  pose proof (Hkeep j Rj Rp) as Kj. rewrite Ha in Kj.
  destruct (replaced s (S j)) eqn:Rn.
  { rewrite replaced_spec in Rn. apply andb_true_iff in Rn as [Hfn _].
    apply field_match_inv in Hfn
      as (a2 & b2 & Ha2 & _ & _ & _ & Hua2 & _ & Hbn & _).
    rewrite prev_at_S, <- Kj in Hbn
      by (rewrite <- Hlen; by eapply lookup_lt_Some).
    by rewrite (no_boundary_inside a a2) in Hbn. }
  assert (s' !! (j + 1) = s !! (j + 1)) as Kn.
  { replace (j + 1) with (S j) by lia. by apply Hkeep. }
  rewrite Hb in Kn.
  assert (field_match s j = true) as Hfs.
  { apply (field_match_intro s j a b); try done.
    - rewrite <- Hb1. apply at_boundary_word; [by rewrite Hprev|done].
    - rewrite <- Hb2. apply at_boundary_word; [done|by rewrite Hword]. }
  rewrite replaced_spec, Hfs in Rj. simpl in Rj.
  unfold unsupported in Rj. cbn [fst snd] in Rj.
  apply bool_decide_eq_false_1 in Rj. apply dec_stable in Rj.
  pose proof (drop_cons2 s j a b _ (drop_two s j a b (eq_sym Kj) (eq_sym Kn)))
    as (_ & _ & _ & _ & Hss).
  rewrite Hss, strip_two_upper in Rj by done.
  by apply (Hsupp a b).
Qed.

End settle.

Section strict_mode.
Context `{U : Unicode}.

Lemma filter_search_field_strict_spec v stdin :
  let toks := unsupported_tokens (query_str v) in
  if bool_decide (length toks ≤ length (accepted_lines stdin)) then
    ∃ q' stdin',
      filter_search_field true stdin v
      = Ok (mkValidator q' (search_field_general v) [], stdin')
      ∧ length q' = length (query_str v)
      ∧ stdin' `suffix_of` stdin
      ∧ (toks = [] → stdin' = stdin)
      ∧ accepted_lines stdin' = drop (length toks) (accepted_lines stdin)
      ∧ (∀ k m line, toks !! k = Some m → accepted_lines stdin !! k = Some line →
           slice q' m.1 m.2 = strip line)
      ∧ (∀ i, span_of toks i = None → q' !! i = query_str v !! i)
  else filter_search_field true stdin v = Raise EOFError.
Proof.
  cbn zeta. unfold filter_search_field, unsupported_tokens.
  pose proof (filter_loop_strict (query_str v)
                (finditer match_UNSUPPORTED_SEARCH_FIELD (query_str v))
                0 (query_str v) [] stdin) as H.
  cbn zeta in H. case_bool_decide.
  - destruct H as (q' & stdin' & -> & ?).
    + apply finditer_ordered, @match_unsupported_length.
    + by intros m (i & -> & _)%elem_of_finditer_unsupported.
    + done.
    + by exists q', stdin'.
  - rewrite H; [done| | |done].
    + apply finditer_ordered, @match_unsupported_length.
    + by intros m (i & -> & _)%elem_of_finditer_unsupported.
Qed.

(** X9.  In strict mode [filter_search_field] returns exactly when the input
    holds at least as many lines that strip to a supported field as the
    query string has unsupported field tokens; otherwise the prompt runs
    into the end of the input and [input()] raises [EOFError].  Lines that
    are not a supported field are skipped and never end the loop. *)
Theorem filter_search_field_strict_returns_iff v stdin :
  (is_Ok (filter_search_field true stdin v)
   ↔ length (unsupported_tokens (query_str v)) ≤ length (accepted_lines stdin))
  ∧ (filter_search_field true stdin v = Raise EOFError
     ↔ length (accepted_lines stdin) < length (unsupported_tokens (query_str v))).
Proof.
  pose proof (filter_search_field_strict_spec v stdin) as H. cbn zeta in H.
  case_bool_decide as Hle.
  - destruct H as (q' & stdin' & -> & _). split; split; try done. lia.
  - rewrite H. split; split; try done. lia.
Qed.

(** X10.  When the strict mode returns, it has left no message and has not
    changed the length of the query string or the search field; the k-th
    unsupported token holds the k-th accepted line of the input, stripped;
    every character outside these tokens is kept; the input is consumed up
    to the last line used, and not at all when there was nothing to
    replace. *)
Theorem filter_search_field_strict_result v stdin v' stdin' :
  filter_search_field true stdin v = Ok (v', stdin') →
  linter_messages v' = []
  ∧ search_field_general v' = search_field_general v
  ∧ length (query_str v') = length (query_str v)
  ∧ stdin' `suffix_of` stdin
  ∧ (unsupported_tokens (query_str v) = [] → stdin' = stdin)
  ∧ accepted_lines stdin'
    = drop (length (unsupported_tokens (query_str v))) (accepted_lines stdin)
  ∧ (∀ k m line,
       unsupported_tokens (query_str v) !! k = Some m →
       accepted_lines stdin !! k = Some line →
       slice (query_str v') m.1 m.2 = strip line)
  ∧ (∀ i, span_of (unsupported_tokens (query_str v)) i = None →
       query_str v' !! i = query_str v !! i).
Proof.
  intros Hok. pose proof (filter_search_field_strict_spec v stdin) as H.
  cbn zeta in H. case_bool_decide as Hle; [|by rewrite H in Hok].
  destruct H as (q' & stdin1 & E & ?). rewrite E in Hok. by simplify_eq.
Qed.

(** X11.  A query string without an unsupported field token passes
    [filter_search_field] untouched in both modes: no message, the same
    string, and in strict mode the user is not asked anything. *)
Theorem filter_search_field_keeps_clean_query strict stdin v :
  (∀ i, replaced (query_str v) i = false) →
  filter_search_field strict stdin v
  = Ok (mkValidator (query_str v) (search_field_general v) [], stdin).
Proof. apply filter_search_field_clean. Qed.

Lemma expected_query_rewritten s j :
  replaced (expected_query s) j = false.
Proof.
  apply (rewritten_no_unsupported s).
  - unfold expected_query. by rewrite length_imap.
  - intros i Hi.
    destruct (replaced_inv s i Hi) as (a & b & Ha & Hb & _ & _ & Hn & _).
    replace (slice (expected_query s) i (i + 2)) with (str "AB").
    { unfold supported_fields. rewrite !fmap_cons. do 3 right. left. }
    symmetry. apply slice_two; [done|]. intros j' Hj'.
    unfold expected_query. rewrite list_lookup_imap.
    destruct j' as [|[|]]; [| |lia].
    + by rewrite Nat.add_0_r, Ha; simpl; rewrite Hi.
    + rewrite Hb. simpl. rewrite Hn.
      rewrite bool_decide_true by lia.
      replace (i + 1 - 1) with i by lia. by rewrite Hi.
  - intros i Hi Hp. unfold expected_query. rewrite list_lookup_imap.
    destruct (s !! i) as [c|]; [|done]. simpl. rewrite Hi.
    destruct i as [|i]; [done|]. simpl. by rewrite Nat.sub_0_r, Hp.
Qed.

Lemma strict_result_rewritten v stdin v' stdin' j :
  filter_search_field true stdin v = Ok (v', stdin') →
  replaced (query_str v') j = false.
Proof.
  intros Hok. pose proof (filter_search_field_strict_spec v stdin) as H.
  cbn zeta in H. case_bool_decide as Hle; [|by rewrite H in Hok].
  destruct H as (q' & stdin1 & E & Hlen & _ & _ & _ & Hk & Hi).
  rewrite E in Hok. simplify_eq. cbn [query_str].
  pose proof (unsupported_tokens_ordered (query_str v)) as Hord.
  apply (rewritten_no_unsupported (query_str v)); [done| |].
  - intros i Hi'.
    assert ((i, i + 2) ∈ unsupported_tokens (query_str v)) as Hin.
    { apply elem_of_unsupported_tokens. eauto. }
    apply list_elem_of_lookup in Hin as [k Hk'].
    destruct (lookup_lt_is_Some_2 (accepted_lines stdin) k) as [line Hl].
    { apply lookup_lt_Some in Hk'. lia. }
    pose proof (Hk k (i, i + 2) line Hk' Hl) as Hs. cbn [fst snd] in Hs.
    rewrite Hs.
    apply (accepted_lines_elem stdin). by eapply list_elem_of_lookup_2.
  - intros i Hr Hp. apply Hi.
    destruct (span_of _ i) as [m|] eqn:Es; [exfalso|done].
    apply span_of_Some in Es as [(i0 & -> & Hr0)%elem_of_unsupported_tokens Hin].
    simpl in Hin. destruct (decide (i = i0)) as [->|Hne]; [congruence|].
    destruct i as [|i]; [lia|]. assert (i = i0) as -> by lia. congruence.
Qed.

(** X12.  After a run of [filter_search_field] that returns, in either mode, the
    query string has no unsupported field token left: a second run, in
    either mode, changes nothing, leaves no message and reads no input. *)
Theorem filter_search_field_settles strict stdin v v' stdin' strict2 stdin2 :
  filter_search_field strict stdin v = Ok (v', stdin') →
  filter_search_field strict2 stdin2 v'
  = Ok (mkValidator (query_str v') (search_field_general v') [], stdin2).
Proof.
  intros Hok. apply filter_search_field_clean. intros j.
  destruct strict; [by eapply strict_result_rewritten|].
  unfold filter_search_field in Hok. rewrite filter_loop_nonstrict in Hok.
  rewrite filter_query in Hok. simplify_eq. apply expected_query_rewritten.
Qed.

End strict_mode.

Lemma filter_search_field_strict_result_witness :
  ∃ v', 
    @filter_search_field no_unicode true [str "title"; str " AU "; str "KW"]
      (mkValidator (str "XY cancer AND TI lung") (str "") [])
    = Ok (v', [str "KW"])
    ∧ linter_messages v' = []
    ∧ slice (query_str v') 0 2 = str "AU".
Proof.
  eexists. split; [vm_compute; reflexivity|].
  destruct (@filter_search_field_strict_result no_unicode
              (mkValidator (str "XY cancer AND TI lung") (str "") [])
              [str "title"; str " AU "; str "KW"]
              (mkValidator (str "AU cancer AND TI lung") (str "") [])
              [str "KW"])
    as (H1 & _ & _ & _ & _ & _ & H2 & _); [vm_compute; reflexivity|].
  split; [exact H1|].
  apply (H2 0 (0, 2) (str " AU ")); vm_compute; reflexivity.
Defined.

Lemma filter_search_field_keeps_clean_query_witness :
  (∀ i, @replaced no_unicode (str "TI cancer OR AB lung") i = false)
  ∧ @filter_search_field no_unicode true [] (mkValidator (str "TI cancer OR AB lung") (str "") [])
    = Ok (mkValidator (str "TI cancer OR AB lung") (str "") [], []).
Proof.
  assert (∀ i, @replaced no_unicode (str "TI cancer OR AB lung") i = false) as H.
  { intros i. do 21 (destruct i as [|i]; [vm_compute; reflexivity|]).
    unfold replaced, two_letter_token.
    by rewrite (lookup_ge_None_2 _ (S _)) by (vm_compute; lia). }
  split; [exact H|].
  apply (@filter_search_field_keeps_clean_query no_unicode true []
           (mkValidator (str "TI cancer OR AB lung") (str "") []) H).
Defined.

Lemma filter_search_field_settles_witness :
  @filter_search_field no_unicode false []
    (mkValidator (str "XY cancer AND TI lung") (str "") [])
  = Ok (mkValidator (str "AB cancer AND TI lung") (str "")
          [unsupported_error (str "XY") 0 2], [])
  ∧ @filter_search_field no_unicode true []
      (mkValidator (str "AB cancer AND TI lung") (str "")
         [unsupported_error (str "XY") 0 2])
    = Ok (mkValidator (str "AB cancer AND TI lung") (str "") [], []).
Proof.
  assert (@filter_search_field no_unicode false []
            (mkValidator (str "XY cancer AND TI lung") (str "") [])
          = Ok (mkValidator (str "AB cancer AND TI lung") (str "")
                  [unsupported_error (str "XY") 0 2], [])) as H
    by (vm_compute; reflexivity).
  split; [exact H|].
  apply (@filter_search_field_settles no_unicode false [] _ _ [] true [] H).
Defined.

(** ** How the checks compose *)

Section check_operator_letters.
Context `{U : Unicode}.

Lemma operator_letter x c :
  x ∈ operators → c ∈ x → c ∈ str "ANDORT".
Proof.
  unfold operators. rewrite !elem_of_cons, elem_of_nil.
  intros [->|[->|[->|[]]]]; change (str "ANDORT") with [65; 78; 68; 79; 82; 84]%N;
    [change (str "AND") with [65; 78; 68]%N
    |change (str "OR") with [79; 82]%N
    |change (str "NOT") with [78; 79; 84]%N];
    rewrite !elem_of_cons, !elem_of_nil; intuition.
Qed.

Lemma upper_char_letter c :
  upper_char c ∈ str "ANDORT" → upper_char c ≠ c → c ∈ str "andort".
Proof.
  change (str "ANDORT") with [65; 78; 68; 79; 82; 84]%N.
  change (str "andort") with [97; 110; 100; 111; 114; 116]%N.
  rewrite !elem_of_cons, !elem_of_nil. unfold upper_char.
  destruct (between 97 122 c) eqn:Eb; [|done].
  apply between_spec in Eb. intros H _.
  assert (c = 97 ∨ c = 110 ∨ c = 100 ∨ c = 111 ∨ c = 114 ∨ c = 116)%N
    by lia.
  tauto.
Qed.

(** X17.  [check_operator] changes nothing but the case of the letters of
    the operators: a character of the query string that differs after the
    call was one of a, n, d, o, r, t and is now its upper-case form. *)
Theorem check_operator_changes_only_letters v i c c' :
  query_str v !! i = Some c →
  query_str (check_operator v) !! i = Some c' →
  c' ≠ c →
  c ∈ str "andort" ∧ c' = upper_char c.
Proof.
  intros Hc Hc' Hne. rewrite check_operator_lookup, Hc in Hc'.
  destruct (span_of _ i) as [m|] eqn:Es; [|congruence].
  simpl in Hc'. injection Hc' as <-. split; [|done].
  apply span_of_Some in Es as [Hm Hi].
  destruct (faulty_span _ m Hm) as (_ & _ & Hop & Hup & _).
  apply upper_char_letter; [|done].
  apply (operator_letter _ _ Hop). rewrite Hup.
  apply (list_elem_of_lookup_2 _ (i - m.1)).
  rewrite list_lookup_fmap, slice_lookup.
  rewrite bool_decide_true by lia.
  replace (m.1 + (i - m.1)) with i by lia. by rewrite Hc.
Qed.

End check_operator_letters.

Lemma check_operator_changes_only_letters_witness :
  str "a Or b" !! 3 = Some 114%N
  ∧ query_str (@check_operator no_unicode (mkValidator (str "a Or b") [] [])) !! 3
    = Some 82%N
  ∧ 114%N ∈ str "andort".
Proof.
  split; [reflexivity|]. split; [vm_compute; reflexivity|].
  apply (@check_operator_changes_only_letters no_unicode
           (mkValidator (str "a Or b") [] []) 3 114%N 82%N);
    [reflexivity|vm_compute; reflexivity|done].
Defined.

Lemma occurrences_rel c (s s' : pystr) :
  Forall2 (λ x y, x = c ↔ y = c) s s' → occurrences c s = occurrences c s'.
Proof.
  induction 1 as [|x y s s' Hxy _ IH]; [done|].
  rewrite !occurrences_cons, IH.
  repeat case_bool_decide; tauto.
Qed.

Lemma occurrences_lookup c (s s' : pystr) :
  length s = length s' → (∀ i, s !! i = Some c ↔ s' !! i = Some c) →
  occurrences c s = occurrences c s'.
Proof.
  intros Hlen H. apply occurrences_rel, Forall2_same_length_lookup.
  split; [done|]. intros i x y Hx Hy. split.
  - intros ->. apply H in Hx. congruence.
  - intros ->. apply H in Hy. congruence.
Qed.

Lemma check_parenthesis_same_counts v v' :
  occurrences 40 (query_str v) = occurrences 40 (query_str v') →
  occurrences 41 (query_str v) = occurrences 41 (query_str v') →
  linter_messages (check_parenthesis v) = linter_messages (check_parenthesis v').
Proof.
  intros H40 H41. unfold check_parenthesis. rewrite !check_parenthesis_counts.
  cbn [linter_messages fst snd]. by rewrite H40, H41.
Qed.

Section verdict.
Context `{U : Unicode}.

Lemma cased_parenthesis c x y :
  between 97 122 c = false → between 65 90 c = false →
  cased x y → (x = c ↔ y = c).
Proof.
  intros Hl Hu [->| ->]; [done|]. unfold upper_char.
  destruct (between 97 122 x) eqn:Ex; [|done].
  apply between_spec in Ex. split.
  - intros ->. apply between_spec in Ex. congruence.
  - intros <-. assert (between 65 90 (x - 32) = true) as Hb
      by (apply between_spec; lia).
    congruence.
Qed.

(** X18.  [check_operator] never changes the verdict of
    [check_parenthesis]: the parenthesis check leaves the same messages on
    the query string before and after the operators are capitalized. *)
Theorem check_operator_keeps_parenthesis_verdict v :
  linter_messages (check_parenthesis (check_operator v))
  = linter_messages (check_parenthesis v).
Proof.
  symmetry. apply check_parenthesis_same_counts; apply occurrences_rel;
    (eapply Forall2_impl; [apply check_operator_cased|]);
    intros x y; by apply cased_parenthesis.
Qed.

Lemma filter_search_field_rewrites strict stdin v v' stdin' :
  filter_search_field strict stdin v = Ok (v', stdin') →
  length (query_str v') = length (query_str v)
  ∧ (∀ i, replaced (query_str v) i = true →
          slice (query_str v') i (i + 2) ∈ supported_fields)
  ∧ (∀ i, replaced (query_str v) i = false →
          match i with 0 => True | S j => replaced (query_str v) j = false end →
          query_str v' !! i = query_str v !! i).
Proof.
  intros Hok. destruct strict.
  - pose proof (filter_search_field_strict_spec v stdin) as H.
    cbn zeta in H. case_bool_decide as Hle; [|by rewrite H in Hok].
    destruct H as (q' & stdin1 & E & Hlen & _ & _ & _ & Hk & Hi).
    rewrite E in Hok. simplify_eq. cbn [query_str].
    split; [done|]. split.
    + intros i Hi'.
      assert ((i, i + 2) ∈ unsupported_tokens (query_str v)) as Hin.
      { apply elem_of_unsupported_tokens. eauto. }
      apply list_elem_of_lookup in Hin as [k Hk'].
      destruct (lookup_lt_is_Some_2 (accepted_lines stdin) k) as [line Hl].
      { apply lookup_lt_Some in Hk'. lia. }
      pose proof (Hk k (i, i + 2) line Hk' Hl) as Hs. cbn [fst snd] in Hs.
      rewrite Hs.
      apply (accepted_lines_elem stdin). by eapply list_elem_of_lookup_2.
    + intros i Hr Hp. apply Hi.
      destruct (span_of _ i) as [m|] eqn:Es; [exfalso|done].
      apply span_of_Some in Es
        as [(i0 & -> & Hr0)%elem_of_unsupported_tokens Hin].
      simpl in Hin. destruct (decide (i = i0)) as [->|Hne]; [congruence|].
      destruct i as [|i]; [lia|]. assert (i = i0) as -> by lia. congruence.
  - unfold filter_search_field in Hok. rewrite filter_loop_nonstrict in Hok.
    rewrite filter_query in Hok. simplify_eq. cbn [query_str].
    set (s := query_str v). split; [|split].
    + unfold expected_query. by rewrite length_imap.
    + intros i Hi.
      destruct (replaced_inv s i Hi) as (a & b & Ha & Hb & _ & _ & Hn & _).
      replace (slice (expected_query s) i (i + 2)) with (str "AB").
      { unfold supported_fields. rewrite !fmap_cons. do 3 right. left. }
      symmetry. apply slice_two; [done|]. intros j' Hj'.
      unfold expected_query. rewrite list_lookup_imap.
      destruct j' as [|[|]]; [| |lia].
      * by rewrite Nat.add_0_r, Ha; simpl; rewrite Hi.
      * rewrite Hb. simpl. rewrite Hn.
        rewrite bool_decide_true by lia.
        replace (i + 1 - 1) with i by lia. by rewrite Hi.
    + intros i Hi Hp. unfold expected_query. rewrite list_lookup_imap.
      destruct (s !! i) as [c|]; [|done]. simpl. rewrite Hi.
      destruct i as [|i]; [done|]. simpl. by rewrite Nat.sub_0_r, Hp.
Qed.

Lemma rewritten_other_chars (s s' : pystr) c :
  is_upper_AZ c = false →
  (∀ i, replaced s i = true → slice s' i (i + 2) ∈ supported_fields) →
  (∀ i, replaced s i = false →
        match i with 0 => True | S j => replaced s j = false end →
        s' !! i = s !! i) →
  ∀ i, s !! i = Some c ↔ s' !! i = Some c.
Proof.
  intros Hc Hrep Hkeep i.
  assert (∀ k, replaced s k = true →
            ∃ a b a' b', s !! k = Some a ∧ s !! (S k) = Some b
              ∧ s' !! k = Some a' ∧ s' !! (S k) = Some b'
              ∧ is_upper_AZ a = true ∧ is_upper_AZ b = true
              ∧ is_upper_AZ a' = true ∧ is_upper_AZ b' = true) as Htok.
  { intros k Hk.
    destruct (replaced_inv s k Hk) as (a & b & Ha & Hb & Hua & Hub & _).
    destruct (supported_fields_upper _ (Hrep k Hk)) as (a' & b' & E & Ha' & Hb').
    exists a, b, a', b'. replace (k + 1) with (S k) in Hb by lia.
    assert (slice s' k (k + 2) !! 0 = Some a') as H0 by (by rewrite E).
    assert (slice s' k (k + 2) !! 1 = Some b') as H1 by (by rewrite E).
    rewrite slice_lookup in H0, H1.
    rewrite bool_decide_true in H0, H1 by lia.
    rewrite Nat.add_0_r in H0. replace (k + 1) with (S k) in H1 by lia.
    done. }
  destruct (replaced s i) eqn:Ri.
  { destruct (Htok i Ri) as (a & b & a' & b' & -> & _ & -> & _ & ? & _ & ? & _).
    split; intros [= ->]; congruence. }
  destruct i as [|j]; [by rewrite Hkeep|].
  destruct (replaced s j) eqn:Rj; [|by rewrite Hkeep].
  destruct (Htok j Rj) as (a & b & a' & b' & _ & -> & _ & -> & _ & ? & _ & ?).
  split; intros [= ->]; congruence.
Qed.

(** X19.  [filter_search_field] never changes the verdict of
    [check_parenthesis]: when it returns, in either mode, the parenthesis
    check leaves the same messages on the rewritten query string as on the
    original one. *)
Theorem filter_search_field_keeps_parenthesis_verdict strict stdin v v' stdin' :
  filter_search_field strict stdin v = Ok (v', stdin') →
  linter_messages (check_parenthesis v')
  = linter_messages (check_parenthesis v).
Proof.
  intros (Hlen & Hrep & Hkeep)%filter_search_field_rewrites.
  symmetry. apply check_parenthesis_same_counts;
    (apply occurrences_lookup; [done|]);
    by apply rewritten_other_chars.
Qed.

End verdict.

Lemma filter_search_field_keeps_parenthesis_verdict_witness :
  @filter_search_field no_unicode false []
    (mkValidator (str "(XY cancer") [] [])
  = Ok (mkValidator (str "(AB cancer") [] [unsupported_error (str "XY") 1 3], [])
  ∧ linter_messages
      (check_parenthesis
         (mkValidator (str "(AB cancer") [] [unsupported_error (str "XY") 1 3]))
    = linter_messages (check_parenthesis (mkValidator (str "(XY cancer") [] [])).
Proof.
  assert (@filter_search_field no_unicode false []
            (mkValidator (str "(XY cancer") [] [])
          = Ok (mkValidator (str "(AB cancer") [] [unsupported_error (str "XY") 1 3],
                [])) as H by (vm_compute; reflexivity).
  split; [exact H|].
  exact (@filter_search_field_keeps_parenthesis_verdict no_unicode false []
           _ _ [] H).
Defined.

End ParserValidationFacts.
